(** * SPFlow: the node model and the generic evaluation engine

    A shallow embedding of [spflow/base/structure/nodes/node.py] and of the
    parametric leaf adapters, with the properties the specification states
    about them, and with further properties of the same code: the
    traversals, the identifiers, the messages of the top-down evaluation, the
    comparison and the construction of nodes, the parameters of the leaves.

    Python objects live in a [store]: an arena of node records in which the
    identity of an object is its index.  Child references are indices, so that
    shared children and cycles are representable, as they are in Python.
    Exceptions are values of a result type. *)

From Stdlib Require Import QArith Lqa.
From stdpp Require Import base list gmap strings fin_maps pretty.

Local Open Scope Z_scope.
Local Open Scope nat_scope.

(** ** Exceptions and results *)

Inductive exn :=
  | AssertionError (msg : string)
  | KeyError
  | IndexError
  | ValueError
  | AttributeError
  | RecursionError
  | InvalidParametersError (msg : string).

(** [Diverge] is the answer of a loop that was cut off before its exit
    condition held.  The loops of the source have no such outcome; the theorems
    below show that the bounds used here are never reached. *)
Inductive res (A : Type) :=
  | Ok (a : A)
  | Raise (e : exn)
  | Diverge.
Arguments Ok {A} a.
Arguments Raise {A} e.
Arguments Diverge {A}.

Global Instance res_bind : MBind res := λ A B k r,
  match r with
  | Ok a => k a
  | Raise e => Raise e
  | Diverge => Diverge
  end.

(** [for x in l: body], the body threading the loop state. *)
Fixpoint for_each {A S} (body : A → S → res S) (l : list A) (s : S) : res S :=
  match l with
  | [] => Ok s
  | x :: l => s' ← body x s; for_each body l s'
  end.

(** [d[k]] on a dict. *)
Definition getitem {V} (k : nat) (d : gmap nat V) : res V :=
  match d !! k with
  | Some v => Ok v
  | None => Raise KeyError
  end.

(** ** [collections.OrderedDict]: a map that remembers insertion order *)

Record odict (V : Type) := mk_odict { od_keys : list nat; od_map : gmap nat V }.
Arguments mk_odict {V}.
Arguments od_keys {V}.
Arguments od_map {V}.

Definition od_empty {V} : odict V := mk_odict [] ∅.

Definition od_get {V} (k : nat) (d : odict V) : option V := od_map d !! k.

Definition od_getitem {V} (k : nat) (d : odict V) : res V := getitem k (od_map d).

(** [d[k] = v]: a new key goes to the end, an old key keeps its place. *)
Definition od_set {V} (k : nat) (v : V) (d : odict V) : odict V :=
  mk_odict (if decide (is_Some (od_map d !! k)) then od_keys d else od_keys d ++ [k])
           (<[k := v]> (od_map d)).

(** ** Classes

    A class is the chain of its ancestors below [INode], most derived first:
    every class of the node hierarchy derives from [INode], which is the empty
    chain.  [type(n) is c] is equality of chains. *)

Abbreviation pyclass := (list string).

Definition cINode : pyclass := [].
Definition cIProductNode : pyclass := ["IProductNode"%string].
Definition cISumNode : pyclass := ["ISumNode"%string].
Definition cILeafNode : pyclass := ["ILeafNode"%string].
Definition cParametricLeaf : pyclass := "ParametricLeaf"%string :: cILeafNode.
Definition cGaussian : pyclass := "Gaussian"%string :: cParametricLeaf.
Definition cHypergeometric : pyclass := "Hypergeometric"%string :: cParametricLeaf.

Definition issubclass (c d : pyclass) : bool := bool_decide (d `suffix_of` c).

(** ** Floating-point numbers *)

(** A Python float, or an entry of a numpy array of floats: a finite one is a
    rational number; comparisons with NaN do not hold. *)
Inductive pyfloat :=
  | Finite (q : Q)
  | Infinite (negative : bool)
  | NaN.

(** [x < y]. *)
Definition float_lt (x y : pyfloat) : bool :=
  match x, y with
  | NaN, _ | _, NaN => false
  | Finite a, Finite b => negb (Qle_bool b a)
  | Finite _, Infinite negative => negb negative
  | Infinite negative, Finite _ => negative
  | Infinite n1, Infinite n2 => n1 && negb n2
  end.

(** [x > y]. *)
Definition float_gt (x y : pyfloat) : bool := float_lt y x.

Definition np_isfinite (x : pyfloat) : bool :=
  match x with
  | Finite _ => true
  | _ => false
  end.

(** The float that the literal [1e-08] denotes: the double nearest to 10^-8,
    0x1.5798ee2308c3ap-27. *)
Definition eps_1e_08 : Q := 3022314549036573 # 302231454903657293676544.
Definition float_1e_08 : pyfloat := Finite eps_1e_08.

(** What the code asks of numpy on arrays of floats.  The arithmetic of
    doubles rounds and is not computed here: [np_add] and [np_divide] stand
    for [+] and [/] on one entry, [np_sum] for [ndarray.sum()],
    [np_random_rand k] for the array that [np.random.rand(k)] draws, and
    [np_isclose] for [np.isclose(a, b, rtol=1.0e-5)] on one pair of entries,
    which [np.allclose] asks of every pair. *)
Record numpy := mk_numpy {
  np_random_rand : nat → list pyfloat;
  np_add : pyfloat → pyfloat → pyfloat;
  np_sum : list pyfloat → pyfloat;
  np_divide : pyfloat → pyfloat → pyfloat;
  np_isclose : pyfloat → pyfloat → bool
}.

(** ** Nodes *)

(** The class of the object, the fields [children] and [scope] that
    [INode.__init__] sets, and [weights], which only [ISumNode.__init__] sets
    ([None] here when the attribute is absent).  The scratch fields [value] and
    [id] are read by none of the functions below and are left out. *)
Record INode := mkINode {
  type_ : pyclass;
  children : list nat;
  scope : list Z;
  weights : option (list pyfloat)
}.

Global Instance INode_inhabited : Inhabited INode := populate (mkINode cINode [] [] None).

Abbreviation store := (list INode).

Definition type_of (h : store) (n : nat) : pyclass := type_ (h !!! n).
Definition children_of (h : store) (n : nat) : list nat := children (h !!! n).
Definition scope_of (h : store) (n : nat) : list Z := scope (h !!! n).
Definition isinstance (h : store) (n : nat) (c : pyclass) : bool := issubclass (type_of h n) c.

(** A store is closed when every reference in it points to an object, as every
    Python reference does. *)
Definition wf_store (h : store) (root : nat) : Prop :=
  root < length h ∧ Forall (λ nd, Forall (λ c, c < length h) (children nd)) h.

Global Instance wf_store_dec h root : Decision (wf_store h root).
Proof. unfold wf_store. apply _. Defined.

(** ** Traversal *)

Section traversal.
Variable h : store.

(** The [for c in node.children] loop of [bfs]. *)
Definition bfs_enqueue (cs : list nat) (st : gset nat * list nat) : gset nat * list nat :=
  foldl (λ '(seen, queue) c,
           if decide (c ∈ seen) then (seen, queue) else ({[c]} ∪ seen, queue ++ [c]))
        st cs.

Fixpoint bfs_loop {A} (func : nat → A → A) (fuel : nat)
    (seen : gset nat) (queue : list nat) (acc : A) : res A :=
  match queue with
  | [] => Ok acc
  | node :: queue =>
    match fuel with
    | 0 => Diverge
    | S fuel =>
      let acc := func node acc in
      let '(seen, queue) :=
        if isinstance h node cILeafNode then (seen, queue)
        else bfs_enqueue (children_of h node) (seen, queue) in
      bfs_loop func fuel seen queue acc
    end
  end.

(** [func] is called for its effect; the effect is a change of [acc]. *)
Definition bfs {A} (root : nat) (func : nat → A → A) (acc : A) : res A :=
  bfs_loop func (length h) {[root]} [root] acc.

Definition get_nodes_by_type (node : nat) (ntype : pyclass) : res (list nat) :=
  bfs node (λ n result, if isinstance h n ntype then result ++ [n] else result) [].

(** The body of [for n in nodes] in [get_topological_order]; [parents] is
    never iterated, so its order is not kept. *)
Definition record_child (n c : nat) (st : gmap nat (list nat) * odict Z)
    : res (gmap nat (list nat) * odict Z) :=
  let '(parents, in_degree) := st in
  let parent_list := default [] (parents !! c) in
  let parents := <[c := parent_list ++ [n]]> parents in
  d ← od_getitem n in_degree;
  Ok (parents, od_set n (d + 1)%Z in_degree).

Definition record_node (n : nat) (st : gmap nat (list nat) * odict Z)
    : res (gmap nat (list nat) * odict Z) :=
  let '(parents, in_degree) := st in
  let in_degree := od_set n (default 0%Z (od_get n in_degree)) in_degree in
  if isinstance h n cILeafNode then Ok (parents, in_degree)
  else for_each (record_child n) (children_of h n) (parents, in_degree).

(** The body of [for m in parents[n]].  The worklist is kept with the right
    end of the deque first: [pop()] takes the head, [appendleft] adds at the
    end. *)
Definition relax (m : nat) (st : odict Z * list nat) : res (odict Z * list nat) :=
  let '(in_degree, Sq) := st in
  d ← od_getitem m in_degree;
  let in_degree_m := (d - 1)%Z in
  let in_degree := od_set m in_degree_m in_degree in
  Ok (in_degree, if decide (in_degree_m = 0%Z) then Sq ++ [m] else Sq).

Fixpoint kahn_loop (fuel : nat) (parents : gmap nat (list nat))
    (in_degree : odict Z) (Sq L : list nat) : res (list nat) :=
  match Sq with
  | [] => Ok L
  | n :: Sq =>
    match fuel with
    | 0 => Diverge
    | S fuel =>
      let L := L ++ [n] in
      ps ← getitem n parents;
      '(in_degree, Sq) ← for_each relax ps (in_degree, Sq);
      kahn_loop fuel parents in_degree Sq L
    end
  end.

Definition zero_in_degree (in_degree : odict Z) (u : nat) (Sq : list nat) : res (list nat) :=
  d ← od_getitem u in_degree;
  Ok (if decide (d = 0%Z) then Sq ++ [u] else Sq).

Definition get_topological_order (node : nat) : res (list nat) :=
  nodes ← get_nodes_by_type node cINode;
  '(parents, in_degree) ← for_each record_node nodes ({[node := []]}, od_empty);
  Sq ← for_each (zero_in_degree in_degree) (od_keys in_degree) [];
  L ← kahn_loop (length nodes) parents in_degree Sq [];
  if decide (length L = length nodes) then Ok L
  else Raise (AssertionError "Graph is not DAG, it has at least one cycle").

End traversal.

(** ** Layered topological order *)

Section layers.
Variable h : store.

(** The body of [for n in L[-1]]. *)
Definition relax_parents (parents : gmap nat (list nat)) (n : nat)
    (st : odict Z * list nat) : res (odict Z * list nat) :=
  ps ← getitem n parents;
  for_each relax ps st.

(** The [while True] loop; [layer.append(m)] is the append of [relax]. *)
Fixpoint layers_loop (fuel : nat) (parents : gmap nat (list nat))
    (in_degree : odict Z) (L : list (list nat)) (added_nodes : nat)
    : res (list (list nat) * nat) :=
  match fuel with
  | 0 => Diverge
  | S fuel =>
    match last L with
    | None => Raise IndexError
    | Some prev =>
      '(in_degree, layer) ← for_each (relax_parents parents) prev (in_degree, []);
      if decide (length layer = 0) then Ok (L, added_nodes)
      else layers_loop fuel parents in_degree (L ++ [layer]) (added_nodes + length layer)
    end
  end.

Definition get_topological_order_layers (node : nat) : res (list (list nat)) :=
  nodes ← get_nodes_by_type h node cINode;
  '(parents, in_degree) ← for_each (record_node h) nodes ({[node := []]}, od_empty);
  layer ← for_each (zero_in_degree in_degree) (od_keys in_degree) [];
  '(L, added_nodes) ← layers_loop (S (length nodes)) parents in_degree [layer] (length layer);
  if decide (added_nodes = length nodes) then Ok L
  else Raise (AssertionError "Graph is not DAG, it has at least one cycle").

End layers.

(** ** Bottom-up evaluation *)

Definition type_name (c : pyclass) : string := default "INode"%string (head c).

(** A handler is called as [func(n, **args)] on a leaf and as
    [func(n, children_results, **args)] on an inner node; the free parameters
    [args] are part of the handler here.  Handlers are pure: an exception
    raised by a handler leaves the evaluator unchanged and is not modelled.
    A handler is given the index of its node and reads the node in the graph
    it was written for; a Python handler that reads an attribute of its node
    is, on two graphs, two handlers here.  [V] is the type of the results of
    handlers. *)
Abbreviation bu_handler V := (nat → option (list V) → V).

Section bottom_up.
Context {V : Type}.

(** A call of a handler: the key of [eval_functions] it was found under, the
    node, the children's results passed, the result stored. *)
Record bu_call := mk_bu_call {
  bu_key : pyclass;
  bu_node : nat;
  bu_args : option (list V);
  bu_result : V
}.

Variable h : store.

(** The [try]/[except] at the head of the loop body. *)
Definition bu_resolve (node_type_eval_func_dict : gmap pyclass (list (bu_handler V)))
    (node_type_is_leaf_dict : gmap pyclass bool) (leaf_func : option (bu_handler V))
    (n : nat) : res (pyclass * (bu_handler V) * bool) :=
  match (fs ← node_type_eval_func_dict !! type_of h n;
         func ← last fs;
         n_is_leaf ← node_type_is_leaf_dict !! type_of h n;
         Some (func, n_is_leaf)) with
  | Some (func, n_is_leaf) => Ok (type_of h n, func, n_is_leaf)
  | None =>
    match leaf_func with
    | Some func =>
      if isinstance h n cILeafNode then Ok (cILeafNode, func, true)
      else Raise (AssertionError
             ("No lambda function associated with type: " +:+ type_name (type_of h n)))
    | None => Raise (AssertionError
             ("No lambda function associated with type: " +:+ type_name (type_of h n)))
    end
  end.

(** [tmp_children_list[i] = all_results[n.children[i]]] for every [i], then
    the slice [tmp_children_list[0:len_children]]. *)
Fixpoint gather (all_results : gmap nat V) (cs : list nat) : res (list V) :=
  match cs with
  | [] => Ok []
  | ci :: cs => v ← getitem ci all_results; vs ← gather all_results cs; Ok (v :: vs)
  end.

Definition bu_visit (func_dict : gmap pyclass (list (bu_handler V)))
    (leaf_dict : gmap pyclass bool) (leaf_func : option (bu_handler V))
    (n : nat) (st : gmap nat V * list bu_call) : res (gmap nat V * list bu_call) :=
  let '(all_results, calls) := st in
  '(key, func, n_is_leaf) ← bu_resolve func_dict leaf_dict leaf_func n;
  args ← (if n_is_leaf : bool then Ok None
          else vs ← gather all_results (children_of h n); Ok (Some vs));
  let result := func n args in
  Ok (<[n := result]> all_results, calls ++ [mk_bu_call key n args result]).

(** Returns the value, the final [all_results] and the calls made.
    [all_results] starts empty, whether it is created or cleared.  The loop
    that empties [node_type_eval_func_dict] before the return changes a local
    dict only. *)
Definition eval_spn_bottom_up (node : nat) (eval_functions : gmap pyclass (bu_handler V))
    : res (V * gmap nat V * list bu_call) :=
  nodes ← get_topological_order h node;
  let node_type_eval_func_dict := (λ func, [func]) <$> eval_functions in
  let node_type_is_leaf_dict :=
    map_imap (λ node_type _, Some (issubclass node_type cILeafNode)) eval_functions in
  let leaf_func := eval_functions !! cILeafNode in
  '(all_results, calls) ←
    for_each (bu_visit node_type_eval_func_dict node_type_is_leaf_dict leaf_func)
             nodes (∅, []);
  v ← getitem node all_results;
  Ok (v, all_results, calls).

End bottom_up.
Arguments bu_call : clear implicits.

(** ** Top-down evaluation *)

(** A handler is called as [func(n, params, **args)] and returns [None] or a
    dict from children to messages, kept in the order of its items.  [M] is the
    type of the messages pushed downwards. *)
Abbreviation td_handler M := (nat → list M → option (list (nat * M))).

Section top_down.
Context {M : Type}.

(** A call of a handler: the key of [eval_functions] it was found under, the
    node, the messages passed, the dict returned. *)
Record td_call := mk_td_call {
  td_key : pyclass;
  td_node : nat;
  td_params : list M;
  td_result : option (list (nat * M))
}.

Variable h : store.

Definition td_resolve (eval_functions : gmap pyclass (td_handler M))
    (leaf_func : option (td_handler M)) (n : nat) : res (pyclass * (td_handler M)) :=
  match leaf_func with
  | Some func =>
    if isinstance h n cILeafNode then Ok (cILeafNode, func)
    else match eval_functions !! type_of h n with
         | Some func => Ok (type_of h n, func)
         | None => Raise KeyError
         end
  | None =>
    match eval_functions !! type_of h n with
    | Some func => Ok (type_of h n, func)
    | None => Raise KeyError
    end
  end.

(** [if child not in all_results: all_results[child] = []] followed by
    [all_results[child].append(param)]. *)
Definition push_message (all_results : gmap nat (list M)) (item : nat * M)
    : gmap nat (list M) :=
  <[item.1 := default [] (all_results !! item.1) ++ [item.2]]> all_results.

(** [if result is not None and not isinstance(n, ILeafNode)] and the loop
    over [result.items()] it guards. *)
Definition push_messages (n : nat) (result : option (list (nat * M)))
    (all_results : gmap nat (list M)) : gmap nat (list M) :=
  match result with
  | Some items =>
    if isinstance h n cILeafNode then all_results
    else foldl push_message all_results items
  | None => all_results
  end.

Definition td_visit (eval_functions : gmap pyclass (td_handler M))
    (leaf_func : option (td_handler M)) (n : nat)
    (st : gmap nat (list M) * list td_call) : res (gmap nat (list M) * list td_call) :=
  let '(all_results, calls) := st in
  '(key, func) ← td_resolve eval_functions leaf_func n;
  params ← getitem n all_results;
  let result := func n params in
  Ok (push_messages n result all_results, calls ++ [mk_td_call key n params result]).

(** Returns the value, the final [all_results] and the calls made.
    [all_results] starts empty, whether it is created or cleared. *)
Definition eval_spn_top_down (root : nat) (eval_functions : gmap pyclass (td_handler M))
    (parent_result : M) : res (list M * gmap nat (list M) * list td_call) :=
  let all_results : gmap nat (list M) := {[root := [parent_result]]} in
  let leaf_func := eval_functions !! cILeafNode in
  layers ← get_topological_order_layers h root;
  '(all_results, calls) ←
    for_each (λ layer st, for_each (td_visit eval_functions leaf_func) layer st)
             (reverse layers) (all_results, []);
  v ← getitem root all_results;
  Ok (v, all_results, calls).

End top_down.
Arguments td_call : clear implicits.

(** ** Construction and comparison of nodes *)

(** [__init__] allocates: the new object goes to the end of the store and its
    index is returned.  No constructor of [node.py] has a [raise]. *)
Definition alloc (h : store) (nd : INode) : res (store * nat) := Ok (h ++ [nd], length h).

(** [INode.__len__]. *)
Definition INode_len (h : store) (n : nat) : nat := 1.

Definition IProductNode_init (h : store) (children : list nat) (scope : list Z)
    : res (store * nat) :=
  alloc h (mkINode cIProductNode children scope None).

Definition ILeafNode_init (h : store) (scope : list Z) : res (store * nat) :=
  alloc h (mkINode cILeafNode [] scope None).

(** [ISumNode.__init__]: weights that are passed are stored as they are;
    omitted weights are drawn, raised by [1e-08] and divided by their sum. *)
Definition ISumNode_init (np : numpy) (h : store) (children : list nat)
    (scope : list Z) (weights : option (list pyfloat)) : res (store * nat) :=
  let weights :=
    match weights with
    | None =>
      let weights :=
        (λ x, np_add np x float_1e_08)
          <$> np_random_rand np (sum_list_with (INode_len h) children) in
      (λ x, np_divide np x (np_sum np weights)) <$> weights
    | Some weights => weights
    end in
  alloc h (mkINode cISumNode children scope (Some weights)).

(** [np.allclose(a, b, rtol=1.0e-5)] on one-dimensional arrays: [np.isclose]
    at every index, after broadcasting an array of one element; other shapes
    do not broadcast. *)
Definition allclose (np : numpy) (a b : list pyfloat) : res bool :=
  match a, b with
  | [x], _ => Ok (forallb (np_isclose np x) b)
  | _, [y] => Ok (forallb (λ x, np_isclose np x y) a)
  | _, _ =>
    if decide (length a = length b)
    then Ok (forallb (λ p, np_isclose np p.1 p.2) (zip a b))
    else Raise ValueError
  end.

Definition getattr_weights (h : store) (n : nat) : res (list pyfloat) :=
  match weights (h !!! n) with
  | Some w => Ok w
  | None => Raise AttributeError
  end.

(** [self.equals(other)], resolved on the class of [self]: [ISumNode.equals]
    for a sum node, [INode.equals] otherwise.  [depth] bounds the nesting of
    the calls of [equals]: the interpreter allows a number of frames, and a
    level of this recursion takes a fixed number of them, so that a limit of
    the interpreter is a [depth] and a larger limit a larger one.  No
    statement below depends on the number of frames of a level. *)
Fixpoint equals (np : numpy) (depth : nat) (h : store) (self other : nat) : res bool :=
  match depth with
  | 0 => Raise RecursionError
  | S depth =>
    let INode_equals : res bool :=
      if decide (type_of h self = type_of h other) then
        if decide (scope_of h self = scope_of h other) then
          (* [all(map(lambda x, y: x.equals(y), ...))]: [map] stops with the
             shorter list, [all] at the first [False] *)
          (fix all_map (xs ys : list nat) : res bool :=
             match xs, ys with
             | x :: xs, y :: ys =>
               b ← equals np depth h x y;
               if b : bool then all_map xs ys else Ok false
             | _, _ => Ok true
             end) (children_of h self) (children_of h other)
        else Ok false
      else Ok false in
    if issubclass (type_of h self) cISumNode then
      if decide (type_of h other = cISumNode) then
        b ← INode_equals;
        if b : bool then
          w1 ← getattr_weights h self;
          w2 ← getattr_weights h other;
          c ← allclose np w1 w2;
          if c : bool then Ok (bool_decide (length w1 = length w2)) else Ok false
        else Ok false
      else Ok false
    else INode_equals
  end.

(** ** Parametric leaves *)

(** [ParametricLeaf.__str__] formats the scope and the dict of parameters. *)
Definition pretty_list (l : list string) : string :=
  "[" +:+ String.concat ", " l +:+ "]".

Definition pretty_dict (d : list (string * string)) : string :=
  "{" +:+ String.concat ", " ((λ kv, "'" +:+ kv.1 +:+ "': " +:+ kv.2) <$> d) +:+ "}".

Definition ParametricLeaf_str (name : string) (scope : list Z)
    (parameters : list (string * string)) : string :=
  name +:+ ": " +:+ pretty_list (pretty <$> scope) +:+ " - Param.: " +:+ pretty_dict parameters.

(** *** Hypergeometric *)

Module Hypergeometric.

Record t := mk {
  scope : list Z;
  N : option Z;
  M : option Z;
  n : option Z
}.

(** [get_scipy_object_parameters] for a [Hypergeometric], and
    [ParametricLeaf.__str__], which the f-strings of the error messages call
    through [{node}] and which calls [get_scipy_object_parameters] in turn.
    A dict is the list of its items in insertion order; [depth] is the number
    of frames the interpreter still allows. *)
Fixpoint get_scipy_object_parameters (depth : nat) (node : t) : res (list (string * Z)) :=
  match depth with
  | 0 => Raise RecursionError
  | S depth =>
    let str_node : res string :=
      match depth with
      | 0 => Raise RecursionError
      | S depth =>
        parameters ← get_scipy_object_parameters depth node;
        Ok (ParametricLeaf_str "Hypergeometric" (scope node)
              (prod_map id pretty <$> parameters))
      end in
    match N node with
    | None =>
      s ← str_node;
      Raise (InvalidParametersError ("Parameter 'N' of " +:+ s +:+ " must not be None"))
    | Some vN =>
      match M node with
      | None =>
        s ← str_node;
        Raise (InvalidParametersError ("Parameter 'M' of " +:+ s +:+ " must not be None"))
      | Some vM =>
        match n node with
        | None =>
          s ← str_node;
          Raise (InvalidParametersError ("Parameter 'n' of " +:+ s +:+ " must not be None"))
        | Some vn =>
          (* note: scipy hypergeom has switched semantics for the parameters *)
          Ok [("M"%string, vN); ("n"%string, vM); ("N"%string, vn)]
        end
      end
    end
  end.

End Hypergeometric.

(** *** Gaussian *)

(** [s] as an index into an axis of [D] entries: negative indices count from
    the end. *)
Definition axis_index (D : nat) (s : Z) : res nat :=
  if decide (0 ≤ s < Z.of_nat D)%Z then Ok (Z.to_nat s)
  else if decide (- Z.of_nat D ≤ s < 0)%Z then Ok (Z.to_nat (Z.of_nat D + s))
  else Raise IndexError.

Module Gaussian.
Section gaussian.
(** [F] stands for the floating-point numbers, [isnan] for [np.isnan] on one
    entry, [one] and [zero] for [1.0] and [0.0], [float_repr] for the text of
    a float.  [pdf] and [logpdf] stand for [scipy.stats.norm.pdf] and
    [logpdf] on one entry with the keyword arguments given; on an array they
    work entry by entry. *)
Context {F : Type}.
Variable isnan : F → bool.
Variables one zero : F.
Variable float_repr : F → string.
Variables pdf logpdf : F → list (string * F) → F.

Record t := mk {
  scope : list Z;
  mean : option F;
  stdev : option F
}.

(** An array of two dimensions: its rows, and the length of each. *)
Record ndarray := mk_ndarray {
  ncols : nat;
  rows : list (list F)
}.

Fixpoint get_scipy_object_parameters (depth : nat) (node : t) : res (list (string * F)) :=
  match depth with
  | 0 => Raise RecursionError
  | S depth =>
    let str_node : res string :=
      match depth with
      | 0 => Raise RecursionError
      | S depth =>
        parameters ← get_scipy_object_parameters depth node;
        Ok (ParametricLeaf_str "Gaussian" (scope node)
              (prod_map id float_repr <$> parameters))
      end in
    match mean node with
    | None =>
      s ← str_node;
      Raise (InvalidParametersError ("Parameter 'mean' of " +:+ s +:+ " must not be None"))
    | Some vmean =>
      match stdev node with
      | None =>
        s ← str_node;
        Raise (InvalidParametersError
                 ("Parameter 'stdev' of " +:+ s +:+ " must not be None"))
      | Some vstdev => Ok [("loc"%string, vmean); ("scale"%string, vstdev)]
      end
    end
  end.

(** [data[:, scope]]. *)
Definition take_columns (data : ndarray) (scope : list Z) : res (list (list F)) :=
  ks ← for_each (λ s ks, k ← axis_index (ncols data) s; Ok (ks ++ [k])) scope [];
  for_each (λ row out,
              match mapM (λ k, row !! k) ks with
              | Some r => Ok (out ++ [r])
              | None => Raise IndexError
              end) (rows data) [].

(** [data[mask]]: the entries at which the mask holds, row after row. *)
Fixpoint select_row (mask : list bool) (xs : list F) : list F :=
  match mask, xs with
  | b :: mask, x :: xs => if b then x :: select_row mask xs else select_row mask xs
  | _, _ => []
  end.

Definition select (mask : list (list bool)) (data : list (list F)) : list F :=
  concat (zip_with select_row mask data).

(** [dst[mask] = vals]: the mask has the shape of [dst], and [vals] one
    value for each entry at which the mask holds. *)
Fixpoint assign_row (mask : list bool) (dst vals : list F) : res (list F * list F) :=
  match mask, dst with
  | [], [] => Ok ([], vals)
  | b :: mask, d :: dst =>
    if b then
      match vals with
      | v :: vals => '(r, vals) ← assign_row mask dst vals; Ok (v :: r, vals)
      | [] => Raise ValueError
      end
    else '(r, vals) ← assign_row mask dst vals; Ok (d :: r, vals)
  | _, _ => Raise IndexError
  end.

Fixpoint assign_rows (mask : list (list bool)) (dst : list (list F)) (vals : list F)
    : res (list (list F) * list F) :=
  match mask, dst with
  | [], [] => Ok ([], vals)
  | m :: mask, d :: dst =>
    '(r, vals) ← assign_row m d vals;
    '(rs, vals) ← assign_rows mask dst vals;
    Ok (r :: rs, vals)
  | _, _ => Raise IndexError
  end.

Definition assign (mask : list (list bool)) (dst : list (list F)) (vals : list F)
    : res (list (list F)) :=
  '(out, vals) ← assign_rows mask dst vals;
  match vals with
  | [] => Ok out
  | _ => Raise ValueError
  end.

Definition node_likelihood (depth : nat) (node : t) (data : ndarray)
    : res (list (list F)) :=
  let probs := replicate (length (rows data)) [one] in
  data ← take_columns data (scope node);
  let marg_ids : list (list bool) := map (map isnan) data in
  let x := select (map (map negb) marg_ids) data in
  kwargs ← get_scipy_object_parameters depth node;
  assign (map (map negb) marg_ids) probs (map (λ x, pdf x kwargs) x).

Definition node_log_likelihood (depth : nat) (node : t) (data : ndarray)
    : res (list (list F)) :=
  let probs := replicate (length (rows data)) [zero] in
  data ← take_columns data (scope node);
  let marg_ids : list (list bool) := map (map isnan) data in
  let x := select (map (map negb) marg_ids) data in
  kwargs ← get_scipy_object_parameters depth node;
  let temp := map (λ x, logpdf x kwargs) x in
  assign (map (map negb) marg_ids) probs temp.

End gaussian.
Arguments t : clear implicits.
Arguments ndarray : clear implicits.
End Gaussian.

(** * The vocabulary of the specifications *)

(** ** The graph a traversal sees *)

(** Both [bfs] and [get_topological_order] follow the children of a node only
    when it is not an instance of [ILeafNode]. *)
Definition succs (h : store) (n : nat) : list nat :=
  if isinstance h n cILeafNode then [] else children_of h n.

Definition edge (h : store) (m c : nat) : Prop := c ∈ succs h m.

Definition reachable (h : store) (root n : nat) : Prop := rtc (edge h) root n.

Definition acyclic (h : store) (root : nat) : Prop :=
  ∀ n, reachable h root n → ¬ tc (edge h) n n.

(** Number of occurrences of [c] in [l]. *)
Definition count_of (c : nat) (l : list nat) : nat := length (filter (λ x, x = c) l).

(** Two stores have the same shape when they differ at most in the scopes
    and weights of their nodes. *)
Definition same_shape (h h' : store) : Prop :=
  (λ nd, (type_ nd, children nd)) <$> h = (λ nd, (type_ nd, children nd)) <$> h'.

(** A store is increasing when every reference points to a later object;
    such a store has no cycle. *)
Definition increasing (h : store) : Prop :=
  Forall (λ p, Forall (λ c, p.1 < c) (children p.2)) (zip (seq 0 (length h)) h).

Global Instance increasing_dec h : Decision (increasing h).
Proof. unfold increasing. apply _. Defined.

(** ** Invariants of the traversals *)

Section graph_vocabulary.
Variable h : store.

(** The loop invariant: [done] are the nodes already dequeued. *)
Definition bfs_inv (root : nat) (done : list nat) (seen : gset nat) (queue : list nat) : Prop :=
  NoDup (done ++ queue)
  ∧ (∀ x, x ∈ seen ↔ x ∈ done ++ queue)
  ∧ (∀ x, x ∈ seen → x < length h ∧ reachable h root x)
  ∧ (∀ n c, n ∈ done → c ∈ succs h n → c ∈ seen).

(** The list [parents[c]] holds once the nodes [l] are recorded: every
    parent, once per reference to [c]. *)
Definition parents_of (l : list nat) (c : nat) : list nat :=
  l ≫= (λ n, replicate (count_of c (succs h n)) n).

(** References of [m] to children that are not yet in [L]. *)
Definition pending (L : list nat) (m : nat) : nat :=
  length (filter (λ c, c ∉ L) (succs h m)).

(** What holds of the output list of the main loop. *)
Definition kahn_sorted (nodes L : list nat) : Prop :=
  NoDup L
  ∧ (∀ x, x ∈ L → x ∈ nodes)
  ∧ (∀ m, m ∈ nodes → m ∈ L ↔ ∀ c, c ∈ succs h m → c ∈ L)
  ∧ (∀ i m c, L !! i = Some m → c ∈ succs h m → ∃ j, j < i ∧ L !! j = Some c).

Definition kahn_inv (nodes : list nat) (d : odict Z) (Sq L : list nat) : Prop :=
  NoDup (L ++ Sq)
  ∧ (∀ x, x ∈ L ++ Sq → x ∈ nodes)
  ∧ (∀ m, m ∈ nodes → od_map d !! m = Some (Z.of_nat (pending L m)))
  ∧ (∀ m, m ∈ nodes → m ∈ L ++ Sq ↔ pending L m = 0)
  ∧ (∀ i m c, L !! i = Some m → c ∈ succs h m → ∃ j, j < i ∧ L !! j = Some c).

(** Every child followed from a node of a layer lies in an earlier layer. *)
Definition layered (Ls : list (list nat)) : Prop :=
  ∀ i layer m c, Ls !! i = Some layer → m ∈ layer → c ∈ succs h m →
    ∃ j layer', j < i ∧ Ls !! j = Some layer' ∧ c ∈ layer'.

End graph_vocabulary.

(** ** Calls of handlers *)

Section bottom_up_vocabulary.
Context {V : Type}.
Variable h : store.
Variable eval_functions : gmap pyclass (bu_handler V).

(** Some handler applies to [n]: the one of its class, or the one of
    [ILeafNode] when [n] is a leaf. *)
Definition bu_applicable (n : nat) : Prop :=
  is_Some (eval_functions !! type_of h n)
  ∨ (isinstance h n cILeafNode = true ∧ is_Some (eval_functions !! cILeafNode)).

(** A call follows the rules of the evaluator: the handler of the class of
    the node comes first, the handler of [ILeafNode] is the fallback for a
    leaf, the arguments are the results stored for the children, and the
    result of the call is the one stored for the node. *)
Definition bu_call_ok (results : gmap nat V) (c : bu_call V) : Prop :=
  results !! bu_node c = Some (bu_result c)
  ∧ match eval_functions !! type_of h (bu_node c) with
    | Some func =>
      bu_key c = type_of h (bu_node c)
      ∧ bu_result c = func (bu_node c) (bu_args c)
      ∧ (if isinstance h (bu_node c) cILeafNode then bu_args c = None
         else ∃ vs, bu_args c = Some vs
                ∧ Forall2 (λ ci v, results !! ci = Some v) (children_of h (bu_node c)) vs)
    | None =>
      isinstance h (bu_node c) cILeafNode = true
      ∧ bu_key c = cILeafNode
      ∧ bu_args c = None
      ∧ ∃ leaf_func, eval_functions !! cILeafNode = Some leaf_func
                   ∧ bu_result c = leaf_func (bu_node c) None
    end.

End bottom_up_vocabulary.

Section top_down_vocabulary.
Context {M : Type}.
Variable h : store.
Variable eval_functions : gmap pyclass (td_handler M).
Variable root : nat.

(** Some handler applies to [n]: the one of [ILeafNode] when [n] is a leaf
    and there is one, or the one of the class of [n]. *)
Definition td_applicable (n : nat) : Prop :=
  (isinstance h n cILeafNode = true ∧ is_Some (eval_functions !! cILeafNode))
  ∨ is_Some (eval_functions !! type_of h n).

(** The handler chosen for [n] answers with a dict that has every child of
    [n] among its keys. *)
Definition td_feeds (n : nat) : Prop :=
  ∀ key func params,
    td_resolve h eval_functions (eval_functions !! cILeafNode) n = Ok (key, func) →
    ∃ items, func n params = Some items ∧ ∀ c, c ∈ children_of h n → c ∈ items.*1.

(** No handler answers with a dict that has [root] among its keys. *)
Definition td_never_root : Prop :=
  ∀ key func n params items,
    eval_functions !! key = Some func → func n params = Some items → root ∉ items.*1.

Definition td_call_ok (c : td_call M) : Prop :=
  ∃ func, td_resolve h eval_functions (eval_functions !! cILeafNode) (td_node c) = Ok (td_key c, func)
        ∧ td_result c = func (td_node c) (td_params c).

End top_down_vocabulary.

(** ** Examples *)

(** Two product nodes over the same scope, the first with one child and the
    second with none. *)
Definition uneven_products : store :=
  [ mkINode cIProductNode [2] [0%Z] None;
    mkINode cIProductNode [] [0%Z] None;
    mkINode cILeafNode [] [0%Z] None ].

Definition two_leaves : store :=
  [ mkINode cGaussian [] [0%Z] None; mkINode cGaussian [] [0%Z] None ].

(** A product over two products that share a leaf. *)
Definition diamond : store :=
  [ mkINode cIProductNode [1; 2] [0%Z] None;
    mkINode cIProductNode [3; 3] [0%Z] None;
    mkINode cIProductNode [3] [0%Z] None;
    mkINode cGaussian [] [0%Z] None ].

(** Two product nodes, each the child of the other. *)
Definition two_cycle : store :=
  [ mkINode cIProductNode [1] [0%Z] None; mkINode cIProductNode [0] [0%Z] None ].

Definition count_leaves : gmap pyclass (bu_handler nat) :=
  {[ cIProductNode := (λ n args, sum_list (default [] args));
     cGaussian := (λ n args, 1);
     cILeafNode := (λ n args, 0) ]}.

Definition broadcast : gmap pyclass (td_handler nat) :=
  {[ cIProductNode := (λ n params, Some ((λ c, (c, sum_list params)) <$> children_of diamond n));
     cGaussian := (λ n params, Some []);
     cILeafNode := (λ n params, None) ]}.

(** Two leaves over the same variable, and a product node over both. *)
Definition overlapping : store :=
  [ mkINode cGaussian [] [0%Z] None;
    mkINode cGaussian [] [0%Z] None;
    mkINode cIProductNode [0; 1] [0%Z] None ].

(** The same nodes, the second leaf over another variable. *)
Definition disjoint : store :=
  [ mkINode cGaussian [] [0%Z] None;
    mkINode cGaussian [] [1%Z] None;
    mkINode cIProductNode [0; 1] [0%Z; 1%Z] None ].

Definition nan_column : Gaussian.ndarray (option nat) :=
  Gaussian.mk_ndarray 2 [[None; Some 3]; [Some 1; Some 2]].

Definition standard_normal : Gaussian.t (option nat) :=
  Gaussian.mk [0%Z] (Some (Some 0)) (Some (Some 1)).

(** Stand-ins for [np.isnan] and for a density, on numbers with [None] for
    NaN. *)
Definition is_None (x : option nat) : bool := if x is None then true else false.

Definition shifted (x : option nat) (kwargs : list (string * option nat)) : option nat :=
  (λ v, v + 100) <$> x.

(** ** Floats, and the calls of two runs *)

(** A finite float between two bounds, and a finite float above zero. *)
Definition float_in (low high : Q) (x : pyfloat) : Prop :=
  ∃ q, x = Finite q ∧ (low <= q)%Q ∧ (q <= high)%Q.

Definition float_pos (x : pyfloat) : Prop := ∃ q, x = Finite q ∧ (0 < q)%Q.

(** Two runs made the same calls: on the same nodes, in the same order, with
    handlers found under the same keys. *)
Definition same_calls {V V'} (calls : list (bu_call V)) (calls' : list (bu_call V')) : Prop :=
  bu_node <$> calls = bu_node <$> calls' ∧ bu_key <$> calls = bu_key <$> calls'.

(** Stand-ins for numpy: arithmetic on finite numbers without rounding,
    every draw one half, two finite numbers close when they are equal. *)
Definition float_lift (f : Q → Q → Q) (x y : pyfloat) : pyfloat :=
  match x, y with
  | Finite a, Finite b => Finite (f a b)
  | _, _ => NaN
  end.

Definition exact_numpy : numpy :=
  mk_numpy (λ k, replicate k (Finite (1 # 2)))
           (float_lift Qplus)
           (foldr (float_lift Qplus) (Finite 0))
           (float_lift Qdiv)
           (λ x y, match x, y with
                   | Finite a, Finite b => Qeq_bool a b
                   | _, _ => false
                   end).

(** Handlers that read the scope of the node they are called on, as the
    handlers of the leaves of the repository do; [h] is the graph the
    evaluation runs on. *)
Definition read_scope (h : store) : gmap pyclass (bu_handler (list Z)) :=
  {[ cIProductNode := (λ n args, scope_of h n ++ concat (default [] args));
     cGaussian := (λ n args, scope_of h n) ]}.

(** Stand-ins for [np.exp] and for a log-density: the density of [shifted]
    is the exponential of the log-density. *)
Definition plus_hundred (x : option nat) : option nat := (λ v, v + 100) <$> x.

Definition unshifted (x : option nat) (kwargs : list (string * option nat)) : option nat := x.

(** * More of the program

    The functions of the same files that the properties above do not need,
    and the vocabulary of the further properties. *)

(** The order in which [bfs] visits the nodes: what [bfs] computes when
    [func] appends its argument to a list. *)
Definition bfs_order (h : store) (root : nat) : res (list nat) :=
  bfs h root (λ n visited, visited ++ [n]) [].

(** Every node of a layer but the first has a child in the layer just
    before: no node waits longer than its children make it wait. *)
Definition supported (h : store) (Ls : list (list nat)) : Prop :=
  ∀ i layer m, Ls !! (S i) = Some layer → m ∈ layer →
    ∃ c layer', Ls !! i = Some layer' ∧ c ∈ layer' ∧ edge h m c.

(** ** Node identifiers *)

(** [INode.__init__] sets [self.id = -1]; [set_node_ids] is the only code
    that assigns the attribute afterwards.  The attribute is kept apart from
    the store: [ids] maps an object to the identifier assigned to it, and an
    object without an entry still has the identifier of its construction. *)
Definition node_id (ids : gmap nat Z) (n : nat) : Z := default (-1)%Z (ids !! n).

(** The body of [for node in get_topological_order(root)]: [node.id = i],
    then [i += 1]. *)
Definition assign_id (st : gmap nat Z * Z) (node : nat) : gmap nat Z * Z :=
  (<[node := st.2]> st.1, (st.2 + 1)%Z).

Definition set_node_ids (h : store) (root : nat) (ids : gmap nat Z) : res (gmap nat Z) :=
  order ← get_topological_order h root;
  Ok (foldl assign_id (ids, 0%Z) order).1.

(** ** Messages of the top-down evaluation *)

(** The messages a call addresses to [n]: the values of the items of its
    result whose key is [n], unless the node of the call is a leaf or the
    result is [None]. *)
Definition td_sent {M} (h : store) (n : nat) (c : td_call M) : list M :=
  match td_result c with
  | Some items =>
    if isinstance h (td_node c) cILeafNode then []
    else (filter (λ it, it.1 = n) items).*2
  | None => []
  end.

Definition td_inbox {M} (h : store) (n : nat) (calls : list (td_call M)) : list M :=
  concat (td_sent h n <$> calls).

(** What [all_results] holds of [n] before any call. *)
Definition td_seed {M} (root : nat) (parent_result : M) (n : nat) : list M :=
  if decide (n = root) then [parent_result] else [].

(** ** The value of a node *)

(** The evaluation one would write by recursion on the graph: the handler of
    a node applied to the values of its children, computed the same way.
    [fuel] bounds the depth of the recursion. *)
Fixpoint bu_value {V} (h : store) (eval_functions : gmap pyclass (bu_handler V))
    (fuel : nat) (n : nat) : option V :=
  match fuel with
  | 0 => None
  | S fuel =>
    match eval_functions !! type_of h n with
    | Some func =>
      if isinstance h n cILeafNode then Some (func n None)
      else vs ← mapM (bu_value h eval_functions fuel) (children_of h n);
           Some (func n (Some vs))
    | None =>
      if isinstance h n cILeafNode
      then func ← eval_functions !! cILeafNode; Some (func n None)
      else None
    end
  end.

(** ** Comparison and construction *)

(** [all(map(lambda x, y: eq(x, y), xs, ys))]. *)
Definition all_map (eq : nat → nat → res bool) : list nat → list nat → res bool :=
  fix all_map (xs ys : list nat) : res bool :=
    match xs, ys with
    | x :: xs, y :: ys =>
      b ← eq x y;
      if b : bool then all_map xs ys else Ok false
    | _, _ => Ok true
    end.

(** [c] is among [m.children]; unlike [edge], this holds of the children of a
    leaf too. *)
Definition child (h : store) (m c : nat) : Prop := c ∈ children_of h m.

(** A store is decreasing when every reference points to an earlier object:
    the children of a node existed when the node was constructed. *)
Definition decreasing (h : store) : Prop :=
  Forall (λ p, Forall (λ c, c < p.1) (children p.2)) (zip (seq 0 (length h)) h).

Global Instance decreasing_dec h : Decision (decreasing h).
Proof. unfold decreasing. apply _. Defined.

(** A sum node, a product node and a leaf, each constructed after its
    children. *)
Definition mixture : store :=
  [ mkINode cGaussian [] [0%Z] None;
    mkINode cGaussian [] [0%Z] None;
    mkINode cISumNode [0; 1] [0%Z] (Some [Finite (1 # 4); Finite (3 # 4)]);
    mkINode cIProductNode [2; 0] [0%Z] None ].

(** A product node that is its own child. *)
Definition self_loop : store := [ mkINode cIProductNode [0] [0%Z] None ].

(** ** Construction of a Hypergeometric leaf *)

(** [np.random.randint(low, high)], for bounds within the integers of numpy:
    an integer of [low, high), and ValueError when there is none.  [draw k] stands for the [k]-th draw of the generator;
    the number of draws made so far is threaded through. *)
Definition np_random_randint (draw : nat → Z → Z → Z) (k : nat) (low high : Z)
    : res (Z * nat) :=
  if decide (low < high)%Z then Ok (draw k low high, S k) else Raise ValueError.

(** [Hypergeometric.set_params], on integers.  [np.isfinite] holds of an
    integer that numpy can convert; it is reached for [N] when [N] is not
    negative, and for [M] and [n] when they lie between 0 and [N].  The
    properties below take [N] below 2^63, within the integers of numpy. *)
Definition Hypergeometric_set_params (self : Hypergeometric.t) (N M n : Z)
    : res Hypergeometric.t :=
  if decide (N < 0)%Z then Raise ValueError
  else if decide (M < 0 ∨ M > N)%Z then Raise ValueError
  else if decide (n < 0 ∨ n > N)%Z then Raise ValueError
  else Ok (Hypergeometric.mk (Hypergeometric.scope self) (Some N) (Some M) (Some n)).

Definition Hypergeometric_get_params (self : Hypergeometric.t)
    : option Z * option Z * option Z :=
  (Hypergeometric.N self, Hypergeometric.M self, Hypergeometric.n self).

(** [Hypergeometric.__init__]; the object and the number of draws made are
    returned. *)
Definition Hypergeometric_init (draw : nat → Z → Z → Z) (k : nat) (scope : list Z)
    (N M n : option Z) : res (Hypergeometric.t * nat) :=
  if decide (length scope ≠ 1) then Raise ValueError
  else
    let self := Hypergeometric.mk scope None None None in
    '(N, k) ← match N with
              | None => np_random_randint draw k 1 100
              | Some N => Ok (N, k)
              end;
    '(M, k) ← match M with
              | None => np_random_randint draw k 0 N
              | Some M => Ok (M, k)
              end;
    '(n, k) ← match n with
              | None => np_random_randint draw k 0 N
              | Some n => Ok (n, k)
              end;
    self ← Hypergeometric_set_params self N M n;
    Ok (self, k).

(** The generator keeps its promise. *)
Definition in_range (draw : nat → Z → Z → Z) : Prop :=
  ∀ k low high, (low < high → low ≤ draw k low high < high)%Z.

(** A generator that returns the least value allowed. *)
Definition lowest : nat → Z → Z → Z := λ _ low _, low.

(** ** Construction of a Gaussian leaf *)

Section gaussian_construction.
(** [isfinite] stands for [np.isfinite], [le_zero] for [x <= 0.0], [ge_one]
    for [x >= 1.0], [uniform k] for the [k]-th draw of [np.random.uniform],
    [minus_one], [one] and [three] for [-1.0], [1.0] and [3.0]; [pdf] is
    called as [pdf(x, loc=..., scale=...)]. *)
Context {F : Type}.
Variables isfinite le_zero ge_one : F → bool.
Variable float_repr : F → string.
Variable pdf : F → list (string * F) → F.
Variable uniform : nat → F → F → F.
Variables minus_one one three : F.

(** The object [set_params] works on: [Fresh] after [INode.__init__] only,
    when it has no attribute [mean] or [stdev] yet, [Built] once they are
    assigned. *)
Inductive Gaussian_self :=
  | Fresh (scope : list Z)
  | Built (node : Gaussian.t F).

Definition Gaussian_self_scope (self : Gaussian_self) : list Z :=
  match self with
  | Fresh scope => scope
  | Built node => Gaussian.scope node
  end.

(** [ParametricLeaf.__str__] on the object: [get_scipy_object_parameters]
    reads [node.mean] first. *)
Definition Gaussian_str (depth : nat) (self : Gaussian_self) : res string :=
  match depth with
  | 0 => Raise RecursionError
  | S depth =>
    match self with
    | Fresh _ => Raise AttributeError
    | Built node =>
      parameters ← Gaussian.get_scipy_object_parameters float_repr depth node;
      Ok (ParametricLeaf_str "Gaussian" (Gaussian.scope node)
            (prod_map id float_repr <$> parameters))
    end
  end.

(** [Gaussian.set_params]; the lines printed are returned with the object. *)
Definition Gaussian_set_params (depth : nat) (self : Gaussian_self) (mean stdev : F)
    : res (Gaussian.t F * list string) :=
  if negb (isfinite mean && isfinite stdev) then Raise ValueError
  else if le_zero stdev then Raise ValueError
  else
    printed ←
      (if ge_one (pdf mean [("loc"%string, mean); ("scale"%string, stdev)]) then
         s ← Gaussian_str depth self;
         Ok ["Warning: 'Degenerated' PDF! Density at node.mean is greater than 1.0! Node: "
             +:+ s +:+ ", mean: " +:+ float_repr mean
             +:+ ", stdev: " +:+ float_repr stdev]
       else Ok []);
    Ok (Gaussian.mk (Gaussian_self_scope self) (Some mean) (Some stdev), printed).

(** [Gaussian.__init__]; the object, the lines printed and the number of
    draws made are returned. *)
Definition Gaussian_init (depth : nat) (k : nat) (scope : list Z) (mean stdev : option F)
    : res (Gaussian.t F * list string * nat) :=
  if decide (length scope ≠ 1) then Raise ValueError
  else
    let self := Fresh scope in
    let '(mean, k) :=
      match mean with
      | None => (uniform k minus_one one, S k)
      | Some mean => (mean, k)
      end in
    let '(stdev, k) :=
      match stdev with
      | None => (uniform k one three, S k)
      | Some stdev => (stdev, k)
      end in
    '(node, printed) ← Gaussian_set_params depth self mean stdev;
    Ok (node, printed, k).

End gaussian_construction.

(** Stand-ins on rationals: every number is finite, and the density at the
    mean is the inverse of the scale. *)
Definition inverse_scale (x : Q) (kwargs : list (string * Q)) : Q :=
  match kwargs with
  | [(_, loc); (_, scale)] => (/ scale)%Q
  | _ => 0%Q
  end.

Definition Q_le_zero (x : Q) : bool := Qle_bool x 0.
Definition Q_ge_one (x : Q) : bool := Qle_bool 1 x.

(** An array of two columns, and a Gaussian over a third. *)
Definition no_such_column : Gaussian.t (option nat) :=
  Gaussian.mk [2%Z] (Some (Some 0)) (Some (Some 1)).

(** A Gaussian whose standard deviation was set to [None]. *)
Definition stdev_unset : Gaussian.t (option nat) :=
  Gaussian.mk [0%Z] (Some (Some 0)) None.

(** Two sum nodes over the same two leaves, with two and with three
    weights. *)
Definition two_mixtures : store :=
  [ mkINode cGaussian [] [0%Z] None;
    mkINode cGaussian [] [0%Z] None;
    mkINode cISumNode [0; 1] [0%Z] (Some [Finite (1 # 2); Finite (1 # 2)]);
    mkINode cISumNode [0; 1] [0%Z]
      (Some [Finite (1 # 5); Finite (3 # 10); Finite (1 # 2)]) ].

(** ** Collecting the leaves *)

(** [l.remove(x)]: the first occurrence of [x] goes, and ValueError is
    raised when there is none. *)
Fixpoint list_remove (x : nat) (l : list nat) : res (list nat) :=
  match l with
  | [] => Raise ValueError
  | y :: l => if decide (y = x) then Ok l else l' ← list_remove x l; Ok (y :: l')
  end.

(** The body of [for rem in nodes] in [_get_leaf_nodes]; [cs] is
    [node.children]. *)
Definition prune (cs : list nat) (rem : nat) (extension : list nat) : res (list nat) :=
  if decide (rem ∈ cs) then list_remove rem extension else Ok extension.

(** The [while nodes] loop of [_get_leaf_nodes]; the counter [id_counter] is
    never read. *)
Fixpoint get_leaf_nodes_loop (fuel : nat) (h : store) (nodes leaves : list nat)
    : res (list nat) :=
  match nodes with
  | [] => Ok leaves
  | node :: nodes =>
    match fuel with
    | 0 => Diverge
    | S fuel =>
      let leaves := if issubclass (type_of h node) cILeafNode then leaves ++ [node]
                    else leaves in
      extension ← for_each (prune (children_of h node)) nodes (children_of h node);
      get_leaf_nodes_loop fuel h (nodes ++ extension) leaves
    end
  end.

Definition _get_leaf_nodes (fuel : nat) (h : store) (root_nodes : list nat)
    : res (list nat) :=
  get_leaf_nodes_loop fuel h root_nodes [].

(** The number of paths that start at [n], itself included, as far as [fuel]
    nodes down. *)
Fixpoint weight (fuel : nat) (h : store) (n : nat) : nat :=
  match fuel with
  | 0 => 0
  | S fuel => S (sum_list_with (weight fuel h) (children_of h n))
  end.

(** ** Bernoulli and Binomial leaves *)

(** [np.random.uniform(low, high)]: [draw k] stands for the [k]-th draw of
    the generator. *)
Definition np_random_uniform (draw : nat → Q → Q → Q) (k : nat) (low high : Q)
    : pyfloat * nat :=
  (Finite (draw k low high), S k).

(** The generator keeps its promise: a number of [low, high). *)
Definition uniform_in_range (draw : nat → Q → Q → Q) : Prop :=
  ∀ k low high, (low < high → low <= draw k low high ∧ draw k low high < high)%Q.

Module Bernoulli.
Section bernoulli.
Variable float_repr : pyfloat → string.

Record t := mk {
  scope : list Z;
  p : option pyfloat
}.

Definition set_params (self : t) (vp : pyfloat) : res t :=
  if float_lt vp (Finite 0) || float_gt vp (Finite 1) || negb (np_isfinite vp)
  then Raise ValueError
  else Ok (mk (scope self) (Some vp)).

Definition get_params (self : t) : option pyfloat := p self.

(** [Bernoulli.__init__]; the object and the number of draws made are
    returned. *)
Definition init (draw : nat → Q → Q → Q) (k : nat) (scope : list Z) (vp : option pyfloat)
    : res (t * nat) :=
  if decide (length scope ≠ 1) then Raise ValueError
  else
    let self := mk scope None in
    let '(vp, k) :=
      match vp with
      | None => np_random_uniform draw k 0 1
      | Some vp => (vp, k)
      end in
    self ← set_params self vp;
    Ok (self, k).

(** [get_scipy_object_parameters] for a [Bernoulli], with
    [ParametricLeaf.__str__] as the f-string of the error message calls it. *)
Fixpoint get_scipy_object_parameters (depth : nat) (node : t)
    : res (list (string * pyfloat)) :=
  match depth with
  | 0 => Raise RecursionError
  | S depth =>
    let str_node : res string :=
      match depth with
      | 0 => Raise RecursionError
      | S depth =>
        parameters ← get_scipy_object_parameters depth node;
        Ok (ParametricLeaf_str "Bernoulli" (scope node)
              (prod_map id float_repr <$> parameters))
      end in
    match p node with
    | None =>
      s ← str_node;
      Raise (InvalidParametersError ("Parameter 'p' of " +:+ s +:+ " must not be None"))
    | Some vp => Ok [("p"%string, vp)]
    end
  end.

End bernoulli.
End Bernoulli.

Module Binomial.
Section binomial.
Variable float_repr : pyfloat → string.

Record t := mk {
  scope : list Z;
  n : option Z;
  p : option pyfloat
}.

(** [Binomial.set_params]; [n] is an integer, within the integers of
    numpy where [np.isfinite] is reached. *)
Definition set_params (self : t) (vn : Z) (vp : pyfloat) : res t :=
  if float_lt vp (Finite 0) || float_gt vp (Finite 1) || negb (np_isfinite vp)
  then Raise ValueError
  else if decide (vn < 0)%Z then Raise ValueError
  else Ok (mk (scope self) (Some vn) (Some vp)).

Definition get_params (self : t) : option Z * option pyfloat := (n self, p self).

(** [Binomial.__init__]; the object and the number of draws made are
    returned. *)
Definition init (randint : nat → Z → Z → Z) (uniform : nat → Q → Q → Q) (k : nat)
    (scope : list Z) (vn : option Z) (vp : option pyfloat) : res (t * nat) :=
  if decide (length scope ≠ 1) then Raise ValueError
  else
    let self := mk scope None None in
    '(vn, k) ← match vn with
               | None => np_random_randint randint k 1 11
               | Some vn => Ok (vn, k)
               end;
    let '(vp, k) :=
      match vp with
      | None => np_random_uniform uniform k 0 1
      | Some vp => (vp, k)
      end in
    self ← set_params self vn vp;
    Ok (self, k).

(** The values of the dict are an integer and a float. *)
Fixpoint get_scipy_object_parameters (depth : nat) (node : t)
    : res (list (string * (Z + pyfloat))) :=
  match depth with
  | 0 => Raise RecursionError
  | S depth =>
    let str_node : res string :=
      match depth with
      | 0 => Raise RecursionError
      | S depth =>
        parameters ← get_scipy_object_parameters depth node;
        Ok (ParametricLeaf_str "Binomial" (scope node)
              (prod_map id (λ v, match v with inl i => pretty i | inr x => float_repr x end)
                 <$> parameters))
      end in
    match n node with
    | None =>
      s ← str_node;
      Raise (InvalidParametersError ("Parameter 'n' of " +:+ s +:+ " must not be None"))
    | Some vn =>
      match p node with
      | None =>
        s ← str_node;
        Raise (InvalidParametersError ("Parameter 'p' of " +:+ s +:+ " must not be None"))
      | Some vp => Ok [("n"%string, inl vn); ("p"%string, inr vp)]
      end
    end
  end.

End binomial.
End Binomial.

(** A float is a probability: finite, between 0.0 and 1.0. *)
Definition probability (x : pyfloat) : Prop :=
  ∃ q, x = Finite q ∧ (0 <= q)%Q ∧ (q <= 1)%Q.

(** A generator that returns the least value allowed. *)
Definition lowest_float : nat → Q → Q → Q := λ _ low _, low.

(** * Properties *)

(** ** Properties of [bfs] *)

Lemma res_bind_Ok {A B} (r : res A) (k : A → res B) b :
  r ≫= k = Ok b ↔ ∃ a, r = Ok a ∧ k a = Ok b.
Proof.
  destruct r as [a| |]; simpl; split.
  - intros Hk. by exists a.
  - by intros (a' & [= <-] & Hk).
  - done.
  - by intros (a' & [=] & _).
  - done.
  - by intros (a' & [=] & _).
Qed.

Lemma issubclass_INode c : issubclass c cINode = true.
Proof. apply bool_decide_eq_true. apply suffix_nil. Qed.

Lemma elem_of_concat {A} (x : A) (ls : list (list A)) :
  x ∈ concat ls ↔ ∃ l, x ∈ l ∧ l ∈ ls.
Proof.
  induction ls as [|l0 ls IH]; simpl.
  - rewrite elem_of_nil. split; [done|]. intros (l & _ & Hl). by apply elem_of_nil in Hl.
  - rewrite elem_of_app, IH. split.
    + intros [Hx|(l & Hx & Hl)]; [exists l0; split; [done|by left]|].
      exists l. split; [done|by right].
    + intros (l & Hx & [->|Hl]%elem_of_cons); [by left|right; eauto].
Qed.

Lemma NoDup_bounded_length (l : list nat) N :
  NoDup l → (∀ x, x ∈ l → x < N) → length l ≤ N.
Proof.
  intros Hnd Hb.
  assert (l ⊆+ seq 0 N) as Hsub.
  { apply NoDup_submseteq; [done|]. intros x Hx. apply elem_of_seq. specialize (Hb x Hx). lia. }
  apply submseteq_length in Hsub. by rewrite length_seq in Hsub.
Qed.

Section bfs_facts.
Variable h : store.

Lemma wf_store_succs root n c :
  wf_store h root → n < length h → c ∈ succs h n → c < length h.
Proof.
  intros [_ Hwf] Hn Hc. unfold succs in Hc.
  destruct (isinstance h n cILeafNode); [by apply elem_of_nil in Hc|].
  unfold children_of in Hc.
  destruct (lookup_lt_is_Some_2 h n Hn) as [nd Hnd].
  rewrite (list_lookup_total_correct _ _ _ Hnd) in Hc.
  rewrite Forall_forall in Hwf.
  specialize (Hwf nd (list_elem_of_lookup_2 _ _ _ Hnd)).
  rewrite Forall_forall in Hwf. by apply Hwf.
Qed.

Lemma bfs_enqueue_spec cs seen queue :
  ∃ new, bfs_enqueue cs (seen, queue) = (list_to_set new ∪ seen, queue ++ new)
    ∧ NoDup new
    ∧ (∀ x, x ∈ new → x ∈ cs ∧ x ∉ seen)
    ∧ (∀ c, c ∈ cs → c ∈ seen ∨ c ∈ new).
Proof.
  revert seen queue. induction cs as [|c cs IH]; intros seen queue.
  - exists []. simpl. split_and!.
    + f_equal; [set_solver|by rewrite app_nil_r].
    + constructor.
    + intros x Hx. by apply elem_of_nil in Hx.
    + intros c Hc. by apply elem_of_nil in Hc.
  - unfold bfs_enqueue. simpl. destruct (decide (c ∈ seen)) as [Hc|Hc].
    + destruct (IH seen queue) as (new & Heq & Hnd & Hnew & Hcs).
      exists new. split_and!; [done|done|..].
      * intros x Hx. destruct (Hnew x Hx). split; [by right|done].
      * intros c' [->|Hc']%elem_of_cons; [by left|by apply Hcs].
    + destruct (IH ({[c]} ∪ seen) (queue ++ [c])) as (new & Heq & Hnd & Hnew & Hcs).
      exists (c :: new). split_and!.
      * unfold bfs_enqueue in Heq. rewrite Heq. f_equal.
        -- set_solver.
        -- by rewrite <- app_assoc.
      * constructor; [|done]. intros Hin. destruct (Hnew c Hin) as [_ Hn]. set_solver.
      * intros x [->|Hx]%elem_of_cons; [split; [by left|done]|].
        destruct (Hnew x Hx) as [? Hn]. split; [by right|set_solver].
      * intros c' [->|Hc']%elem_of_cons; [right; by left|].
        destruct (Hcs c' Hc') as [Hs|Hn]; [|right; by right].
        apply elem_of_union in Hs as [Hs|Hs]; [|by left].
        apply elem_of_singleton in Hs as ->. right; by left.
Qed.

Lemma bfs_loop_spec {A} (func : nat → A → A) root fuel :
  wf_store h root →
  ∀ done seen queue acc,
  bfs_inv h root done seen queue →
  length h ≤ fuel + length done →
  ∃ visited,
    bfs_loop h func fuel seen queue acc = Ok (foldl (λ a n, func n a) acc visited)
    ∧ NoDup (done ++ visited)
    ∧ queue `prefix_of` visited
    ∧ (∀ x, x ∈ done ++ visited → reachable h root x)
    ∧ (∀ n c, n ∈ done ++ visited → c ∈ succs h n → c ∈ done ++ visited).
Proof.
  intros Hwf. induction fuel as [|fuel IH]; intros done seen queue acc Hinv Hfuel.
  - destruct Hinv as (Hnd & Hseen & Hbound & Hclosed).
    assert (length (done ++ queue) ≤ length h) as Hlen.
    { apply NoDup_bounded_length; [done|]. intros x Hx. by apply Hbound, Hseen. }
    rewrite length_app in Hlen.
    assert (queue = []) as -> by (apply nil_length_inv; lia).
    exists []. simpl. rewrite app_nil_r in *. split_and!; try done.
    + intros x Hx. by apply Hbound, Hseen.
    + intros n c Hn Hc. apply Hseen. eauto.
  - destruct queue as [|node queue].
    { destruct Hinv as (Hnd & Hseen & Hbound & Hclosed).
      exists []. simpl. rewrite app_nil_r in *. split_and!; try done.
      + intros x Hx. by apply Hbound, Hseen.
      + intros n c Hn Hc. apply Hseen. eauto. }
    simpl.
    destruct Hinv as (Hnd & Hseen & Hbound & Hclosed).
    destruct (bfs_enqueue_spec (succs h node) seen queue)
      as (new & Heq & Hndnew & Hnew & Hcs).
    assert ((if isinstance h node cILeafNode then (seen, queue)
             else bfs_enqueue (children_of h node) (seen, queue))
            = (list_to_set new ∪ seen, queue ++ new)) as ->.
    { rewrite <- Heq. unfold succs. by destruct (isinstance h node cILeafNode). }
    assert (node ∈ seen) as Hnode by (apply Hseen; set_solver).
    destruct (IH (done ++ [node]) (list_to_set new ∪ seen) (queue ++ new) (func node acc))
      as (visited & Hrun & Hnd' & Hpre & Hreach & Hcl).
    { split_and!.
      - replace ((done ++ [node]) ++ queue ++ new)
          with ((done ++ node :: queue) ++ new) by (by rewrite <- !app_assoc).
        apply NoDup_app. split_and!; [done| |done].
        intros x Hx Hx'. destruct (Hnew x Hx') as [_ Hn]. by apply Hn, Hseen.
      - intros x. rewrite elem_of_union, elem_of_list_to_set, Hseen.
        rewrite !elem_of_app, elem_of_cons, list_elem_of_singleton. naive_solver.
      - intros x [Hx|Hx]%elem_of_union; [|by apply Hbound].
        apply elem_of_list_to_set in Hx. destruct (Hnew x Hx) as [Hc _].
        destruct (Hbound node Hnode) as [Hlt Hr]. split.
        + eapply wf_store_succs; eauto.
        + eapply rtc_r; [exact Hr|exact Hc].
      - intros n c [Hn|Hn]%elem_of_app Hc.
        + apply elem_of_union. right. eauto.
        + apply list_elem_of_singleton in Hn as ->.
          rewrite elem_of_union, elem_of_list_to_set. destruct (Hcs c Hc); eauto. }
    { rewrite length_app. simpl. lia. }
    destruct Hpre as [rest ->].
    exists (node :: (queue ++ new) ++ rest). split_and!.
    + done.
    + by rewrite <- app_assoc in Hnd'.
    + exists (new ++ rest). by rewrite <- !app_assoc.
    + intros x Hx. apply Hreach. by rewrite <- app_assoc.
    + intros n c Hn Hc. rewrite <- app_assoc in Hcl. by eapply Hcl.
Qed.

(** [get_nodes_by_type(node)] with the default [ntype] returns, without
    repetition, exactly the nodes reachable from [node]. *)
Lemma get_nodes_by_type_INode root :
  wf_store h root →
  ∃ nodes, get_nodes_by_type h root cINode = Ok nodes
    ∧ NoDup nodes
    ∧ (∀ n, n ∈ nodes ↔ reachable h root n)
    ∧ (∀ n, n ∈ nodes → n < length h).
Proof.
  intros Hwf. unfold get_nodes_by_type, bfs.
  destruct (bfs_loop_spec
    (λ n result, if isinstance h n cINode then result ++ [n] else result)
    root (length h) Hwf [] {[root]} [root] [])
    as (visited & Hrun & Hnd & Hpre & Hreach & Hcl).
  { split_and!.
    - simpl. apply NoDup_singleton.
    - intros x. simpl. rewrite elem_of_singleton, list_elem_of_singleton. done.
    - intros x ->%elem_of_singleton. split; [apply Hwf|apply rtc_refl].
    - intros n c Hn. by apply elem_of_nil in Hn. }
  { simpl. lia. }
  simpl in *. exists visited. split_and!.
  - rewrite Hrun. f_equal.
    assert (∀ acc, foldl (λ a n, if isinstance h n cINode then a ++ [n] else a) acc visited
                   = acc ++ visited) as Hfold.
    { clear. induction visited as [|v vs IH]; intros acc; cbn [foldl].
      - by rewrite app_nil_r.
      - unfold isinstance. rewrite issubclass_INode.
        fold (isinstance h). by rewrite IH, <- app_assoc. }
    apply Hfold.
  - done.
  - intros n. split; [apply Hreach|].
    revert n. apply rtc_ind_r.
    + destruct Hpre as [rest ->]. by left.
    + intros y z _ Hyz IH. by eapply Hcl.
  - intros n Hn. specialize (Hreach n Hn). clear Hn.
    revert n Hreach. apply rtc_ind_r.
    + apply Hwf.
    + intros y z _ Hyz IH. eapply wf_store_succs; eauto.
Qed.

End bfs_facts.

(** ** Properties of the bookkeeping of [get_topological_order] *)

Lemma count_of_nil c : count_of c [] = 0.
Proof. done. Qed.

Lemma count_of_cons c x l :
  count_of c (x :: l) = (if decide (x = c) then 1 else 0) + count_of c l.
Proof. unfold count_of. rewrite filter_cons. by destruct (decide (x = c)). Qed.

Lemma count_of_app c l1 l2 : count_of c (l1 ++ l2) = count_of c l1 + count_of c l2.
Proof. unfold count_of. by rewrite filter_app, length_app. Qed.

Lemma count_of_pos c l : 0 < count_of c l ↔ c ∈ l.
Proof.
  induction l as [|x l IH]; [rewrite count_of_nil, elem_of_nil; lia|].
  rewrite count_of_cons, elem_of_cons. destruct (decide (x = c)); [|rewrite <- IH]; naive_solver lia.
Qed.

Lemma count_of_replicate c k x :
  count_of c (replicate k x) = if decide (x = c) then k else 0.
Proof.
  induction k as [|k IH]; simpl; [by destruct (decide _)|].
  rewrite count_of_cons, IH. by destruct (decide (x = c)).
Qed.

Lemma od_set_old {V} k (v : V) d :
  is_Some (od_map d !! k) → od_set k v d = mk_odict (od_keys d) (<[k := v]> (od_map d)).
Proof. intros Hk. unfold od_set. by rewrite decide_True. Qed.

Lemma od_set_new {V} k (v : V) d :
  od_map d !! k = None → od_set k v d = mk_odict (od_keys d ++ [k]) (<[k := v]> (od_map d)).
Proof.
  intros Hk. unfold od_set. rewrite decide_False; [done|].
  rewrite Hk. by intros [? ?].
Qed.

Section bookkeeping.
Variable h : store.

Lemma parents_of_app l1 l2 c : parents_of h (l1 ++ l2) c = parents_of h l1 c ++ parents_of h l2 c.
Proof. unfold parents_of. by rewrite bind_app. Qed.

Lemma elem_of_parents_of l c m : m ∈ parents_of h l c ↔ m ∈ l ∧ c ∈ succs h m.
Proof.
  unfold parents_of. rewrite list_elem_of_bind. split.
  - intros (n & Hm & Hn). apply elem_of_replicate in Hm as [-> Hc].
    split; [done|]. apply count_of_pos. lia.
  - intros [Hm Hc]. exists m. split; [|done].
    apply elem_of_replicate. split; [done|]. apply count_of_pos in Hc. lia.
Qed.

Lemma count_of_parents_of l c m :
  NoDup l → m ∈ l → count_of m (parents_of h l c) = count_of c (succs h m).
Proof.
  unfold parents_of. induction l as [|n l IH]; intros Hnd Hm.
  - by apply elem_of_nil in Hm.
  - apply NoDup_cons in Hnd as [Hn Hnd]. rewrite bind_cons, count_of_app, count_of_replicate.
    destruct (decide (n = m)) as [->|Hne].
    + assert (count_of m (l ≫= λ n, replicate (count_of c (succs h n)) n) = 0) as ->; [|lia].
      destruct (count_of m _) eqn:Hc; [done|].
      assert (m ∈ parents_of h l c) as Hin by (apply count_of_pos; unfold parents_of; lia).
      apply elem_of_parents_of in Hin as [? _]. done.
    + apply elem_of_cons in Hm as [->|Hm]; [done|]. by rewrite IH.
Qed.

Lemma record_child_Ok n c parents d x :
  od_map d !! n = Some x →
  record_child n c (parents, d)
  = Ok (<[c := default [] (parents !! c) ++ [n]]> parents,
        mk_odict (od_keys d) (<[n := (x + 1)%Z]> (od_map d))).
Proof.
  intros Hx. unfold record_child, od_getitem, getitem. rewrite Hx.
  cbn [mbind res_bind]. by rewrite od_set_old by (by rewrite Hx).
Qed.

Lemma record_children_spec n cs :
  ∀ parents d x, od_map d !! n = Some x →
  ∃ parents' d',
    for_each (record_child n) cs (parents, d) = Ok (parents', d')
    ∧ od_keys d' = od_keys d
    ∧ od_map d' = <[n := (x + Z.of_nat (length cs))%Z]> (od_map d)
    ∧ (∀ c, default [] (parents' !! c)
            = default [] (parents !! c) ++ replicate (count_of c cs) n)
    ∧ (∀ c, is_Some (parents' !! c) ↔ is_Some (parents !! c) ∨ c ∈ cs).
Proof.
  induction cs as [|c0 cs IH]; intros parents d x Hx.
  - exists parents, d. simpl. split_and!; try done.
    + rewrite Z.add_0_r. by rewrite insert_id.
    + intros c. by rewrite app_nil_r.
    + intros c. rewrite elem_of_nil. naive_solver.
  - destruct (IH (<[c0 := default [] (parents !! c0) ++ [n]]> parents)
                 (mk_odict (od_keys d) (<[n := (x + 1)%Z]> (od_map d))) (x + 1)%Z)
      as (parents' & d' & Hrun & Hkeys & Hmap & Hpar & Hdom).
    { simpl. by rewrite lookup_insert_eq. }
    exists parents', d'. split_and!; try done.
    + cbn [for_each]. by rewrite (record_child_Ok _ _ _ _ x).
    + rewrite Hmap. simpl. rewrite insert_insert_eq. f_equal. lia.
    + intros c. rewrite Hpar, count_of_cons. destruct (decide (c0 = c)) as [->|Hne].
      * rewrite lookup_insert_eq. simpl. by rewrite <- app_assoc.
      * by rewrite lookup_insert_ne.
    + intros c. rewrite Hdom, elem_of_cons. destruct (decide (c0 = c)) as [->|Hne].
      * rewrite lookup_insert_eq. naive_solver.
      * rewrite lookup_insert_ne by done. naive_solver.
Qed.

Lemma record_node_spec n parents d :
  od_map d !! n = None →
  ∃ parents' d',
    record_node h n (parents, d) = Ok (parents', d')
    ∧ od_keys d' = od_keys d ++ [n]
    ∧ od_map d' = <[n := Z.of_nat (length (succs h n))]> (od_map d)
    ∧ (∀ c, default [] (parents' !! c)
            = default [] (parents !! c) ++ replicate (count_of c (succs h n)) n)
    ∧ (∀ c, is_Some (parents' !! c) ↔ is_Some (parents !! c) ∨ c ∈ succs h n).
Proof.
  intros Hn.
  assert (record_node h n (parents, d)
          = if isinstance h n cILeafNode
            then Ok (parents, mk_odict (od_keys d ++ [n]) (<[n := 0%Z]> (od_map d)))
            else for_each (record_child n) (children_of h n)
                   (parents, mk_odict (od_keys d ++ [n]) (<[n := 0%Z]> (od_map d)))) as ->.
  { unfold record_node, od_get. rewrite Hn. cbn [default]. by rewrite od_set_new. }
  unfold succs. destruct (isinstance h n cILeafNode).
  - eexists _, _. split; [done|]. simpl. split_and!; try done.
    + intros c. by rewrite app_nil_r.
    + intros c. rewrite elem_of_nil. naive_solver.
  - destruct (record_children_spec n (children_of h n) parents
                (mk_odict (od_keys d ++ [n]) (<[n := 0%Z]> (od_map d))) 0%Z)
      as (parents' & d' & Hrun & Hkeys & Hmap & Hpar & Hdom).
    { simpl. by rewrite lookup_insert_eq. }
    exists parents', d'. split_and!; try done.
    rewrite Hmap. simpl. by rewrite insert_insert_eq.
Qed.

Lemma record_nodes_spec rest :
  ∀ parents d,
  NoDup rest → (∀ k, k ∈ rest → od_map d !! k = None) →
  ∃ parents' d',
    for_each (record_node h) rest (parents, d) = Ok (parents', d')
    ∧ od_keys d' = od_keys d ++ rest
    ∧ (∀ k, od_map d' !! k
            = if decide (k ∈ rest) then Some (Z.of_nat (length (succs h k)))
              else od_map d !! k)
    ∧ (∀ c, default [] (parents' !! c) = default [] (parents !! c) ++ parents_of h rest c)
    ∧ (∀ c, is_Some (parents' !! c)
            ↔ is_Some (parents !! c) ∨ ∃ n, n ∈ rest ∧ c ∈ succs h n).
Proof.
  induction rest as [|n rest IH]; intros parents d Hnd Hfresh.
  - exists parents, d. simpl. split_and!; try done.
    + by rewrite app_nil_r.
    + intros c. by rewrite app_nil_r.
    + intros c. split; [by left|]. intros [?|(n & Hn & _)]; [done|].
      by apply elem_of_nil in Hn.
  - apply NoDup_cons in Hnd as [Hn Hnd]. cbn [for_each].
    destruct (record_node_spec n parents d) as (p1 & d1 & Hrun1 & Hk1 & Hm1 & Hp1 & Hdom1).
    { apply Hfresh. by left. }
    destruct (IH p1 d1 Hnd) as (p2 & d2 & Hrun2 & Hk2 & Hm2 & Hp2 & Hdom2).
    { intros k Hk. rewrite Hm1, lookup_insert_ne by (by intros ->).
      apply Hfresh. by right. }
    exists p2, d2. split_and!.
    + by rewrite Hrun1.
    + rewrite Hk2, Hk1. by rewrite <- app_assoc.
    + intros k. rewrite Hm2, Hm1. destruct (decide (k ∈ rest)) as [Hk|Hk].
      * rewrite decide_True; [done|by right].
      * destruct (decide (n = k)) as [->|Hne].
        -- rewrite lookup_insert_eq. rewrite decide_True; [done|by left].
        -- rewrite lookup_insert_ne by done. rewrite decide_False; [done|].
           intros [->|?]%elem_of_cons; done.
    + intros c. rewrite Hp2, Hp1. unfold parents_of. rewrite bind_cons.
      by rewrite <- app_assoc.
    + intros c. rewrite Hdom2, Hdom1. split.
      * intros [[?|?]|(m & Hm & Hc)]; [by left|right; exists n; split; [by left|done]|].
        right. exists m. split; [by right|done].
      * intros [?|(m & [->|Hm]%elem_of_cons & Hc)]; [by left; left|by left; right|].
        right. by exists m.
Qed.

Lemma relax_Ok m d Sq x :
  od_map d !! m = Some x →
  relax m (d, Sq)
  = Ok (mk_odict (od_keys d) (<[m := (x - 1)%Z]> (od_map d)),
        if decide ((x - 1)%Z = 0%Z) then Sq ++ [m] else Sq).
Proof.
  intros Hx. unfold relax, od_getitem, getitem. rewrite Hx.
  cbn [mbind res_bind]. by rewrite od_set_old by (by rewrite Hx).
Qed.

(** One pass of [for m in parents[n]]: every counter drops by the number of
    occurrences of its key, and a key is appended to the worklist exactly
    when its counter passes from positive to zero, which happens once. *)
Lemma relax_all_spec ps :
  ∀ d,
  (∀ m, m ∈ ps → is_Some (od_map d !! m)) →
  ∃ d' pushed,
    (∀ Sq, for_each relax ps (d, Sq) = Ok (d', Sq ++ pushed))
    ∧ od_keys d' = od_keys d
    ∧ (∀ m, od_map d' !! m = (λ x, x - Z.of_nat (count_of m ps))%Z <$> od_map d !! m)
    ∧ NoDup pushed
    ∧ (∀ m, m ∈ pushed
            ↔ ∃ x, od_map d !! m = Some x ∧ (1 ≤ x ≤ Z.of_nat (count_of m ps))%Z).
Proof.
  induction ps as [|m0 ps IH]; intros d Hdom.
  - exists d, []. split_and!.
    + intros Sq. by rewrite app_nil_r.
    + done.
    + intros m. rewrite count_of_nil. destruct (od_map d !! m); simpl; [f_equal; lia|done].
    + constructor.
    + intros m. rewrite elem_of_nil, count_of_nil. split; [done|]. intros (x & _ & ?). lia.
  - destruct (Hdom m0) as [x0 Hx0]; [by left|].
    set (d1 := mk_odict (od_keys d) (<[m0 := (x0 - 1)%Z]> (od_map d))).
    destruct (IH d1) as (d' & pushed & Hrun & Hkeys & Hmap & Hnd & Hpushed).
    { intros m Hm. unfold d1. simpl. destruct (decide (m0 = m)) as [->|Hne].
      - rewrite lookup_insert_eq. eauto.
      - rewrite lookup_insert_ne by done. apply Hdom. by right. }
    exists d', ((if decide ((x0 - 1)%Z = 0%Z) then [m0] else []) ++ pushed).
    split_and!.
    + intros Sq. cbn [for_each]. rewrite (relax_Ok _ _ _ x0) by done.
      cbn [mbind res_bind]. fold d1. rewrite Hrun. f_equal. f_equal.
      destruct (decide ((x0 - 1)%Z = 0%Z)); by rewrite <- ?app_assoc.
    + by rewrite Hkeys.
    + intros m. rewrite Hmap, count_of_cons. unfold d1. simpl.
      destruct (decide (m0 = m)) as [->|Hne].
      * rewrite lookup_insert_eq, Hx0. simpl. f_equal. lia.
      * rewrite lookup_insert_ne by done.
        destruct (od_map d !! m); simpl; [f_equal; lia|done].
    + destruct (decide ((x0 - 1)%Z = 0%Z)) as [Hz|Hz]; [|done]. simpl.
      constructor; [|done]. intros Hin. apply Hpushed in Hin as (x & Hx & Hr).
      unfold d1 in Hx. simpl in Hx. rewrite lookup_insert_eq in Hx. simplify_eq. lia.
    + intros m. rewrite elem_of_app, Hpushed, count_of_cons. unfold d1. simpl.
      destruct (decide (m0 = m)) as [->|Hne].
      * rewrite lookup_insert_eq, Hx0. split.
        -- intros [Hm|(x & [= <-] & Hr)].
           ++ destruct (decide ((x0 - 1)%Z = 0%Z)); [|by apply elem_of_nil in Hm].
              exists x0. split; [done|lia].
           ++ exists x0. split; [done|lia].
        -- intros (x & [= <-] & Hr). destruct (decide ((x0 - 1)%Z = 0%Z)) as [Hz|Hz].
           ++ left. by left.
           ++ right. exists (x0 - 1)%Z. split; [done|lia].
      * rewrite lookup_insert_ne by done. split.
        -- intros [Hm|Hm]; [|done].
           destruct (decide ((x0 - 1)%Z = 0%Z)); [|by apply elem_of_nil in Hm].
           by apply list_elem_of_singleton in Hm.
        -- intros Hm. by right.
Qed.

Lemma zero_scan_spec (d : odict Z) keys :
  ∀ Sq, (∀ u, u ∈ keys → is_Some (od_map d !! u)) →
  for_each (zero_in_degree d) keys Sq
  = Ok (Sq ++ filter (λ u, od_map d !! u = Some 0%Z) keys).
Proof.
  induction keys as [|u keys IH]; intros Sq Hdom.
  - simpl. by rewrite app_nil_r.
  - destruct (Hdom u) as [x Hx]; [by left|].
    cbn [for_each].
    assert (zero_in_degree d u Sq = Ok (if decide (x = 0%Z) then Sq ++ [u] else Sq)) as ->.
    { unfold zero_in_degree, od_getitem, getitem. by rewrite Hx. }
    cbn [mbind res_bind]. rewrite IH by (intros; apply Hdom; by right).
    rewrite filter_cons. f_equal. destruct (decide (x = 0%Z)) as [->|Hne].
    + rewrite decide_True by done. by rewrite <- app_assoc.
    + rewrite decide_False; [done|]. rewrite Hx. by intros [=].
Qed.

End bookkeeping.

(** ** Kahn's algorithm *)

Section kahn.
Variable h : store.

Lemma pending_nil m : pending h [] m = length (succs h m).
Proof.
  unfold pending. induction (succs h m) as [|c cs IH]; [done|].
  rewrite filter_cons, decide_True by apply not_elem_of_nil.
  cbn [length]. f_equal. exact IH.
Qed.

Lemma pending_0 L m : pending h L m = 0 ↔ ∀ c, c ∈ succs h m → c ∈ L.
Proof.
  unfold pending. induction (succs h m) as [|c cs IH].
  - split; [|done]. intros _ c Hc. by apply elem_of_nil in Hc.
  - rewrite filter_cons. destruct (decide (c ∉ L)) as [Hc|Hc].
    + simpl. split; [done|]. intros Hall. destruct Hc. apply Hall. by left.
    + rewrite IH. apply dec_stable in Hc. split.
      * intros Hall c' [->|Hc']%elem_of_cons; [done|by apply Hall].
      * intros Hall c' Hc'. apply Hall. by right.
Qed.

Lemma pending_snoc L n m :
  n ∉ L → pending h L m = pending h (L ++ [n]) m + count_of n (succs h m).
Proof.
  intros Hn. unfold pending. induction (succs h m) as [|c cs IH]; [done|].
  rewrite !filter_cons, count_of_cons.
  destruct (decide (c = n)) as [->|Hne].
  - rewrite decide_True by done.
    rewrite (decide_False (P := n ∉ L ++ [n])) by (intros Hx; apply Hx; set_solver).
    simpl. lia.
  - destruct (decide (c ∈ L)) as [Hc|Hc].
    + rewrite decide_False by (intros Hx; by apply Hx).
      rewrite (decide_False (P := c ∉ L ++ [n])) by (intros Hx; apply Hx; set_solver).
      lia.
    + rewrite decide_True by done.
      rewrite (decide_True (P := c ∉ L ++ [n])) by set_solver.
      simpl. lia.
Qed.

Lemma kahn_inv_done nodes d L : kahn_inv h nodes d [] L → kahn_sorted h nodes L.
Proof.
  intros (Hnd & Hsub & _ & Hzero & Hord). rewrite app_nil_r in *.
  split_and!; try done. intros m Hm. by rewrite Hzero, pending_0.
Qed.

Lemma kahn_inv_step nodes d n Sq L :
  NoDup nodes →
  kahn_inv h nodes d (n :: Sq) L →
  ∃ d' pushed,
    (∀ X, for_each relax (parents_of h nodes n) (d, X) = Ok (d', X ++ pushed))
    ∧ kahn_inv h nodes d' (Sq ++ pushed) (L ++ [n]).
Proof.
  intros Hnodes (Hnd & Hsub & Hdeg & Hzero & Hord).
  assert (n ∉ L) as HnL.
  { apply NoDup_app in Hnd as (_ & Hdisj & _). intros Hn. apply (Hdisj n Hn). by left. }
  assert (n ∈ nodes) as Hn by (apply Hsub; set_solver).
  destruct (relax_all_spec (parents_of h nodes n) d)
    as (d' & pushed & Hrun & _ & Hmap & Hndp & Hpushed).
  { intros m [Hm _]%elem_of_parents_of. rewrite Hdeg by done. eauto. }
  assert (∀ m, m ∈ pushed ↔ m ∈ nodes ∧ 0 < pending h L m ∧ pending h (L ++ [n]) m = 0)
    as Hpushed'.
  { intros m. rewrite Hpushed. split.
    - intros (x & Hx & Hr).
      assert (m ∈ nodes) as Hm.
      { assert (0 < count_of m (parents_of h nodes n)) as Hc by lia.
        apply count_of_pos, elem_of_parents_of in Hc. apply Hc. }
      rewrite Hdeg in Hx by done. simplify_eq.
      rewrite count_of_parents_of in Hr by done.
      pose proof (pending_snoc L n m HnL). split; [done|lia].
    - intros (Hm & Hpos & Hz). exists (Z.of_nat (pending h L m)).
      split; [by apply Hdeg|]. rewrite count_of_parents_of by done.
      pose proof (pending_snoc L n m HnL). lia. }
  exists d', pushed. split; [done|]. split_and!.
  - replace ((L ++ [n]) ++ Sq ++ pushed) with ((L ++ n :: Sq) ++ pushed)
      by (by rewrite <- !app_assoc).
    apply NoDup_app. split_and!; [done| |done].
    intros x Hx Hp. apply Hpushed' in Hp as (Hm & Hpos & _).
    apply Hzero in Hx; [lia|done].
  - intros x. rewrite !elem_of_app, list_elem_of_singleton.
    intros [[Hx| ->]|[Hx|Hx]]; [apply Hsub; set_solver|done|apply Hsub; set_solver|].
    by apply Hpushed' in Hx as (? & _).
  - intros m Hm. rewrite Hmap, Hdeg by done. simpl. f_equal.
    rewrite count_of_parents_of by done.
    pose proof (pending_snoc L n m HnL). lia.
  - intros m Hm.
    replace ((L ++ [n]) ++ Sq ++ pushed) with ((L ++ n :: Sq) ++ pushed)
      by (by rewrite <- !app_assoc).
    rewrite elem_of_app, Hzero, Hpushed' by done.
    pose proof (pending_snoc L n m HnL). split; [|intros Hz]; [lia|].
    destruct (decide (pending h L m = 0)); [by left|right]. split_and!; [done|lia|done].
  - intros i m c Hi Hc. apply lookup_snoc_Some in Hi as [[Hlt Hi]|[-> <-]].
    + destruct (Hord i m c Hi Hc) as (j & Hj & Hlook). exists j. split; [done|].
      by apply lookup_app_l_Some.
    + assert (c ∈ L) as HcL.
      { assert (pending h L n = 0) as Hz by (apply Hzero; [done|set_solver]).
        by eapply pending_0. }
      apply list_elem_of_lookup in HcL as [j Hj]. exists j.
      split; [by eapply lookup_lt_Some|by apply lookup_app_l_Some].
Qed.

Lemma kahn_loop_spec nodes parents :
  NoDup nodes →
  (∀ c, c ∈ nodes → parents !! c = Some (parents_of h nodes c)) →
  ∀ fuel d Sq L,
  kahn_inv h nodes d Sq L →
  length nodes ≤ fuel + length L →
  ∃ L', kahn_loop fuel parents d Sq L = Ok L' ∧ kahn_sorted h nodes L'.
Proof.
  intros Hnodes Hparents. induction fuel as [|fuel IH]; intros d Sq L Hinv Hfuel.
  - assert (Sq = []) as ->.
    { destruct Hinv as (Hnd & Hsub & _).
      assert (length (L ++ Sq) ≤ length nodes) as Hlen.
      { apply submseteq_length, NoDup_submseteq; done. }
      rewrite length_app in Hlen. apply nil_length_inv. lia. }
    exists L. split; [done|]. by eapply kahn_inv_done.
  - destruct Sq as [|n Sq].
    { exists L. split; [done|]. by eapply kahn_inv_done. }
    destruct (kahn_inv_step nodes d n Sq L Hnodes Hinv) as (d' & pushed & Hrun & Hinv').
    destruct (IH d' (Sq ++ pushed) (L ++ [n]) Hinv') as (L' & HL' & Hsorted).
    { rewrite length_app. simpl. lia. }
    exists L'. split; [|done]. cbn [kahn_loop].
    unfold getitem. rewrite Hparents.
    + cbn [mbind res_bind]. rewrite Hrun. done.
    + destruct Hinv as (_ & Hsub & _). apply Hsub. set_solver.
Qed.

(** In a finite set of nodes each of which has a successor in the set, some
    node lies on a cycle: walk from any node, remembering the nodes met. *)
Lemma sinkless_cycle (U : list nat) :
  (∀ x, x ∈ U → ∃ y, y ∈ U ∧ edge h x y) →
  ∀ k seen x,
  length U ≤ k + length seen → NoDup seen → (∀ s, s ∈ seen → s ∈ U) → x ∈ U →
  (∀ s, s ∈ seen → tc (edge h) s x) →
  ∃ y, y ∈ U ∧ tc (edge h) y y.
Proof.
  intros Hsink. induction k as [|k IH]; intros seen x Hlen Hnd Hsub Hx Hseen;
    (destruct (decide (x ∈ seen)) as [Hin|Hnin]; [exists x; split; [done|by apply Hseen]|]);
    assert (length (x :: seen) ≤ length U) as Hle
      by (apply submseteq_length, NoDup_submseteq;
          [by constructor|intros s [->|Hs]%elem_of_cons; [done|by apply Hsub]]);
    simpl in Hle; [lia|].
  destruct (Hsink x Hx) as (y & Hy & Hxy).
  apply (IH (x :: seen) y).
  - simpl. lia.
  - by constructor.
  - intros s [->|Hs]%elem_of_cons; [done|by apply Hsub].
  - done.
  - intros s [->|Hs]%elem_of_cons; [by apply tc_once|].
    eapply tc_r; [by apply Hseen|done].
Qed.

Lemma kahn_sorted_before nodes L m c :
  kahn_sorted h nodes L → tc (edge h) m c →
  ∀ i, L !! i = Some m → ∃ j, j < i ∧ L !! j = Some c.
Proof.
  intros (_ & _ & _ & Hord) Htc. induction Htc as [m c Hmc|m c c' Hmc _ IH]; intros i Hi.
  - by eapply Hord.
  - destruct (Hord i m c Hi Hmc) as (j & Hj & Hlook).
    destruct (IH j Hlook) as (j' & Hj' & Hlook'). exists j'. split; [lia|done].
Qed.

(** On a graph without cycles the output covers all nodes. *)
Lemma kahn_sorted_acyclic nodes L root :
  (∀ n, n ∈ nodes ↔ reachable h root n) →
  kahn_sorted h nodes L → acyclic h root → ∀ m, m ∈ nodes → m ∈ L.
Proof.
  intros Hnodes (Hnd & Hsub & Hall & Hord) Hacyc m Hm.
  destruct (decide (m ∈ L)) as [|HmL]; [done|exfalso].
  destruct (sinkless_cycle (filter (λ x, x ∉ L) nodes)) with
    (k := length (filter (λ x, x ∉ L) nodes)) (seen := @nil nat) (x := m)
    as (y & Hy & Hcyc).
  - intros x [HxL Hx]%list_elem_of_filter.
    assert (¬ Forall (λ c, c ∈ L) (succs h x)) as Hnot.
    { rewrite Forall_forall. intros Hf. by apply HxL, Hall. }
    apply not_Forall_Exists in Hnot; [|apply _].
    apply Exists_exists in Hnot as (c & Hc & HcL). exists c. split; [|done].
    apply list_elem_of_filter. split; [done|].
    apply Hnodes. eapply rtc_r; [by apply Hnodes|done].
  - simpl. lia.
  - constructor.
  - intros s Hs. by apply elem_of_nil in Hs.
  - by apply list_elem_of_filter.
  - intros s Hs. by apply elem_of_nil in Hs.
  - apply list_elem_of_filter in Hy as [_ Hy]. apply (Hacyc y); [by apply Hnodes|done].
Qed.

(** On a graph with a cycle it does not. *)
Lemma kahn_sorted_cyclic nodes L root n :
  (∀ n, n ∈ nodes ↔ reachable h root n) →
  kahn_sorted h nodes L → reachable h root n → tc (edge h) n n →
  length L ≠ length nodes.
Proof.
  intros Hnodes Hsorted Hn Hcyc Hlen.
  pose proof Hsorted as (Hnd & Hsub & _).
  assert (L ≡ₚ nodes) as Hperm.
  { apply submseteq_length_Permutation; [by apply NoDup_submseteq|lia]. }
  assert (n ∈ L) as HnL by (rewrite Hperm; by apply Hnodes).
  apply list_elem_of_lookup in HnL as [i Hi].
  destruct (kahn_sorted_before nodes L n n Hsorted Hcyc i Hi) as (j & Hj & Hlook).
  pose proof (NoDup_lookup L i j n Hnd Hi Hlook). lia.
Qed.

(** What both sorts compute before their main loop. *)
Lemma kahn_init root :
  wf_store h root →
  ∃ nodes parents d Sq,
    get_nodes_by_type h root cINode = Ok nodes
    ∧ for_each (record_node h) nodes ({[root := []]}, od_empty) = Ok (parents, d)
    ∧ for_each (zero_in_degree d) (od_keys d) [] = Ok Sq
    ∧ NoDup nodes
    ∧ (∀ n, n ∈ nodes ↔ reachable h root n)
    ∧ (∀ c, c ∈ nodes → parents !! c = Some (parents_of h nodes c))
    ∧ kahn_inv h nodes d Sq [].
Proof.
  intros Hwf.
  destruct (get_nodes_by_type_INode h root Hwf) as (nodes & Hbfs & Hnd & Hnodes & _).
  destruct (record_nodes_spec h nodes {[root := []]} od_empty Hnd)
    as (parents & d & Hrec & Hkeys & Hmap & Hpar & Hdom); [done|].
  simpl in Hkeys.
  assert (∀ m, m ∈ nodes → od_map d !! m = Some (Z.of_nat (pending h [] m))) as Hdeg.
  { intros m Hm. rewrite Hmap, decide_True by done. by rewrite pending_nil. }
  exists nodes, parents, d, (filter (λ u, od_map d !! u = Some 0%Z) nodes).
  split_and!; try done.
  - rewrite Hkeys. by rewrite zero_scan_spec by (intros u Hu; rewrite Hdeg by done; eauto).
  - intros c Hc.
    assert (is_Some (parents !! c)) as [ps Hps].
    { apply Hdom. apply Hnodes, rtc_inv_r in Hc as [<-|(m & Hm & Hmc)].
      - left. rewrite lookup_singleton_eq. eauto.
      - right. exists m. split; [by apply Hnodes|done]. }
    specialize (Hpar c). rewrite Hps in Hpar. simpl in Hpar. rewrite Hps, Hpar.
    f_equal. destruct (decide (root = c)) as [->|Hne].
    + by rewrite lookup_singleton_eq.
    + by rewrite lookup_singleton_ne.
  - split_and!.
    + simpl. by apply NoDup_filter.
    + intros x [_ Hx]%list_elem_of_filter. done.
    + done.
    + intros m Hm. simpl. rewrite list_elem_of_filter, Hdeg by done.
      split; [intros [[= Hz] _]; lia|intros ->; done].
    + intros i m c Hi. done.
Qed.

(** The run of [get_topological_order]: the nodes found by [bfs], the
    output of the main loop, and the final assertion. *)
Lemma get_topological_order_run root :
  wf_store h root →
  ∃ nodes L,
    NoDup nodes
    ∧ (∀ n, n ∈ nodes ↔ reachable h root n)
    ∧ kahn_sorted h nodes L
    ∧ get_topological_order h root
      = if decide (length L = length nodes) then Ok L
        else Raise (AssertionError "Graph is not DAG, it has at least one cycle").
Proof.
  intros Hwf.
  destruct (kahn_init root Hwf)
    as (nodes & parents & d & Sq & Hbfs & Hrec & Hscan & Hnd & Hnodes & Hparents & Hinv).
  destruct (kahn_loop_spec nodes parents Hnd Hparents (length nodes) d Sq [] Hinv)
    as (L & Hloop & Hsorted); [simpl; lia|].
  exists nodes, L. split_and!; try done.
  unfold get_topological_order. rewrite Hbfs. cbn [mbind res_bind].
  rewrite Hrec. cbn [mbind res_bind]. rewrite Hscan.
  cbn [mbind res_bind]. rewrite Hloop. done.
Qed.

(** *** The layered h sort *)

Lemma relax_parents_Ok (parents : gmap nat (list nat)) n ps st :
  parents !! n = Some ps → relax_parents parents n st = for_each relax ps st.
Proof. intros Hps. unfold relax_parents, getitem. by rewrite Hps. Qed.

(** One round of the [while True] loop is a run of the main loop of
    [get_topological_order] over the nodes of the last layer. *)
Lemma relax_parents_pass nodes parents :
  NoDup nodes →
  (∀ c, c ∈ nodes → parents !! c = Some (parents_of h nodes c)) →
  ∀ cur d new Ldone,
  kahn_inv h nodes d (cur ++ new) Ldone →
  ∃ d' pushed,
    for_each (relax_parents parents) cur (d, new) = Ok (d', new ++ pushed)
    ∧ kahn_inv h nodes d' (new ++ pushed) (Ldone ++ cur).
Proof.
  intros Hnd Hparents. induction cur as [|n cur IH]; intros d new Ldone Hinv.
  - exists d, []. rewrite !app_nil_r. done.
  - destruct (kahn_inv_step nodes d n (cur ++ new) Ldone Hnd Hinv)
      as (d1 & pushed1 & Hrun1 & Hinv1).
    rewrite <- app_assoc in Hinv1.
    destruct (IH d1 (new ++ pushed1) (Ldone ++ [n]) Hinv1) as (d' & pushed2 & Hrun2 & Hinv2).
    exists d', (pushed1 ++ pushed2). split.
    + cbn [for_each]. rewrite (relax_parents_Ok _ _ (parents_of h nodes n)).
      * rewrite Hrun1. cbn [mbind res_bind]. rewrite Hrun2. by rewrite <- app_assoc.
      * apply Hparents. destruct Hinv as (_ & Hsub & _). apply Hsub. set_solver.
    + rewrite <- !app_assoc in Hinv2. exact Hinv2.
Qed.

Lemma layers_loop_spec nodes parents :
  NoDup nodes →
  (∀ c, c ∈ nodes → parents !! c = Some (parents_of h nodes c)) →
  ∀ fuel d Ls cur,
  kahn_inv h nodes d cur (concat Ls) →
  layered h (Ls ++ [cur]) →
  length nodes < fuel + length (concat Ls) →
  ∃ L, layers_loop fuel parents d (Ls ++ [cur]) (length (concat (Ls ++ [cur])))
       = Ok (L, length (concat L))
     ∧ kahn_sorted h nodes (concat L)
     ∧ layered h L.
Proof.
  intros Hnd Hparents. induction fuel as [|fuel IH]; intros d Ls cur Hinv Hlay Hfuel.
  - exfalso. destruct Hinv as (HndL & Hsub & _).
    assert (length (concat Ls ++ cur) ≤ length nodes) as Hlen
      by (apply submseteq_length, NoDup_submseteq; done).
    rewrite length_app in Hlen. simpl in Hfuel. lia.
  - cbn [layers_loop]. rewrite last_snoc.
    destruct (relax_parents_pass nodes parents Hnd Hparents cur d [] (concat Ls))
      as (d' & layer & Hrun & Hinv'); [by rewrite app_nil_r|].
    rewrite Hrun. cbn [mbind res_bind]. simpl in Hinv'.
    destruct (decide (length layer = 0)) as [Hz|Hnz].
    + apply nil_length_inv in Hz. subst layer.
      exists (Ls ++ [cur]). split_and!; [done| |done].
      rewrite concat_app. simpl. rewrite app_nil_r. by eapply kahn_inv_done.
    + assert (cur ≠ []) as Hcur.
      { intros ->. simpl in Hrun. injection Hrun as _ <-. done. }
      assert (concat (Ls ++ [cur]) = concat Ls ++ cur) as Hcat.
      { rewrite concat_app. simpl. by rewrite app_nil_r. }
      destruct (IH d' (Ls ++ [cur]) layer) as (L & HL & Hsorted & HlayL).
      * by rewrite Hcat.
      * intros i ly m c Hi Hm Hc.
        apply lookup_snoc_Some in Hi as [[Hlt Hi]|[-> <-]].
        -- destruct (Hlay i ly m c Hi Hm Hc) as (j & ly' & Hj & Hlook & Hin).
           exists j, ly'. split_and!; [done| |done].
           by apply lookup_app_l_Some.
        -- assert (c ∈ concat (Ls ++ [cur])) as Hin.
           { rewrite Hcat. destruct Hinv' as (_ & Hsub & _ & Hzero & _).
             assert (m ∈ nodes) as Hmn by (apply Hsub; set_solver).
             eapply pending_0; [|exact Hc]. apply Hzero; [done|set_solver]. }
           apply elem_of_concat in Hin as (ly' & Hc' & Hly').
           apply list_elem_of_lookup in Hly' as [j Hj].
           exists j, ly'. split_and!; [by eapply lookup_lt_Some| |done].
           by apply lookup_app_l_Some.
      * rewrite Hcat, length_app. destruct cur; [done|]. simpl. lia.
      * exists L. split_and!; try done. rewrite decide_False by done.
        rewrite <- HL. f_equal.
        rewrite (concat_app (Ls ++ [cur]) [layer]). simpl.
        by rewrite length_app, app_nil_r.
Qed.

Lemma get_topological_order_layers_run root :
  wf_store h root →
  ∃ nodes L,
    NoDup nodes
    ∧ (∀ n, n ∈ nodes ↔ reachable h root n)
    ∧ kahn_sorted h nodes (concat L)
    ∧ layered h L
    ∧ get_topological_order_layers h root
      = if decide (length (concat L) = length nodes) then Ok L
        else Raise (AssertionError "Graph is not DAG, it has at least one cycle").
Proof.
  intros Hwf.
  destruct (kahn_init root Hwf)
    as (nodes & parents & d & Sq & Hbfs & Hrec & Hscan & Hnd & Hnodes & Hparents & Hinv).
  destruct (layers_loop_spec nodes parents Hnd Hparents (S (length nodes)) d [] Sq)
    as (L & Hloop & Hsorted & Hlay).
  - done.
  - intros i ly m c Hi Hm Hc. exfalso.
    apply list_lookup_singleton_Some in Hi as [-> <-].
    destruct Hinv as (_ & Hsub & _ & Hzero & _).
    assert (m ∈ nodes) as Hmn by (apply Hsub; set_solver).
    assert (c ∈ @nil nat) as Hin.
    { eapply pending_0; [|exact Hc]. apply Hzero; [done|set_solver]. }
    by apply elem_of_nil in Hin.
  - simpl. lia.
  - exists nodes, L. split_and!; try done.
    unfold get_topological_order_layers. rewrite Hbfs. cbn [mbind res_bind].
    rewrite Hrec. cbn [mbind res_bind]. rewrite Hscan. cbn [mbind res_bind].
    cbn [app concat] in Hloop. rewrite app_nil_r in Hloop. rewrite Hloop. done.
Qed.

End kahn.

(** The two outcomes of [get_topological_order]. *)
Lemma get_topological_order_spec (h : store) (root : nat) :
  wf_store h root →
  (acyclic h root →
     ∃ L, get_topological_order h root = Ok L
       ∧ NoDup L
       ∧ (∀ n, n ∈ L ↔ reachable h root n)
       ∧ (∀ i m c, L !! i = Some m → c ∈ succs h m → ∃ j, j < i ∧ L !! j = Some c))
  ∧ ((∃ n, reachable h root n ∧ tc (edge h) n n) →
     get_topological_order h root
     = Raise (AssertionError "Graph is not DAG, it has at least one cycle")).
Proof.
  intros Hwf.
  destruct (get_topological_order_run h root Hwf) as (nodes & L & Hnd & Hnodes & Hsorted & Hrun).
  split.
  - intros Hacyc.
    pose proof (kahn_sorted_acyclic h nodes L root Hnodes Hsorted Hacyc) as Hall.
    pose proof Hsorted as (HndL & Hsub & _ & Hord).
    exists L. split_and!; try done.
    + rewrite Hrun, decide_True; [done|].
      apply Nat.le_antisymm; apply submseteq_length, NoDup_submseteq; done.
    + intros n. rewrite <- Hnodes. split; [apply Hsub|apply Hall].
  - intros (n & Hn & Hcyc). rewrite Hrun, decide_False; [done|].
    by eapply kahn_sorted_cyclic.
Qed.

(** C2.  On a closed store, [get_topological_order] applied to the root of a
    graph without cycles returns a list that holds every node reachable from
    the root exactly once, each node after all the children the traversal
    follows from it; applied to the root of a graph with a cycle it raises the
    [AssertionError] of its final assertion.  It never runs without end. *)
Theorem get_topological_order_correct (h : store) (root : nat) :
  wf_store h root →
  (acyclic h root →
     ∃ L, get_topological_order h root = Ok L
       ∧ NoDup L
       ∧ (∀ n, n ∈ L ↔ reachable h root n)
       ∧ (∀ i m c, L !! i = Some m → c ∈ succs h m → ∃ j, j < i ∧ L !! j = Some c))
  ∧ ((∃ n, reachable h root n ∧ tc (edge h) n n) →
     get_topological_order h root
     = Raise (AssertionError "Graph is not DAG, it has at least one cycle")).
Proof. apply get_topological_order_spec. Qed.

(** ** Properties of bottom-up evaluation *)

Section bottom_up_facts.
Context {V : Type}.
Variable h : store.
Variable eval_functions : gmap pyclass (bu_handler V).

Let func_dict : gmap pyclass (list (bu_handler V)) := (λ func, [func]) <$> eval_functions.
Let leaf_dict : gmap pyclass bool :=
  map_imap (λ node_type _, Some (issubclass node_type cILeafNode)) eval_functions.
Let leaf_func : option (bu_handler V) := eval_functions !! cILeafNode.

Lemma bu_resolve_concrete n func :
  eval_functions !! type_of h n = Some func →
  bu_resolve h func_dict leaf_dict leaf_func n
  = Ok (type_of h n, func, isinstance h n cILeafNode).
Proof.
  intros Hf. unfold bu_resolve, func_dict, leaf_dict.
  rewrite lookup_fmap, map_lookup_imap, Hf. done.
Qed.

Lemma bu_resolve_fallback n func :
  eval_functions !! type_of h n = None →
  isinstance h n cILeafNode = true →
  eval_functions !! cILeafNode = Some func →
  bu_resolve h func_dict leaf_dict leaf_func n = Ok (cILeafNode, func, true).
Proof.
  intros Hf Hleaf Hlf. unfold bu_resolve, func_dict, leaf_dict, leaf_func.
  rewrite lookup_fmap, Hf, Hlf, Hleaf. done.
Qed.

Lemma bu_resolve_fail n :
  ¬ bu_applicable h eval_functions n →
  ∃ msg, bu_resolve h func_dict leaf_dict leaf_func n = Raise (AssertionError msg).
Proof.
  intros Hna. unfold bu_resolve, func_dict, leaf_dict, leaf_func.
  rewrite lookup_fmap.
  destruct (eval_functions !! type_of h n) as [f|] eqn:Hf.
  { destruct Hna. left. eauto. }
  simpl. destruct (eval_functions !! cILeafNode) as [lf|] eqn:Hlf; [|eauto].
  destruct (isinstance h n cILeafNode) eqn:Hleaf; [|eauto].
  destruct Hna. right. split; [done|]. unfold leaf_func. eauto.
Qed.

Lemma gather_spec (results : gmap nat V) cs :
  (∀ ci, ci ∈ cs → is_Some (results !! ci)) →
  ∃ vs, gather results cs = Ok vs ∧ Forall2 (λ ci v, results !! ci = Some v) cs vs.
Proof.
  induction cs as [|ci cs IH]; intros Hdom.
  - exists []. split; [done|constructor].
  - destruct (Hdom ci) as [v Hv]; [by left|].
    destruct IH as (vs & Hvs & Hall); [intros; apply Hdom; by right|].
    exists (v :: vs). split; [|by constructor].
    simpl. unfold getitem. rewrite Hv. cbn [mbind res_bind]. by rewrite Hvs.
Qed.

Lemma bu_call_ok_weaken (results results' : gmap nat V) c :
  results ⊆ results' → bu_call_ok h eval_functions results c → bu_call_ok h eval_functions results' c.
Proof.
  intros Hsub [Hres Hcall]. split; [by eapply lookup_weaken|].
  destruct (eval_functions !! type_of h (bu_node c)) as [func|]; [|done].
  destruct Hcall as (Hkey & Hval & Hargs). split_and!; [done|done|].
  destruct (isinstance h (bu_node c) cILeafNode); [done|].
  destruct Hargs as (vs & Hvs & Hall). exists vs. split; [done|].
  eapply Forall2_impl; [exact Hall|]. intros ci w Hw.
  exact (lookup_weaken _ _ _ _ Hw Hsub).
Qed.

Lemma bu_visit_leaf fd ld lf n (results : gmap nat V) calls key func :
  bu_resolve h fd ld lf n = Ok (key, func, true) →
  bu_visit h fd ld lf n (results, calls)
  = Ok (<[n := func n None]> results, calls ++ [mk_bu_call key n None (func n None)]).
Proof. intros Hr. unfold bu_visit. by rewrite Hr. Qed.

Lemma bu_visit_inner fd ld lf n (results : gmap nat V) calls key func vs :
  bu_resolve h fd ld lf n = Ok (key, func, false) →
  gather results (children_of h n) = Ok vs →
  bu_visit h fd ld lf n (results, calls)
  = Ok (<[n := func n (Some vs)]> results,
        calls ++ [mk_bu_call key n (Some vs) (func n (Some vs))]).
Proof. intros Hr Hg. unfold bu_visit. rewrite Hr. cbn [mbind res_bind]. by rewrite Hg. Qed.

Lemma bu_visit_raise fd ld (lf : option (bu_handler V)) n st e :
  bu_resolve h fd ld lf n = Raise e → bu_visit h fd ld lf n st = Raise e.
Proof. intros Hr. unfold bu_visit. destruct st. by rewrite Hr. Qed.

(** The loop over the topological order, from any point of it on. *)
Lemma bu_loop_spec order :
  NoDup order →
  (∀ i m c, order !! i = Some m → c ∈ succs h m → ∃ j, j < i ∧ order !! j = Some c) →
  ∀ rest done results calls,
  order = done ++ rest →
  (∀ n, is_Some (results !! n) ↔ n ∈ done) →
  Forall (bu_call_ok h eval_functions results) calls →
  bu_node <$> calls = done →
  match for_each (bu_visit h func_dict leaf_dict leaf_func) rest (results, calls) with
  | Ok (results', calls') =>
    Forall (bu_applicable h eval_functions) rest
    ∧ (∀ n, is_Some (results' !! n) ↔ n ∈ order)
    ∧ bu_node <$> calls' = order
    ∧ Forall (bu_call_ok h eval_functions results') calls'
  | Raise e => (∃ msg, e = AssertionError msg) ∧ Exists (λ n, ¬ bu_applicable h eval_functions n) rest
  | Diverge => False
  end.
Proof.
  intros Hnd Hord. induction rest as [|n rest IH]; intros done results calls Heq Hdom Hcalls Hnodes.
  - rewrite app_nil_r in Heq. subst order. simpl. split_and!; done.
  - assert (n ∉ done) as Hn.
    { subst order. apply NoDup_app in Hnd as (_ & Hdisj & _).
      intros Hin. apply (Hdisj n Hin). by left. }
    assert (results !! n = None) as Hfresh.
    { apply eq_None_not_Some. by rewrite Hdom. }
    assert (∀ key func args,
      bu_call_ok h eval_functions (<[n := func n args]> results) (mk_bu_call key n args (func n args)) →
      match for_each (bu_visit h func_dict leaf_dict leaf_func) rest
              (<[n := func n args]> results, calls ++ [mk_bu_call key n args (func n args)]) with
      | Ok (results', calls') =>
        Forall (bu_applicable h eval_functions) rest
        ∧ (∀ n, is_Some (results' !! n) ↔ n ∈ order)
        ∧ bu_node <$> calls' = order
        ∧ Forall (bu_call_ok h eval_functions results') calls'
      | Raise e => (∃ msg, e = AssertionError msg) ∧ Exists (λ n, ¬ bu_applicable h eval_functions n) rest
      | Diverge => False
      end) as Hnext.
    { intros key func args Hok. apply (IH (done ++ [n])).
      - by rewrite <- app_assoc.
      - intros k. rewrite elem_of_app, list_elem_of_singleton, <- Hdom.
        destruct (decide (n = k)) as [->|Hne].
        + rewrite lookup_insert_eq. naive_solver.
        + rewrite lookup_insert_ne by done. naive_solver.
      - apply Forall_app. split; [|by constructor].
        eapply Forall_impl; [exact Hcalls|]. intros c. apply bu_call_ok_weaken.
        by apply insert_subseteq.
      - rewrite fmap_app, Hnodes. done. }
    cbn [for_each].
    destruct (eval_functions !! type_of h n) as [func|] eqn:Hf.
    + pose proof (bu_resolve_concrete n func Hf) as Hres.
      destruct (isinstance h n cILeafNode) eqn:Hleaf.
      * rewrite (bu_visit_leaf _ _ _ _ _ _ _ _ Hres). cbn [mbind res_bind].
        specialize (Hnext (type_of h n) func None).
        assert (bu_call_ok h eval_functions (<[n := func n None]> results)
                  (mk_bu_call (type_of h n) n None (func n None))) as Hok.
        { unfold bu_call_ok. cbn [bu_node bu_key bu_args bu_result].
          rewrite lookup_insert_eq, Hf, Hleaf. done. }
        specialize (Hnext Hok).
        destruct (for_each _ rest _) as [[results' calls']|e|]; [| |done].
        -- destruct Hnext as (Happ & ?). split; [|done]. constructor; [left; eauto|done].
        -- destruct Hnext as (? & Hex). split; [done|]. by right.
      * destruct (gather_spec results (children_of h n)) as (vs & Hvs & Hall).
        { intros ci Hci. apply Hdom.
          destruct (Hord (length done) n ci) as (j & Hj & Hlook).
          - subst order. by rewrite list_lookup_middle.
          - unfold succs. by rewrite Hleaf.
          - subst order. rewrite lookup_app_l in Hlook by done.
            by eapply list_elem_of_lookup_2. }
        rewrite (bu_visit_inner _ _ _ _ _ _ _ _ _ Hres Hvs). cbn [mbind res_bind].
        specialize (Hnext (type_of h n) func (Some vs)).
        assert (bu_call_ok h eval_functions (<[n := func n (Some vs)]> results)
                  (mk_bu_call (type_of h n) n (Some vs) (func n (Some vs)))) as Hok.
        { unfold bu_call_ok. cbn [bu_node bu_key bu_args bu_result].
          rewrite lookup_insert_eq, Hf, Hleaf.
          split_and!; [done|done|done|]. exists vs. split; [done|].
          eapply Forall2_impl; [exact Hall|]. intros ci v Hv.
          eapply lookup_weaken; [exact Hv|]. by apply insert_subseteq. }
        specialize (Hnext Hok).
        destruct (for_each _ rest _) as [[results' calls']|e|]; [| |done].
        -- destruct Hnext as (Happ & ?). split; [|done]. constructor; [left; eauto|done].
        -- destruct Hnext as (? & Hex). split; [done|]. by right.
    + destruct (decide (bu_applicable h eval_functions n)) as [Happ|Hna].
      * destruct Happ as [[? Hc]|[Hleaf [lf Hlf]]]; [congruence|].
        rewrite (bu_visit_leaf _ _ _ _ _ _ _ _ (bu_resolve_fallback n lf Hf Hleaf Hlf)).
        cbn [mbind res_bind].
        specialize (Hnext cILeafNode lf None).
        assert (bu_call_ok h eval_functions (<[n := lf n None]> results)
                  (mk_bu_call cILeafNode n None (lf n None))) as Hok.
        { unfold bu_call_ok. cbn [bu_node bu_key bu_args bu_result].
          rewrite lookup_insert_eq, Hf. eauto 10. }
        specialize (Hnext Hok).
        destruct (for_each _ rest _) as [[results' calls']|e|]; [| |done].
        -- destruct Hnext as (Happ & ?). split; [|done].
           constructor; [right; eauto|done].
        -- destruct Hnext as (? & Hex). split; [done|]. by right.
      * destruct (bu_resolve_fail n Hna) as [msg Hmsg].
        rewrite (bu_visit_raise _ _ _ _ _ _ Hmsg). cbn [mbind res_bind].
        split; [eauto|]. by left.
Qed.

End bottom_up_facts.

Lemma eval_spn_bottom_up_run {V} (h : store) (root : nat)
    (eval_functions : gmap pyclass (bu_handler V)) order :
  get_topological_order h root = Ok order →
  NoDup order →
  root ∈ order →
  (∀ i m c, order !! i = Some m → c ∈ succs h m → ∃ j, j < i ∧ order !! j = Some c) →
  match eval_spn_bottom_up h root eval_functions with
  | Ok (v, results, calls) =>
    Forall (bu_applicable h eval_functions) order
    ∧ bu_node <$> calls = order
    ∧ Forall (bu_call_ok h eval_functions results) calls
    ∧ results !! root = Some v
  | Raise e =>
    (∃ msg, e = AssertionError msg) ∧ Exists (λ n, ¬ bu_applicable h eval_functions n) order
  | Diverge => False
  end.
Proof.
  intros Horder Hnd Hroot Hord.
  pose proof (bu_loop_spec h eval_functions order Hnd Hord order [] ∅ []) as Hloop.
  unfold eval_spn_bottom_up. rewrite Horder. cbn [mbind res_bind].
  destruct (for_each _ order _) as [[results calls]|e|].
  - destruct Hloop as (Happ & Hdom & Hnodes & Hcalls); try done.
    { intros n. rewrite lookup_empty, elem_of_nil. split; [by intros [? ?]|done]. }
    cbn [mbind res_bind]. destruct (proj2 (Hdom root) Hroot) as [v Hv].
    unfold getitem. rewrite Hv. cbn [mbind res_bind]. done.
  - apply Hloop; try done.
    intros n. rewrite lookup_empty, elem_of_nil. split; [by intros [? ?]|done].
  - apply Hloop; try done.
    intros n. rewrite lookup_empty, elem_of_nil. split; [by intros [? ?]|done].
Qed.

(** C1.  On a closed store and a graph without cycles, for every map of
    handlers: when a handler applies to every node, [eval_spn_bottom_up] calls
    a handler once for each node reachable from the root, and for no other, in
    topological order; each call uses the handler of the class of the node when
    there is one and the handler of [ILeafNode] otherwise, passes the results
    stored for the children, and its result is the one stored for the node; the
    value returned is the result stored for the root.  When some node that is
    not a leaf has no handler for its class, an [AssertionError] is raised. *)
Theorem eval_spn_bottom_up_correct {V} (h : store) (root : nat)
    (eval_functions : gmap pyclass (bu_handler V)) :
  wf_store h root → acyclic h root →
  ∃ order,
    get_topological_order h root = Ok order
    ∧ NoDup order
    ∧ (∀ n, n ∈ order ↔ reachable h root n)
    ∧ ((∀ n, reachable h root n → bu_applicable h eval_functions n) →
       ∃ v results calls,
         eval_spn_bottom_up h root eval_functions = Ok (v, results, calls)
         ∧ bu_node <$> calls = order
         ∧ Forall (bu_call_ok h eval_functions results) calls
         ∧ results !! root = Some v)
    ∧ (∀ n, reachable h root n →
         isinstance h n cILeafNode = false → eval_functions !! type_of h n = None →
         ∃ msg, eval_spn_bottom_up h root eval_functions = Raise (AssertionError msg)).
Proof.
  intros Hwf Hacyc.
  destruct (get_topological_order_spec h root Hwf) as [Hgood _].
  destruct (Hgood Hacyc) as (order & Horder & Hnd & Hreach & Hord).
  exists order. split_and!; try done.
  - intros Happ.
    pose proof (eval_spn_bottom_up_run h root eval_functions order Horder Hnd) as Hrun.
    destruct (eval_spn_bottom_up h root eval_functions) as [[[v results] calls]|e|].
    + destruct Hrun as (_ & ? & ? & ?); try done.
      * apply Hreach, rtc_refl.
      * by exists v, results, calls.
    + destruct Hrun as (_ & Hex); try done; [apply Hreach, rtc_refl|].
      apply Exists_exists in Hex as (n & Hn & Hna). destruct Hna. by apply Happ, Hreach.
    + destruct Hrun; try done. apply Hreach, rtc_refl.
  - intros n Hn Hleaf Hnone.
    pose proof (eval_spn_bottom_up_run h root eval_functions order Horder Hnd) as Hrun.
    destruct (eval_spn_bottom_up h root eval_functions) as [[[v results] calls]|e|].
    + destruct Hrun as (Happ & _); try done; [apply Hreach, rtc_refl|].
      rewrite Forall_forall in Happ. destruct (Happ n) as [[? Hs]|[Hl _]]; [by apply Hreach|..].
      * congruence.
      * congruence.
    + destruct Hrun as ([msg ->] & _); try done; [apply Hreach, rtc_refl|]. eauto.
    + destruct Hrun; try done. apply Hreach, rtc_refl.
Qed.

(** ** Properties of top-down evaluation *)

Lemma for_each_app {A S} (body : A → S → res S) l1 l2 s :
  for_each body (l1 ++ l2) s = for_each body l1 s ≫= for_each body l2.
Proof.
  revert s. induction l1 as [|x l1 IH]; intros s; [done|].
  simpl. destruct (body x s); simpl; [apply IH|done|done].
Qed.

Lemma for_each_concat {A S} (body : A → S → res S) (ls : list (list A)) s :
  for_each (λ l st, for_each body l st) ls s = for_each body (concat ls) s.
Proof.
  revert s. induction ls as [|l ls IH]; intros s; [done|].
  simpl. rewrite for_each_app. destruct (for_each body l s); simpl; [apply IH|done|done].
Qed.

Lemma concat_reverse_perm {A} (ls : list (list A)) : concat (reverse ls) ≡ₚ concat ls.
Proof.
  induction ls as [|l ls IH]; [done|].
  rewrite reverse_cons, concat_app. simpl. rewrite app_nil_r, IH.
  apply Permutation_app_comm.
Qed.

Lemma NoDup_app_split {A} (x y l1 l2 : list A) c :
  NoDup (x ++ y) → x ++ y = l1 ++ c :: l2 → c ∈ y → ∃ y1, l1 = x ++ y1.
Proof.
  revert l1. induction x as [|a x IH]; intros l1 Hnd Heq Hc; [by exists l1|].
  destruct l1 as [|b l1]; simpl in Heq; simplify_eq.
  - apply NoDup_cons in Hnd as [Hn _]. destruct Hn. set_solver.
  - apply NoDup_cons in Hnd as [_ Hnd].
    destruct (IH l1 Hnd) as [y1 ->]; [done|done|]. by exists y1.
Qed.

(** In the order of the top-down pass, the last layer first, a node comes
    after all its parents. *)
Lemma layered_parents_first (h : store) (L : list (list nat)) l1 c l2 m :
  layered h L → NoDup (concat L) →
  concat (reverse L) = l1 ++ c :: l2 →
  m ∈ concat L → edge h m c → m ∈ l1.
Proof.
  intros Hlay Hnd Heq Hm Hmc.
  apply elem_of_concat in Hm as (ly & Hm & Hly).
  apply list_elem_of_lookup in Hly as [i Hi].
  destruct (Hlay i ly m c Hi Hm Hmc) as (j & ly' & Hj & Hlook & Hc).
  assert (m ∈ concat (reverse (drop (S j) L))) as HmB.
  { apply elem_of_concat. exists ly. split; [done|]. apply elem_of_reverse.
    apply list_elem_of_lookup. exists (i - S j). rewrite lookup_drop.
    replace (S j + (i - S j)) with i by lia. done. }
  rewrite <- (take_drop_middle L j ly' Hlook) in Heq.
  rewrite reverse_app, reverse_cons, !concat_app in Heq. simpl in Heq.
  rewrite app_nil_r, <- app_assoc in Heq.
  destruct (NoDup_app_split (concat (reverse (drop (S j) L)))
              (ly' ++ concat (reverse (take j L))) l1 l2 c) as [y1 ->].
  - rewrite <- (take_drop_middle L j ly' Hlook) in Hnd.
    rewrite <- concat_reverse_perm in Hnd.
    rewrite reverse_app, reverse_cons, !concat_app in Hnd. simpl in Hnd.
    by rewrite app_nil_r, <- app_assoc in Hnd.
  - done.
  - set_solver.
  - set_solver.
Qed.

Section top_down_facts.
Context {M : Type}.
Variable h : store.
Variable eval_functions : gmap pyclass (td_handler M).
Variable root : nat.
Variable parent_result : M.

Let leaf_func : option (td_handler M) := eval_functions !! cILeafNode.

Lemma td_resolve_lookup n key func :
  td_resolve h eval_functions leaf_func n = Ok (key, func) →
  eval_functions !! key = Some func.
Proof.
  unfold td_resolve, leaf_func.
  destruct (eval_functions !! cILeafNode) as [lf|] eqn:Hlf.
  - destruct (isinstance h n cILeafNode); [by intros [= <- <-]|].
    destruct (eval_functions !! type_of h n) eqn:Hf; [|done]. by intros [= <- <-].
  - destruct (eval_functions !! type_of h n) eqn:Hf; [|done]. by intros [= <- <-].
Qed.

Lemma td_resolve_applicable n :
  td_applicable h eval_functions n → ∃ key func, td_resolve h eval_functions leaf_func n = Ok (key, func).
Proof.
  unfold td_resolve, leaf_func. intros [[Hleaf [lf Hlf]]|[f Hf]].
  - rewrite Hlf, Hleaf. eauto.
  - rewrite Hf. destruct (eval_functions !! cILeafNode); [|eauto].
    destruct (isinstance h n cILeafNode); eauto.
Qed.

Lemma td_resolve_raise n e :
  td_resolve h eval_functions leaf_func n = Raise e → e = KeyError.
Proof.
  unfold td_resolve.
  destruct leaf_func; [destruct (isinstance h n cILeafNode); [done|]|];
    destruct (eval_functions !! type_of h n); (done || by intros [= <-]).
Qed.

Lemma td_resolve_Diverge n : td_resolve h eval_functions leaf_func n ≠ Diverge.
Proof.
  unfold td_resolve.
  destruct leaf_func; [destruct (isinstance h n cILeafNode); [done|]|];
    by destruct (eval_functions !! type_of h n).
Qed.

Lemma td_visit_Ok n (all_results : gmap nat (list M)) calls key func params :
  td_resolve h eval_functions leaf_func n = Ok (key, func) →
  all_results !! n = Some params →
  td_visit h eval_functions leaf_func n (all_results, calls)
  = Ok (push_messages h n (func n params) all_results,
        calls ++ [mk_td_call key n params (func n params)]).
Proof.
  intros Hr Hp. unfold td_visit. rewrite Hr. cbn [mbind res_bind].
  unfold getitem. by rewrite Hp.
Qed.

Lemma td_visit_KeyError n (all_results : gmap nat (list M)) calls key func :
  td_resolve h eval_functions leaf_func n = Ok (key, func) →
  all_results !! n = None →
  td_visit h eval_functions leaf_func n (all_results, calls) = Raise KeyError.
Proof.
  intros Hr Hp. unfold td_visit. rewrite Hr. cbn [mbind res_bind].
  unfold getitem. by rewrite Hp.
Qed.

Lemma td_visit_raise n st e :
  td_resolve h eval_functions leaf_func n = Raise e →
  td_visit h eval_functions leaf_func n st = Raise e.
Proof. intros Hr. unfold td_visit. destruct st. by rewrite Hr. Qed.

Lemma push_message_lookup (all_results : gmap nat (list M)) items c :
  foldl push_message all_results items !! c
  = if decide (c ∈ items.*1)
    then Some (default [] (all_results !! c) ++ (filter (λ it, it.1 = c) items).*2)
    else all_results !! c.
Proof.
  revert all_results. induction items as [|[c0 p] items IH]; intros all_results.
  - cbn [foldl fmap list_fmap]. rewrite decide_False by apply not_elem_of_nil. done.
  - cbn [foldl]. rewrite IH. unfold push_message. cbn [fst snd fmap list_fmap].
    rewrite filter_cons. cbn [fst].
    destruct (decide (c0 = c)) as [->|Hne].
    + rewrite lookup_insert_eq. cbn [default fmap list_fmap snd].
      rewrite (decide_True (P := c ∈ c :: items.*1)) by (by left).
      destruct (decide (c ∈ items.*1)) as [Hin|Hnin].
      * unfold id. by rewrite <- app_assoc.
      * assert (filter (λ it : nat * M, it.1 = c) items = []) as ->; [|done].
        apply elem_of_nil_inv. intros [c' p'] [Heq Hin']%list_elem_of_filter.
        simpl in Heq. subst c'. apply Hnin, list_elem_of_fmap. by exists (c, p').
    + rewrite lookup_insert_ne by done.
      destruct (decide (c ∈ items.*1)) as [Hin|Hnin].
      * rewrite decide_True; [done|by right].
      * rewrite decide_False; [done|]. intros [?|?]%elem_of_cons; done.
Qed.

Lemma push_messages_root n key func params (all_results : gmap nat (list M)) :
  td_never_root eval_functions root → eval_functions !! key = Some func →
  push_messages h n (func n params) all_results !! root = all_results !! root.
Proof.
  intros Hnr Hf. unfold push_messages.
  destruct (func n params) as [items|] eqn:Hitems; [|done].
  destruct (isinstance h n cILeafNode); [done|].
  rewrite push_message_lookup, decide_False; [done|]. by eapply Hnr.
Qed.

Lemma push_messages_mono n result (all_results : gmap nat (list M)) c :
  is_Some (all_results !! c) → is_Some (push_messages h n result all_results !! c).
Proof.
  intros Hc. unfold push_messages. destruct result as [items|]; [|done].
  destruct (isinstance h n cILeafNode); [done|].
  rewrite push_message_lookup. destruct (decide (c ∈ items.*1)); eauto.
Qed.

(** Whatever the graph and the handlers: the pass ends, every call follows
    the dispatch rule, and the list of the root stays as it was seeded when
    no handler names the root. *)
Lemma td_loop_safe rest :
  ∀ (all_results : gmap nat (list M)) calls,
  (td_never_root eval_functions root → all_results !! root = Some [parent_result]) →
  Forall (td_call_ok h eval_functions) calls →
  match for_each (td_visit h eval_functions leaf_func) rest (all_results, calls) with
  | Ok (all_results', calls') =>
    (td_never_root eval_functions root → all_results' !! root = Some [parent_result])
    ∧ Forall (td_call_ok h eval_functions) calls'
  | Raise e => e = KeyError
  | Diverge => False
  end.
Proof.
  induction rest as [|n rest IH]; intros all_results calls Hroot Hcalls; [done|].
  cbn [for_each].
  destruct (td_resolve h eval_functions leaf_func n) as [[key func]|e|] eqn:Hres.
  - destruct (all_results !! n) as [params|] eqn:Hp.
    + rewrite (td_visit_Ok _ _ _ _ _ _ Hres Hp). cbn [mbind res_bind]. apply IH.
      * intros Hnr.
        rewrite (push_messages_root _ key) by eauto using td_resolve_lookup. auto.
      * apply Forall_app. split; [done|]. constructor; [|done]. by exists func.
    + by rewrite (td_visit_KeyError _ _ _ _ _ Hres Hp).
  - rewrite (td_visit_raise _ _ _ Hres). cbn [mbind res_bind]. by eapply td_resolve_raise.
  - by apply td_resolve_Diverge in Hres.
Qed.

(** When the order puts a parent of every node but the root before it,
    every node has a handler and the handlers of inner nodes feed all their
    children, the pass meets no missing key. *)
Lemma td_loop_total order :
  (∀ l1 c l2, order = l1 ++ c :: l2 → c = root ∨ ∃ m, m ∈ l1 ∧ edge h m c) →
  (∀ n, n ∈ order → td_applicable h eval_functions n) →
  (∀ n, n ∈ order → isinstance h n cILeafNode = false → td_feeds h eval_functions n) →
  ∀ rest done (all_results : gmap nat (list M)) calls,
  order = done ++ rest →
  (∀ c, c = root ∨ (∃ m, m ∈ done ∧ edge h m c) → is_Some (all_results !! c)) →
  ∃ all_results' calls',
    for_each (td_visit h eval_functions leaf_func) rest (all_results, calls)
    = Ok (all_results', calls').
Proof.
  intros Hpar Happ Hfeeds.
  induction rest as [|n rest IH]; intros done all_results calls Heq Hinv; [by eexists _, _|].
  assert (n ∈ order) as Hn by (subst order; set_solver).
  destruct (td_resolve_applicable n (Happ n Hn)) as (key & func & Hres).
  destruct (Hinv n) as [params Hp]; [by eapply Hpar|].
  cbn [for_each]. rewrite (td_visit_Ok _ _ _ _ _ _ Hres Hp). cbn [mbind res_bind].
  apply (IH (done ++ [n])); [by rewrite <- app_assoc|].
  intros c [->|(m & [Hm| ->%list_elem_of_singleton]%elem_of_app & Hmc)].
  - apply push_messages_mono, Hinv. by left.
  - apply push_messages_mono, Hinv. right. eauto.
  - unfold edge, succs in Hmc.
    destruct (isinstance h n cILeafNode) eqn:Hleaf; [by apply elem_of_nil in Hmc|].
    destruct (Hfeeds n Hn Hleaf key func params Hres) as (items & Hitems & Hall).
    unfold push_messages. rewrite Hitems, Hleaf, push_message_lookup.
    rewrite decide_True by (by apply Hall). eauto.
Qed.

End top_down_facts.

Lemma eval_spn_top_down_run {M} (h : store) (root : nat)
    (eval_functions : gmap pyclass (td_handler M)) (parent_result : M) :
  wf_store h root →
  match eval_spn_top_down h root eval_functions parent_result with
  | Ok (v, results, calls) =>
    (td_never_root eval_functions root → v = [parent_result])
    ∧ Forall (td_call_ok h eval_functions) calls
  | Raise e => True
  | Diverge => False
  end.
Proof.
  intros Hwf.
  destruct (get_topological_order_layers_run h root Hwf) as (nodes & L & _ & _ & _ & _ & Hrun).
  unfold eval_spn_top_down. rewrite Hrun.
  destruct (decide (length (concat L) = length nodes)) as [Hlen|]; [|done].
  cbn [mbind res_bind]. rewrite for_each_concat.
  pose proof (td_loop_safe h eval_functions root parent_result (concat (reverse L))
                {[root := [parent_result]]} []) as Hsafe.
  destruct (for_each _ (concat (reverse L)) _) as [[results calls]|e|].
  - destruct Hsafe as [Hroot Hcalls]; [by rewrite lookup_singleton_eq|done|].
    cbn [mbind res_bind]. unfold getitem.
    destruct (results !! root) as [v|] eqn:Hv; [|done]. cbn [mbind res_bind].
    split; [|done]. intros Hnr. specialize (Hroot Hnr). congruence.
  - done.
  - apply Hsafe; [by rewrite lookup_singleton_eq|done].
Qed.

(** C10.  On a closed store, when no handler answers with the root among the
    keys of its dict, [eval_spn_top_down] ends, and every value it returns is
    the one-element list of [parent_result]: it does not depend on the
    handlers, whose work shows only in [all_results].  It does return on a
    graph without cycles when a handler applies to every node and the handler
    of every inner node feeds all the children of the node. *)
Theorem eval_spn_top_down_returns_seed {M} (h : store) (root : nat)
    (eval_functions : gmap pyclass (td_handler M)) (parent_result : M) :
  wf_store h root →
  td_never_root eval_functions root →
  (∀ v results calls,
     eval_spn_top_down h root eval_functions parent_result = Ok (v, results, calls) →
     v = [parent_result])
  ∧ eval_spn_top_down h root eval_functions parent_result ≠ Diverge
  ∧ (acyclic h root →
     (∀ n, reachable h root n → td_applicable h eval_functions n) →
     (∀ n, reachable h root n → isinstance h n cILeafNode = false →
           td_feeds h eval_functions n) →
     ∃ results calls,
       eval_spn_top_down h root eval_functions parent_result
       = Ok ([parent_result], results, calls)).
Proof.
  intros Hwf Hnr.
  pose proof (eval_spn_top_down_run h root eval_functions parent_result Hwf) as Hrun.
  split_and!.
  - intros v results calls Heq. rewrite Heq in Hrun. by apply Hrun.
  - intros Heq. by rewrite Heq in Hrun.
  - intros Hacyc Happ Hfeeds.
    destruct (get_topological_order_layers_run h root Hwf)
      as (nodes & L & Hnd & Hnodes & Hsorted & Hlay & Hlayers).
    pose proof (kahn_sorted_acyclic h nodes (concat L) root Hnodes Hsorted Hacyc) as Hall.
    pose proof Hsorted as (HndL & Hsub & _).
    assert (∀ n, n ∈ concat (reverse L) ↔ n ∈ nodes) as Hmem.
    { intros n. rewrite concat_reverse_perm. split; [apply Hsub|apply Hall]. }
    destruct (td_loop_total h eval_functions root (concat (reverse L)))
      with (rest := concat (reverse L)) (done := @nil nat)
           (all_results := ({[root := [parent_result]]} : gmap nat (list M)))
           (calls := @nil (td_call M))
      as (results & calls & Hloop).
    { intros l1 c l2 Heq.
      assert (c ∈ nodes) as Hc by (apply Hmem; rewrite Heq; set_solver).
      apply Hnodes, rtc_inv_r in Hc as [<-|(m & Hm & Hmc)]; [by left|right].
      exists m. split; [|done].
      eapply layered_parents_first; eauto. by apply Hall, Hnodes. }
    { intros n Hn. by apply Happ, Hnodes, Hmem. }
    { intros n Hn. by apply Hfeeds, Hnodes, Hmem. }
    { done. }
    { intros c [->|(m & Hm & _)]; [by rewrite lookup_singleton_eq|].
      by apply elem_of_nil in Hm. }
    pose proof (td_loop_safe h eval_functions root parent_result (concat (reverse L))
                  {[root := [parent_result]]} []) as Hsafe.
    rewrite Hloop in Hsafe. destruct Hsafe as [Hroot _]; [by rewrite lookup_singleton_eq|done|].
    exists results, calls. unfold eval_spn_top_down. rewrite Hlayers, decide_True.
    + cbn [mbind res_bind]. rewrite for_each_concat, Hloop. cbn [mbind res_bind].
      unfold getitem. by rewrite (Hroot Hnr).
    + apply Nat.le_antisymm; apply submseteq_length, NoDup_submseteq; done.
Qed.

Lemma td_call_ok_leaf {M} (h : store) (eval_functions : gmap pyclass (td_handler M))
    (c : td_call M) leaf_func :
  eval_functions !! cILeafNode = Some leaf_func →
  isinstance h (td_node c) cILeafNode = true →
  td_call_ok h eval_functions c →
  td_key c = cILeafNode ∧ td_result c = leaf_func (td_node c) (td_params c).
Proof.
  intros Hlf Hleaf (func & Hres & Hcall). unfold td_resolve in Hres.
  rewrite Hlf, Hleaf in Hres. by simplify_eq.
Qed.

(** ** Parametric leaves: the parameters handed to scipy *)

Lemma hypergeometric_unset_RecursionError depth node :
  Hypergeometric.N node = None ∨ Hypergeometric.M node = None ∨ Hypergeometric.n node = None →
  Hypergeometric.get_scipy_object_parameters depth node = Raise RecursionError.
Proof.
  intros Hunset. induction depth as [depth IH] using lt_wf_ind.
  destruct depth as [|depth]; [done|].
  assert (match depth with
          | 0 => Raise RecursionError
          | S depth =>
            parameters ← Hypergeometric.get_scipy_object_parameters depth node;
            Ok (ParametricLeaf_str "Hypergeometric" (Hypergeometric.scope node)
                  (prod_map id pretty <$> parameters))
          end = Raise RecursionError) as Hstr.
  { destruct depth as [|depth]; [done|]. by rewrite IH by lia. }
  cbn [Hypergeometric.get_scipy_object_parameters]. rewrite Hstr.
  destruct (Hypergeometric.N node); [|done].
  destruct (Hypergeometric.M node); [|done].
  destruct (Hypergeometric.n node); [|done].
  naive_solver.
Qed.

(** C8.  With the three parameters set, [get_scipy_object_parameters] returns
    the dict [{"M": N, "n": M, "N": n}].  With one of them unset it raises,
    but the exception is a [RecursionError], not an [InvalidParametersError]:
    the message of the latter formats the node, formatting the node asks for
    its parameters, and so on until the interpreter gives up. *)
Theorem hypergeometric_parameters_outcome depth node :
  Hypergeometric.get_scipy_object_parameters (S depth) node
  = match Hypergeometric.N node, Hypergeometric.M node, Hypergeometric.n node with
    | Some vN, Some vM, Some vn => Ok [("M"%string, vN); ("n"%string, vM); ("N"%string, vn)]
    | _, _, _ => Raise RecursionError
    end.
Proof.
  destruct (Hypergeometric.N node) as [vN|] eqn:HN;
    [destruct (Hypergeometric.M node) as [vM|] eqn:HM;
      [destruct (Hypergeometric.n node) as [vn|] eqn:Hn|]|];
    [|apply hypergeometric_unset_RecursionError; auto..].
  cbn [Hypergeometric.get_scipy_object_parameters]. by rewrite HN, HM, Hn.
Qed.

(** ** Comparison of nodes *)

(** C6.  [equals] answers [True] for two nodes of the same class and scope
    whose lists of children differ in length: [map] over the two lists stops
    with the shorter. *)
Theorem equals_ignores_surplus_children (np : numpy) depth :
  equals np (S depth) uneven_products 0 1 = Ok true
  ∧ length (children_of uneven_products 0) ≠ length (children_of uneven_products 1).
Proof. split; [reflexivity|by compute]. Qed.

(** ** Construction of nodes *)

Lemma sum_list_with_INode_len h cs : sum_list_with (INode_len h) cs = length cs.
Proof. induction cs as [|c cs IH]; simpl; [done|]. by rewrite IH. Qed.

Lemma exact_sum_pos (e : Q) (l : list pyfloat) :
  (0 < e)%Q → Forall (float_in e 2) l →
  ∃ t, np_sum exact_numpy l = Finite t ∧ (0 <= t)%Q ∧ (l ≠ [] → (0 < t)%Q).
Proof.
  intros He Hl. induction Hl as [|x l (q & -> & Hq & _) _ (t & Ht & Ht0 & _)].
  - exists 0%Q. split_and!; done.
  - exists (q + t)%Q. split_and!.
    + simpl in *. by rewrite Ht.
    + lra.
    + intros _. lra.
Qed.

Lemma float_lt_pos (q : Q) : (0 < q)%Q → float_lt (Finite 0) (Finite q) = true.
Proof.
  intros Hq. simpl. destruct (Qle_bool q 0) eqn:Hle; [|done].
  apply Qle_bool_iff in Hle. lra.
Qed.

Lemma exact_sum_scale (e t : Q) (l : list pyfloat) :
  Forall (float_in e 2) l →
  ∃ a b, np_sum exact_numpy l = Finite a
         ∧ np_sum exact_numpy ((λ x, np_divide exact_numpy x (Finite t)) <$> l) = Finite b
         ∧ (b == a / t)%Q.
Proof.
  intros Hl. induction Hl as [|x l (q & -> & _) _ (a & b & Ha & Hb & Hab)].
  - exists 0%Q, 0%Q. split_and!; [done|done|]. unfold Qdiv. ring.
  - exists (q + a)%Q, (q / t + b)%Q. split_and!.
    + change (float_lift Qplus (Finite q) (np_sum exact_numpy l) = Finite (q + a)).
      by rewrite Ha.
    + change (float_lift Qplus (Finite (q / t))
                (np_sum exact_numpy ((λ x, np_divide exact_numpy x (Finite t)) <$> l))
              = Finite (q / t + b)).
      by rewrite Hb.
    + rewrite Hab. unfold Qdiv. ring.
Qed.

(** C5, as the code has it.  [ISumNode.__init__] checks nothing: weights
    that are passed are stored as they are, whatever their number, their
    signs and their sum.  Omitted weights are generated: one draw for each
    child, each raised by [1e-08] and divided by the sum of the raised
    draws.  The vector generated has one entry for each child, its entries
    are above zero, and with a child or more its sum is within [1e-05] of 1,
    given of numpy that [np.random.rand(k)] draws [k] numbers of [0, 1], that
    a number of [0, 1] raised by [1e-08] lies between [1e-08] and 2, that the
    sum of numbers between [1e-08] and 2 is finite and above zero, that such
    a number divided by a finite number above zero is above zero, and that
    the sum of such numbers, each divided by their sum, is within [1e-05] of
    1. *)
Theorem ISumNode_init_weights (np : numpy) (h : store) (children : list nat)
    (scope : list Z) :
  (∀ k, length (np_random_rand np k) = k ∧ Forall (float_in 0 1) (np_random_rand np k)) →
  (∀ x, float_in 0 1 x → float_in eps_1e_08 2 (np_add np x float_1e_08)) →
  (∀ l, l ≠ [] → Forall (float_in eps_1e_08 2) l → float_pos (np_sum np l)) →
  (∀ x t, float_in eps_1e_08 2 x → float_pos t →
          float_lt (Finite 0) (np_divide np x t) = true) →
  (∀ l, l ≠ [] → Forall (float_in eps_1e_08 2) l →
        float_in (1 - (1 # 100000)) (1 + (1 # 100000))
                 (np_sum np ((λ x, np_divide np x (np_sum np l)) <$> l))) →
  (∀ w, ISumNode_init np h children scope (Some w)
        = Ok (h ++ [mkINode cISumNode children scope (Some w)], length h))
  ∧ ∃ w,
      ISumNode_init np h children scope None
      = Ok (h ++ [mkINode cISumNode children scope (Some w)], length h)
      ∧ (let raised := (λ x, np_add np x float_1e_08)
                         <$> np_random_rand np (length children) in
         w = (λ x, np_divide np x (np_sum np raised)) <$> raised)
      ∧ length w = length children
      ∧ Forall (λ x, float_lt (Finite 0) x = true) w
      ∧ (children ≠ [] →
         float_in (1 - (1 # 100000)) (1 + (1 # 100000)) (np_sum np w)).
Proof.
  intros Hrand Hadd Hsum Hdiv Hnorm. split; [done|].
  unfold ISumNode_init, alloc. rewrite sum_list_with_INode_len.
  set (raised := (λ x, np_add np x float_1e_08) <$> np_random_rand np (length children)).
  exists ((λ x, np_divide np x (np_sum np raised)) <$> raised).
  assert (Forall (float_in eps_1e_08 2) raised) as Hraised.
  { unfold raised. apply Forall_fmap.
    eapply Forall_impl; [apply (Hrand (length children))|]. intros x Hx. by apply Hadd. }
  assert (length raised = length children) as Hlen
    by (unfold raised; rewrite length_fmap; apply Hrand).
  split_and!; [done|done| | |].
  - by rewrite length_fmap.
  - destruct (decide (raised = [])) as [->|Hne]; [constructor|].
    apply Forall_fmap. eapply Forall_impl; [exact Hraised|].
    intros x Hx. simpl. apply Hdiv; [done|]. by apply Hsum.
  - intros Hchildren. apply Hnorm; [|done].
    intros Hnil. rewrite Hnil in Hlen. by destruct children.
Qed.

(** The invariant of the specification does not hold of every sum node: one
    negative weight for two children is stored as it is. *)
Lemma ISumNode_init_keeps_any_weights :
  ISumNode_init exact_numpy two_leaves [0; 1] [0%Z] (Some [Finite (- (1 # 2))])
  = Ok (two_leaves ++ [mkINode cISumNode [0; 1] [0%Z] (Some [Finite (- (1 # 2))])], 2)
  ∧ length [Finite (- (1 # 2))] ≠ length [0; 1]
  ∧ float_lt (Finite (- (1 # 2))) (Finite 0) = true
  ∧ np_sum exact_numpy [Finite (- (1 # 2))] = Finite (- (1 # 2)).
Proof. split_and!; [reflexivity|by compute|reflexivity|reflexivity]. Qed.

Lemma same_shape_length h h' : same_shape h h' → length h = length h'.
Proof. intros Hs. apply (f_equal length) in Hs. by rewrite !length_fmap in Hs. Qed.

Lemma same_shape_lookup h h' n :
  same_shape h h' → type_of h n = type_of h' n ∧ children_of h n = children_of h' n.
Proof.
  intros Hs. apply (f_equal (λ l, l !! n)) in Hs. rewrite !list_lookup_fmap in Hs.
  unfold type_of, children_of. rewrite !list_lookup_total_alt.
  destruct (h !! n), (h' !! n); simplify_eq/=; done.
Qed.

Lemma for_each_ext {A S} (f g : A → S → res S) l s :
  (∀ x s, f x s = g x s) → for_each f l s = for_each g l s.
Proof.
  intros Hfg. revert s. induction l as [|x l IH]; intros s; [done|].
  simpl. rewrite Hfg. destruct (g x s); simpl; auto.
Qed.

Section same_shape_facts.
Variables h h' : store.
Hypothesis Hshape : same_shape h h'.

Lemma isinstance_ext n c : isinstance h n c = isinstance h' n c.
Proof. unfold isinstance. by destruct (same_shape_lookup h h' n Hshape) as [-> _]. Qed.

Lemma children_of_ext n : children_of h n = children_of h' n.
Proof. by destruct (same_shape_lookup h h' n Hshape). Qed.

Lemma type_of_ext n : type_of h n = type_of h' n.
Proof. by destruct (same_shape_lookup h h' n Hshape). Qed.

Lemma bfs_loop_ext {A} (func func' : nat → A → A) fuel seen queue acc :
  (∀ n a, func n a = func' n a) →
  bfs_loop h func fuel seen queue acc = bfs_loop h' func' fuel seen queue acc.
Proof.
  intros Hf. revert seen queue acc.
  induction fuel as [|fuel IH]; intros seen queue acc; destruct queue as [|node queue]; try done.
  cbn [bfs_loop]. rewrite isinstance_ext, children_of_ext, Hf.
  destruct (if isinstance h' node cILeafNode then _ else _). apply IH.
Qed.

Lemma get_nodes_by_type_ext node ntype :
  get_nodes_by_type h node ntype = get_nodes_by_type h' node ntype.
Proof.
  unfold get_nodes_by_type, bfs. rewrite (same_shape_length h h' Hshape).
  apply bfs_loop_ext. intros n a. by rewrite isinstance_ext.
Qed.

Lemma record_node_ext n st : record_node h n st = record_node h' n st.
Proof. unfold record_node. destruct st. by rewrite isinstance_ext, children_of_ext. Qed.

Lemma get_topological_order_ext node :
  get_topological_order h node = get_topological_order h' node.
Proof.
  unfold get_topological_order. rewrite get_nodes_by_type_ext.
  destruct (get_nodes_by_type h' node cINode) as [nodes| |]; [|done..].
  cbn [mbind res_bind]. by rewrite (for_each_ext _ _ _ _ record_node_ext).
Qed.

Section scope_blind.
Context {V V' : Type}.
Variable eval_functions : gmap pyclass (bu_handler V).
Variable eval_functions' : gmap pyclass (bu_handler V').
Hypothesis Hdom : dom eval_functions = dom eval_functions'.

Lemma same_keys k : eval_functions !! k = None ↔ eval_functions' !! k = None.
Proof. by rewrite <- !not_elem_of_dom, Hdom. Qed.

Lemma bu_resolve_sim n :
  match bu_resolve h ((λ func, [func]) <$> eval_functions)
          (map_imap (λ node_type _, Some (issubclass node_type cILeafNode)) eval_functions)
          (eval_functions !! cILeafNode) n,
        bu_resolve h' ((λ func, [func]) <$> eval_functions')
          (map_imap (λ node_type _, Some (issubclass node_type cILeafNode)) eval_functions')
          (eval_functions' !! cILeafNode) n with
  | Ok (key, _, n_is_leaf), Ok (key', _, n_is_leaf') => key = key' ∧ n_is_leaf = n_is_leaf'
  | Raise e, Raise e' => e = e'
  | _, _ => False
  end.
Proof.
  unfold bu_resolve. rewrite !lookup_fmap, !map_lookup_imap, <- type_of_ext, <- isinstance_ext.
  pose proof (same_keys (type_of h n)) as Hk. pose proof (same_keys cILeafNode) as Hl.
  destruct (eval_functions !! type_of h n) as [f|], (eval_functions' !! type_of h n) as [f'|];
    simpl; [done|by destruct Hk as [_ Hk]; specialize (Hk eq_refl)
           |by destruct Hk as [Hk _]; specialize (Hk eq_refl)|].
  destruct (eval_functions !! cILeafNode) as [lf|], (eval_functions' !! cILeafNode) as [lf'|];
    [|by destruct Hl as [_ Hl]; specialize (Hl eq_refl)
     |by destruct Hl as [Hl _]; specialize (Hl eq_refl)|done].
  by destruct (isinstance h n cILeafNode).
Qed.

Lemma gather_sim (results : gmap nat V) (results' : gmap nat V') cs :
  dom results = dom results' →
  match gather results cs, gather results' cs with
  | Ok _, Ok _ => True
  | Raise e, Raise e' => e = e'
  | _, _ => False
  end.
Proof.
  intros Hres. induction cs as [|ci cs IH]; [done|]. cbn [gather]. unfold getitem.
  assert (results !! ci = None ↔ results' !! ci = None) as Hci
    by (by rewrite <- !not_elem_of_dom, Hres).
  destruct (results !! ci) as [v|], (results' !! ci) as [v'|]; cbn [mbind res_bind];
    [|by destruct Hci as [_ Hci]; specialize (Hci eq_refl)
     |by destruct Hci as [Hci _]; specialize (Hci eq_refl)|done].
  destruct (gather results cs), (gather results' cs); done.
Qed.

Lemma bu_visit_sim n (results : gmap nat V) (results' : gmap nat V') calls calls' :
  dom results = dom results' → same_calls calls calls' →
  match bu_visit h ((λ func, [func]) <$> eval_functions)
          (map_imap (λ node_type _, Some (issubclass node_type cILeafNode)) eval_functions)
          (eval_functions !! cILeafNode) n (results, calls),
        bu_visit h' ((λ func, [func]) <$> eval_functions')
          (map_imap (λ node_type _, Some (issubclass node_type cILeafNode)) eval_functions')
          (eval_functions' !! cILeafNode) n (results', calls') with
  | Ok (r, c), Ok (r', c') => dom r = dom r' ∧ same_calls c c'
  | Raise e, Raise e' => e = e'
  | _, _ => False
  end.
Proof.
  intros Hres [Hnodes Hkeys]. unfold bu_visit. pose proof (bu_resolve_sim n) as Hr.
  destruct (bu_resolve h _ _ _ n) as [[[key func] leaf]|e|],
           (bu_resolve h' _ _ _ n) as [[[key' func'] leaf']|e'|]; try done.
  destruct Hr as [<- <-]. cbn [mbind res_bind].
  assert (∀ (args : option (list V)) (args' : option (list V')),
    dom (<[n := func n args]> results) = dom (<[n := func' n args']> results')
    ∧ same_calls (calls ++ [mk_bu_call key n args (func n args)])
                 (calls' ++ [mk_bu_call key n args' (func' n args')])) as Hstep.
  { intros args args'. split; [by rewrite !dom_insert_L, Hres|].
    unfold same_calls. by rewrite !fmap_app, Hnodes, Hkeys. }
  destruct leaf; cbn [mbind res_bind]; [apply Hstep|].
  rewrite <- children_of_ext. pose proof (gather_sim results results' (children_of h n) Hres) as Hg.
  destruct (gather results (children_of h n)), (gather results' (children_of h n));
    cbn [mbind res_bind]; first [done|apply Hstep].
Qed.

Lemma bu_loop_sim nodes :
  ∀ (results : gmap nat V) (results' : gmap nat V') calls calls',
  dom results = dom results' → same_calls calls calls' →
  match for_each (bu_visit h ((λ func, [func]) <$> eval_functions)
          (map_imap (λ node_type _, Some (issubclass node_type cILeafNode)) eval_functions)
          (eval_functions !! cILeafNode)) nodes (results, calls),
        for_each (bu_visit h' ((λ func, [func]) <$> eval_functions')
          (map_imap (λ node_type _, Some (issubclass node_type cILeafNode)) eval_functions')
          (eval_functions' !! cILeafNode)) nodes (results', calls') with
  | Ok (r, c), Ok (r', c') => dom r = dom r' ∧ same_calls c c'
  | Raise e, Raise e' => e = e'
  | _, _ => False
  end.
Proof.
  induction nodes as [|n nodes IH]; intros results results' calls calls' Hres Hcalls; [done|].
  cbn [for_each]. pose proof (bu_visit_sim n results results' calls calls' Hres Hcalls) as Hv.
  destruct (bu_visit h _ _ _ n (results, calls)) as [[r c]|e|],
           (bu_visit h' _ _ _ n (results', calls')) as [[r' c']|e'|]; try done.
  destruct Hv as [Hres' Hcalls']. cbn [mbind res_bind]. by apply IH.
Qed.

Lemma eval_spn_bottom_up_sim (node : nat) :
  match eval_spn_bottom_up h node eval_functions,
        eval_spn_bottom_up h' node eval_functions' with
  | Ok (_, _, calls), Ok (_, _, calls') => same_calls calls calls'
  | Raise e, Raise e' => e = e'
  | Diverge, Diverge => True
  | _, _ => False
  end.
Proof.
  unfold eval_spn_bottom_up. rewrite <- get_topological_order_ext.
  destruct (get_topological_order h node) as [nodes|e|]; [|done..].
  cbn [mbind res_bind].
  assert (dom (∅ : gmap nat V) = dom (∅ : gmap nat V')) as Hempty by (by rewrite !dom_empty_L).
  pose proof (bu_loop_sim nodes ∅ ∅ [] [] Hempty (conj eq_refl eq_refl)) as Hloop.
  destruct (for_each _ nodes (∅, [])) as [[r c]|e|],
           (for_each _ nodes (∅, [])) as [[r' c']|e'|]; try done.
  destruct Hloop as [Hres Hcalls]. cbn [mbind res_bind]. unfold getitem.
  assert (r !! node = None ↔ r' !! node = None) as Hnode
    by (by rewrite <- !not_elem_of_dom, Hres).
  destruct (r !! node) as [v|], (r' !! node) as [v'|]; cbn [mbind res_bind];
    [done|by destruct Hnode as [_ Hn]; specialize (Hn eq_refl)
     |by destruct Hnode as [Hn _]; specialize (Hn eq_refl)|done].
Qed.

End scope_blind.

End same_shape_facts.


(** ** The likelihood of a Gaussian leaf *)

Lemma axis_index_lt D s col : axis_index D s = Ok col → col < D.
Proof.
  unfold axis_index. destruct (decide (0 ≤ s < Z.of_nat D)%Z); [intros [= <-]; lia|].
  destruct (decide (- Z.of_nat D ≤ s < 0)%Z); [intros [= <-]; lia|done].
Qed.

Section gaussian_facts.
Context {F : Type}.
Variable isnan : F → bool.
Variable float_repr : F → string.

Lemma gaussian_parameters_set depth (node : Gaussian.t F) vmean vstdev :
  Gaussian.mean node = Some vmean → Gaussian.stdev node = Some vstdev →
  Gaussian.get_scipy_object_parameters float_repr (S depth) node
  = Ok [("loc"%string, vmean); ("scale"%string, vstdev)].
Proof. intros Hm Hs. cbn [Gaussian.get_scipy_object_parameters]. by rewrite Hm, Hs. Qed.

Lemma take_column_rows (ks : list nat) (rws : list (list F)) col :
  ks = [col] →
  ∀ xs out, Forall2 (λ row x, row !! col = Some x) rws xs →
  for_each (λ (row : list F) out,
              match mapM (λ k, row !! k) ks with
              | Some r => Ok (out ++ [r])
              | None => Raise IndexError
              end) rws out
  = Ok (out ++ map (λ x, [x]) xs).
Proof.
  intros ->. induction rws as [|row rws IH]; intros xs out Hall.
  - apply Forall2_nil_inv_l in Hall as ->. simpl. by rewrite app_nil_r.
  - apply Forall2_cons_inv_l in Hall as (x & xs' & Hx & Hall & ->).
    cbn [for_each mapM]. rewrite Hx. cbn. rewrite (IH xs' _ Hall).
    by rewrite <- app_assoc.
Qed.

Lemma take_columns_single (data : Gaussian.ndarray F) s col xs :
  axis_index (Gaussian.ncols data) s = Ok col →
  Forall2 (λ row x, row !! col = Some x) (Gaussian.rows data) xs →
  Gaussian.take_columns data [s] = Ok (map (λ x, [x]) xs).
Proof.
  intros Hcol Hall. unfold Gaussian.take_columns. cbn [for_each]. rewrite Hcol.
  cbn [mbind res_bind app]. by rewrite (take_column_rows [col] _ col eq_refl xs []).
Qed.

Lemma column_exists (rws : list (list F)) D col :
  Forall (λ row, length row = D) rws → col < D →
  ∃ xs, Forall2 (λ row x, row !! col = Some x) rws xs.
Proof.
  intros Hall Hcol. induction Hall as [|row rws Hrow _ [xs IH]]; [by exists []|].
  destruct (lookup_lt_is_Some_2 row col) as [x Hx]; [lia|].
  exists (x :: xs). by constructor.
Qed.

(** The masked assignment of [node_likelihood], on a column. *)
Lemma assign_rows_column (c : F) (f : F → F) (xs : list F) rest :
  Gaussian.assign_rows
    (map (map negb) (map (map isnan) (map (λ x, [x]) xs)))
    (replicate (length xs) [c])
    (map f (Gaussian.select (map (map negb) (map (map isnan) (map (λ x, [x]) xs)))
                            (map (λ x, [x]) xs)) ++ rest)
  = Ok (map (λ x, [if isnan x then c else f x]) xs, rest).
Proof.
  induction xs as [|x xs IH]; [done|].
  cbn [map length replicate Gaussian.assign_rows Gaussian.select zip_with concat].
  fold (Gaussian.select (map (map negb) (map (map isnan) (map (λ x, [x]) xs)))
                        (map (λ x, [x]) xs)).
  destruct (isnan x); cbn [negb Gaussian.select_row app map Gaussian.assign_row mbind res_bind].
  - rewrite IH. done.
  - rewrite IH. done.
Qed.

Lemma assign_column (c : F) (f : F → F) (xs : list F) :
  Gaussian.assign
    (map (map negb) (map (map isnan) (map (λ x, [x]) xs)))
    (replicate (length xs) [c])
    (map f (Gaussian.select (map (map negb) (map (map isnan) (map (λ x, [x]) xs)))
                            (map (λ x, [x]) xs)))
  = Ok (map (λ x, [if isnan x then c else f x]) xs).
Proof.
  unfold Gaussian.assign.
  rewrite <- (app_nil_r (map f _)), assign_rows_column. done.
Qed.

Lemma Forall2_column (g : F → list F) (rws : list (list F)) col xs :
  Forall2 (λ row x, row !! col = Some x) rws xs →
  Forall2 (λ row out, ∃ x, row !! col = Some x ∧ out = g x) rws (map g xs).
Proof. induction 1; simpl; constructor; eauto. Qed.

(** C3.  For a Gaussian leaf with its scope of one variable and its
    parameters set, and a matrix of data in which the column of that variable
    exists: [node_likelihood] and [node_log_likelihood] return, without error,
    one row for each row of the data; the row holds [1.0], respectively
    [0.0], where the entry of the data in the column is NaN, and the density,
    respectively the log-density, scipy gives for that entry otherwise. *)
Theorem gaussian_nan_rows_marginalized (one zero : F) (pdf logpdf : F → list (string * F) → F)
    (depth : nat) (node : Gaussian.t F) (data : Gaussian.ndarray F)
    (s : Z) (vmean vstdev : F) (col : nat) :
  Gaussian.scope node = [s] →
  Gaussian.mean node = Some vmean →
  Gaussian.stdev node = Some vstdev →
  Forall (λ row, length row = Gaussian.ncols data) (Gaussian.rows data) →
  axis_index (Gaussian.ncols data) s = Ok col →
  let kwargs := [("loc"%string, vmean); ("scale"%string, vstdev)] in
  ∃ probs logs,
    Gaussian.node_likelihood isnan one float_repr pdf (S depth) node data = Ok probs
    ∧ Gaussian.node_log_likelihood isnan zero float_repr logpdf (S depth) node data = Ok logs
    ∧ Forall2 (λ row out, ∃ x, row !! col = Some x
                 ∧ out = [if isnan x then one else pdf x kwargs])
              (Gaussian.rows data) probs
    ∧ Forall2 (λ row out, ∃ x, row !! col = Some x
                 ∧ out = [if isnan x then zero else logpdf x kwargs])
              (Gaussian.rows data) logs.
Proof.
  intros Hscope Hmean Hstdev Hrows Hcol kwargs.
  destruct (column_exists (Gaussian.rows data) _ col Hrows (axis_index_lt _ _ _ Hcol))
    as [xs Hxs].
  assert (length (Gaussian.rows data) = length xs) as Hlen by (by eapply Forall2_length).
  exists (map (λ x, [if isnan x then one else pdf x kwargs]) xs),
         (map (λ x, [if isnan x then zero else logpdf x kwargs]) xs).
  split_and!.
  - unfold Gaussian.node_likelihood.
    rewrite Hscope, (take_columns_single data s col xs Hcol Hxs). cbn [mbind res_bind].
    rewrite (gaussian_parameters_set depth node vmean vstdev Hmean Hstdev).
    cbn [mbind res_bind]. rewrite Hlen. apply assign_column.
  - unfold Gaussian.node_log_likelihood.
    rewrite Hscope, (take_columns_single data s col xs Hcol Hxs). cbn [mbind res_bind].
    rewrite (gaussian_parameters_set depth node vmean vstdev Hmean Hstdev).
    cbn [mbind res_bind]. rewrite Hlen. apply assign_column.
  - by apply Forall2_column.
  - by apply Forall2_column.
Qed.

End gaussian_facts.

(** ** Examples *)

Lemma increasing_edge h m c : increasing h → edge h m c → m < c.
Proof.
  intros Hinc Hmc. unfold edge, succs in Hmc.
  destruct (isinstance h m cILeafNode); [by apply elem_of_nil in Hmc|].
  unfold children_of in Hmc. rewrite list_lookup_total_alt in Hmc.
  destruct (h !! m) as [nd|] eqn:Hnd; [|by apply elem_of_nil in Hmc].
  unfold increasing in Hinc. rewrite Forall_forall in Hinc.
  specialize (Hinc (m, nd)). rewrite Forall_forall in Hinc. apply Hinc; [|done].
  apply list_elem_of_lookup. exists m. apply lookup_zip_with_Some. exists m, nd.
  split_and!; [done| |done]. apply lookup_seq. split; [done|by eapply lookup_lt_Some].
Qed.

Lemma increasing_acyclic h root : increasing h → acyclic h root.
Proof.
  intros Hinc n _ Hcyc.
  assert (∀ a b, tc (edge h) a b → a < b) as Hlt.
  { induction 1 as [a b Hab|a b c Hab _ IH].
    - by eapply increasing_edge.
    - pose proof (increasing_edge h a b Hinc Hab). lia. }
  specialize (Hlt n n Hcyc). lia.
Qed.

Lemma wf_store_diamond : wf_store diamond 0.
Proof. by apply (bool_decide_unpack _). Qed.

Lemma acyclic_diamond : acyclic diamond 0.
Proof. apply increasing_acyclic. by apply (bool_decide_unpack _). Qed.

Lemma get_topological_order_correct_witness :
  wf_store diamond 0 ∧ acyclic diamond 0
  ∧ (∃ L, get_topological_order diamond 0 = Ok L
        ∧ NoDup L
        ∧ (∀ n, n ∈ L ↔ reachable diamond 0 n)
        ∧ (∀ i m c, L !! i = Some m → c ∈ succs diamond m → ∃ j, j < i ∧ L !! j = Some c))
  ∧ wf_store two_cycle 0
  ∧ (∃ n, reachable two_cycle 0 n ∧ tc (edge two_cycle) n n)
  ∧ get_topological_order two_cycle 0
    = Raise (AssertionError "Graph is not DAG, it has at least one cycle").
Proof.
  assert (wf_store diamond 0) as Hwf by (by apply (bool_decide_unpack _)).
  assert (acyclic diamond 0) as Hacyc
    by (apply increasing_acyclic; by apply (bool_decide_unpack _)).
  assert (wf_store two_cycle 0) as Hwf2 by (by apply (bool_decide_unpack _)).
  assert (∃ n, reachable two_cycle 0 n ∧ tc (edge two_cycle) n n) as Hcyc.
  { exists 0. split; [apply rtc_refl|].
    apply (tc_l _ 0 1 0); [|apply tc_once]; unfold edge; cbn; set_solver. }
  refine (conj Hwf (conj Hacyc (conj _ (conj Hwf2 (conj Hcyc _))))).
  - exact (proj1 (get_topological_order_correct diamond 0 Hwf) Hacyc).
  - exact (proj2 (get_topological_order_correct two_cycle 0 Hwf2) Hcyc).
Defined.


Lemma eval_spn_bottom_up_correct_witness :
  wf_store diamond 0 ∧ acyclic diamond 0
  ∧ ∃ order,
      get_topological_order diamond 0 = Ok order
      ∧ NoDup order
      ∧ (∀ n, n ∈ order ↔ reachable diamond 0 n)
      ∧ ((∀ n, reachable diamond 0 n → bu_applicable diamond count_leaves n) →
         ∃ v results calls,
           eval_spn_bottom_up diamond 0 count_leaves = Ok (v, results, calls)
           ∧ bu_node <$> calls = order
           ∧ Forall (bu_call_ok diamond count_leaves results) calls
           ∧ results !! 0 = Some v)
      ∧ (∀ n, reachable diamond 0 n →
           isinstance diamond n cILeafNode = false → count_leaves !! type_of diamond n = None →
           ∃ msg, eval_spn_bottom_up diamond 0 count_leaves = Raise (AssertionError msg)).
Proof.
  refine (conj wf_store_diamond (conj acyclic_diamond _)).
  exact (eval_spn_bottom_up_correct diamond 0 count_leaves wf_store_diamond acyclic_diamond).
Defined.

Lemma broadcast_never_root : td_never_root broadcast 0.
Proof.
  intros key func n params items Hf Hitems. unfold broadcast in Hf.
  apply lookup_insert_Some in Hf as [[_ <-]|[_ Hf]].
  - injection Hitems as <-. rewrite <- list_fmap_compose.
    destruct n as [|[|[|[|n]]]]; vm_compute; intros Hin;
      repeat (apply elem_of_cons in Hin as [Hin|Hin]; [done|]); by apply elem_of_nil in Hin.
  - apply lookup_insert_Some in Hf as [[_ <-]|[_ Hf]].
    + injection Hitems as <-. apply not_elem_of_nil.
    + apply lookup_singleton_Some in Hf as [_ <-]. done.
Qed.

Lemma eval_spn_top_down_returns_seed_witness :
  wf_store diamond 0 ∧ td_never_root broadcast 0
  ∧ (∀ v results calls,
       eval_spn_top_down diamond 0 broadcast 1 = Ok (v, results, calls) → v = [1])
  ∧ eval_spn_top_down diamond 0 broadcast 1 ≠ Diverge
  ∧ (acyclic diamond 0 →
     (∀ n, reachable diamond 0 n → td_applicable diamond broadcast n) →
     (∀ n, reachable diamond 0 n → isinstance diamond n cILeafNode = false →
           td_feeds diamond broadcast n) →
     ∃ results calls, eval_spn_top_down diamond 0 broadcast 1 = Ok ([1], results, calls)).
Proof.
  refine (conj wf_store_diamond (conj broadcast_never_root _)).
  exact (eval_spn_top_down_returns_seed diamond 0 broadcast 1
           wf_store_diamond broadcast_never_root).
Defined.

Lemma ISumNode_init_weights_witness :
  (∀ k, length (np_random_rand exact_numpy k) = k
        ∧ Forall (float_in 0 1) (np_random_rand exact_numpy k))
  ∧ (∀ x, float_in 0 1 x → float_in eps_1e_08 2 (np_add exact_numpy x float_1e_08))
  ∧ (∀ l, l ≠ [] → Forall (float_in eps_1e_08 2) l → float_pos (np_sum exact_numpy l))
  ∧ (∀ x t, float_in eps_1e_08 2 x → float_pos t →
            float_lt (Finite 0) (np_divide exact_numpy x t) = true)
  ∧ (∀ l, l ≠ [] → Forall (float_in eps_1e_08 2) l →
          float_in (1 - (1 # 100000)) (1 + (1 # 100000))
                   (np_sum exact_numpy
                      ((λ x, np_divide exact_numpy x (np_sum exact_numpy l)) <$> l)))
  ∧ (∀ w, ISumNode_init exact_numpy two_leaves [0; 1] [0%Z] (Some w)
          = Ok (two_leaves ++ [mkINode cISumNode [0; 1] [0%Z] (Some w)], length two_leaves))
  ∧ ∃ w,
      ISumNode_init exact_numpy two_leaves [0; 1] [0%Z] None
      = Ok (two_leaves ++ [mkINode cISumNode [0; 1] [0%Z] (Some w)], length two_leaves)
      ∧ (let raised := (λ x, np_add exact_numpy x float_1e_08)
                         <$> np_random_rand exact_numpy (length [0; 1]) in
         w = (λ x, np_divide exact_numpy x (np_sum exact_numpy raised)) <$> raised)
      ∧ length w = length [0; 1]
      ∧ Forall (λ x, float_lt (Finite 0) x = true) w
      ∧ ([0; 1] ≠ [] →
         float_in (1 - (1 # 100000)) (1 + (1 # 100000)) (np_sum exact_numpy w)).
Proof.
  assert (0 < eps_1e_08)%Q as Heps by done.
  assert (eps_1e_08 <= 1)%Q as Heps1 by (by compute).
  assert (∀ k, length (np_random_rand exact_numpy k) = k
               ∧ Forall (float_in 0 1) (np_random_rand exact_numpy k)) as Hrand.
  { intros k. simpl. split; [by rewrite length_replicate|].
    apply Forall_replicate. exists (1 # 2)%Q. split_and!; [done|by compute|by compute]. }
  assert (∀ x, float_in 0 1 x → float_in eps_1e_08 2 (np_add exact_numpy x float_1e_08))
    as Hadd.
  { intros x (q & -> & Hlo & Hhi). exists (q + eps_1e_08)%Q. split_and!; [done|lra|lra]. }
  assert (∀ l, l ≠ [] → Forall (float_in eps_1e_08 2) l → float_pos (np_sum exact_numpy l))
    as Hsum.
  { intros l Hne Hl. destruct (exact_sum_pos eps_1e_08 l Heps Hl) as (t & Ht & _ & Hpos).
    exists t. split; [done|by apply Hpos]. }
  assert (∀ x t, float_in eps_1e_08 2 x → float_pos t →
                 float_lt (Finite 0) (np_divide exact_numpy x t) = true) as Hdiv.
  { intros x t (q & -> & Hlo & _) (r & -> & Hr). cbn [np_divide exact_numpy float_lift].
    apply float_lt_pos. apply Qlt_shift_div_l; [done|]. lra. }
  assert (∀ l, l ≠ [] → Forall (float_in eps_1e_08 2) l →
            float_in (1 - (1 # 100000)) (1 + (1 # 100000))
                     (np_sum exact_numpy
                        ((λ x, np_divide exact_numpy x (np_sum exact_numpy l)) <$> l)))
    as Hnorm.
  { intros l Hne Hl. destruct (exact_sum_pos eps_1e_08 l Heps Hl) as (t & Ht & _ & Hpos).
    specialize (Hpos Hne).
    destruct (exact_sum_scale eps_1e_08 t l Hl) as (a & b & Ha & Hb & Hab).
    rewrite Ht in Ha |- *. injection Ha as <-. exists b. split; [done|].
    assert (b == 1)%Q as Hb1 by (rewrite Hab; field; lra).
    rewrite Hb1. split; by compute. }
  refine (conj Hrand (conj Hadd (conj Hsum (conj Hdiv (conj Hnorm _))))).
  exact (ISumNode_init_weights exact_numpy two_leaves [0; 1] [0%Z]
           Hrand Hadd Hsum Hdiv Hnorm).
Defined.



Lemma gaussian_nan_rows_marginalized_witness :
  Gaussian.scope standard_normal = [0%Z]
  ∧ Gaussian.mean standard_normal = Some (Some 0)
  ∧ Gaussian.stdev standard_normal = Some (Some 1)
  ∧ Forall (λ row, length row = Gaussian.ncols nan_column) (Gaussian.rows nan_column)
  ∧ axis_index (Gaussian.ncols nan_column) 0 = Ok 0
  ∧ ∃ probs logs,
      Gaussian.node_likelihood is_None (Some 1) (λ _, ""%string) shifted 3
        standard_normal nan_column = Ok probs
      ∧ Gaussian.node_log_likelihood is_None (Some 0) (λ _, ""%string) shifted 3
          standard_normal nan_column = Ok logs
      ∧ Forall2 (λ row out, ∃ x, row !! 0 = Some x
                   ∧ out = [if is_None x then Some 1
                            else shifted x [("loc"%string, Some 0); ("scale"%string, Some 1)]])
                (Gaussian.rows nan_column) probs
      ∧ Forall2 (λ row out, ∃ x, row !! 0 = Some x
                   ∧ out = [if is_None x then Some 0
                            else shifted x [("loc"%string, Some 0); ("scale"%string, Some 1)]])
                (Gaussian.rows nan_column) logs.
Proof.
  assert (Forall (λ row, length row = Gaussian.ncols nan_column) (Gaussian.rows nan_column))
    as Hrows by (by repeat constructor).
  refine (conj eq_refl (conj eq_refl (conj eq_refl (conj Hrows (conj eq_refl _))))).
  exact (gaussian_nan_rows_marginalized is_None (λ _, ""%string) (Some 1) (Some 0)
           shifted shifted 2 standard_normal nan_column 0%Z (Some 0) (Some 1) 0
           eq_refl eq_refl eq_refl Hrows eq_refl).
Defined.

(** * Further properties

    What the code shows beyond the statements of the specification. *)

(** ** Breadth-first traversal *)

Lemma bfs_loop_simulation {A B} (h : store) (f : nat → A → A) (g : nat → B → B)
    (R : A → B → Prop) fuel :
  (∀ n a b, R a b → R (f n a) (g n b)) →
  ∀ seen queue a b, R a b →
  match bfs_loop h f fuel seen queue a, bfs_loop h g fuel seen queue b with
  | Ok a', Ok b' => R a' b'
  | Diverge, Diverge => True
  | _, _ => False
  end.
Proof.
  intros Hstep. induction fuel as [|fuel IH]; intros seen queue a b HR;
    destruct queue as [|node queue]; try done.
  cbn [bfs_loop].
  destruct (if isinstance h node cILeafNode then _ else _) as [seen' queue'].
  apply IH. by apply Hstep.
Qed.

Lemma bfs_loop_parents (h : store) (root : nat) fuel :
  ∀ done seen queue order,
  (∀ i x, (done ++ queue) !! i = Some x →
     x = root ∨ ∃ j m, j < i ∧ (done ++ queue) !! j = Some m ∧ edge h m x) →
  bfs_loop h (λ n visited, visited ++ [n]) fuel seen queue done = Ok order →
  ∀ i x, order !! i = Some x →
    x = root ∨ ∃ j m, j < i ∧ order !! j = Some m ∧ edge h m x.
Proof.
  induction fuel as [|fuel IH]; intros done seen queue order Hinv Hrun;
    destruct queue as [|node queue]; cbn [bfs_loop] in Hrun; try discriminate.
  - injection Hrun as <-. by rewrite app_nil_r in Hinv.
  - injection Hrun as <-. by rewrite app_nil_r in Hinv.
  -
    destruct (bfs_enqueue_spec (succs h node) seen queue) as (new & Heq & _ & Hnew & _).
    assert ((if isinstance h node cILeafNode then (seen, queue)
             else bfs_enqueue (children_of h node) (seen, queue))
            = (list_to_set new ∪ seen, queue ++ new)) as Hstep.
    { rewrite <- Heq. unfold succs. by destruct (isinstance h node cILeafNode). }
    rewrite Hstep in Hrun. refine (IH _ _ _ _ _ Hrun). clear IH Hrun.
    replace ((done ++ [node]) ++ queue ++ new) with ((done ++ node :: queue) ++ new)
      by (by rewrite <- !app_assoc).
    intros i x Hi. apply lookup_app_Some in Hi as [Hi|[Hge Hi]].
    + destruct (Hinv i x Hi) as [->|(j & m & Hj & Hm & Hmx)]; [by left|right].
      exists j, m. split_and!; [done| |done]. by apply lookup_app_l_Some.
    + right. exists (length done), node. split_and!.
      * rewrite length_app in Hge. simpl in Hge. lia.
      * apply lookup_app_l_Some. by rewrite list_lookup_middle.
      * apply Hnew. by eapply list_elem_of_lookup_2.
Qed.

(** X1.  On a closed store, [bfs] calls [func] once on every node reachable
    from the root and on no other node, in an order that does not depend on
    [func]: the root comes first, and every other node comes after a node of
    which it is a child. *)
Theorem bfs_visits_reachable_once (h : store) (root : nat) :
  wf_store h root →
  ∃ order,
    bfs_order h root = Ok order
    ∧ (∀ A (func : nat → A → A) (acc : A),
         bfs h root func acc = Ok (foldl (λ a n, func n a) acc order))
    ∧ NoDup order
    ∧ (∀ n, n ∈ order ↔ reachable h root n)
    ∧ head order = Some root
    ∧ (∀ i c, order !! i = Some c → c ≠ root →
         ∃ j m, j < i ∧ order !! j = Some m ∧ edge h m c).
Proof.
  intros Hwf.
  assert (bfs_inv h root [] {[root]} [root]) as Hinv.
  { split_and!.
    - simpl. apply NoDup_singleton.
    - intros x. simpl. by rewrite elem_of_singleton, list_elem_of_singleton.
    - intros x ->%elem_of_singleton. split; [apply Hwf|apply rtc_refl].
    - intros n c Hn. by apply elem_of_nil in Hn. }
  destruct (bfs_loop_spec h (λ n visited, visited ++ [n]) root (length h) Hwf
              [] {[root]} [root] [] Hinv) as (order & Hrun & Hnd & Hpre & Hreach & Hcl);
    [simpl; lia|].
  assert (∀ acc, foldl (λ a n, a ++ [n]) acc order = acc ++ order) as Hfold.
  { clear. induction order as [|v vs IH]; intros acc; simpl; [by rewrite app_nil_r|].
    by rewrite IH, <- app_assoc. }
  rewrite Hfold in Hrun. simpl in Hrun, Hnd, Hreach, Hcl.
  exists order. split_and!; try done.
  - intros A func acc.
    pose proof (bfs_loop_simulation h func (λ n visited, visited ++ [n])
                  (λ a l, a = foldl (λ a n, func n a) acc l) (length h)) as Hsim.
    specialize (Hsim ltac:(intros n a b ->; by rewrite foldl_app) {[root]} [root] acc []
                  eq_refl).
    unfold bfs. rewrite Hrun in Hsim.
    destruct (bfs_loop h func (length h) {[root]} [root] acc); [by subst|done..].
  - intros n. split; [apply Hreach|]. revert n. apply rtc_ind_r.
    + destruct Hpre as [rest ->]. by left.
    + intros y z _ Hyz IH. by eapply Hcl.
  - by destruct Hpre as [rest ->].
  - intros i c Hi Hc.
    destruct (bfs_loop_parents h root (length h) [] {[root]} [root] order) with (i := i) (x := c)
      as [->|?]; try done.
    intros k x Hk. left. apply list_lookup_singleton_Some in Hk as [_ <-]. done.
Qed.

(** X2.  On a closed store, [get_nodes_by_type] returns, without
    repetition, exactly the nodes reachable from the root that are instances
    of [ntype], in the order in which [bfs] visits them. *)
Theorem get_nodes_by_type_correct (h : store) (root : nat) (ntype : pyclass) :
  wf_store h root →
  ∃ order nodes,
    bfs_order h root = Ok order
    ∧ get_nodes_by_type h root ntype = Ok nodes
    ∧ nodes = filter (λ n, isinstance h n ntype = true) order
    ∧ NoDup nodes
    ∧ (∀ n, n ∈ nodes ↔ reachable h root n ∧ isinstance h n ntype = true).
Proof.
  intros Hwf.
  assert (bfs_inv h root [] {[root]} [root]) as Hinv.
  { split_and!.
    - simpl. apply NoDup_singleton.
    - intros x. simpl. by rewrite elem_of_singleton, list_elem_of_singleton.
    - intros x ->%elem_of_singleton. split; [apply Hwf|apply rtc_refl].
    - intros n c Hn. by apply elem_of_nil in Hn. }
  destruct (bfs_loop_spec h (λ n visited, visited ++ [n]) root (length h) Hwf
              [] {[root]} [root] [] Hinv) as (order & Hrun & Hnd & Hpre & Hreach & Hcl);
    [simpl; lia|].
  assert (∀ acc, foldl (λ a n, a ++ [n]) acc order = acc ++ order) as Hfold.
  { clear. induction order as [|v vs IH]; intros acc; simpl; [by rewrite app_nil_r|].
    by rewrite IH, <- app_assoc. }
  rewrite Hfold in Hrun. simpl in Hrun, Hnd, Hreach, Hcl.
  assert (∀ n, n ∈ order ↔ reachable h root n) as Hmem.
  { intros n. split; [apply Hreach|]. revert n. apply rtc_ind_r.
    - destruct Hpre as [rest ->]. by left.
    - intros y z _ Hyz IH. by eapply Hcl. }
  exists order, (filter (λ n, isinstance h n ntype = true) order). split_and!; try done.
  - pose proof (bfs_loop_simulation h
                  (λ n result, if isinstance h n ntype then result ++ [n] else result)
                  (λ n visited, visited ++ [n])
                  (λ a l, a = filter (λ n, isinstance h n ntype = true) l) (length h)) as Hsim.
    specialize (Hsim ltac:(intros n a b ->; rewrite filter_app, filter_cons;
                           destruct (isinstance h n ntype);
                           [by rewrite decide_True|by rewrite decide_False, app_nil_r])
                  {[root]} [root] [] [] eq_refl).
    unfold get_nodes_by_type, bfs. rewrite Hrun in Hsim.
    by case_match; [subst|..].
  - by apply NoDup_filter.
  - intros n. rewrite list_elem_of_filter, Hmem. naive_solver.
Qed.

Lemma bfs_visits_reachable_once_witness :
  wf_store diamond 0
  ∧ ∃ order,
      bfs_order diamond 0 = Ok order
      ∧ (∀ A (func : nat → A → A) (acc : A),
           bfs diamond 0 func acc = Ok (foldl (λ a n, func n a) acc order))
      ∧ NoDup order
      ∧ (∀ n, n ∈ order ↔ reachable diamond 0 n)
      ∧ head order = Some 0
      ∧ (∀ i c, order !! i = Some c → c ≠ 0 →
           ∃ j m, j < i ∧ order !! j = Some m ∧ edge diamond m c).
Proof.
  refine (conj wf_store_diamond _).
  exact (bfs_visits_reachable_once diamond 0 wf_store_diamond).
Defined.

Lemma get_nodes_by_type_correct_witness :
  wf_store diamond 0
  ∧ ∃ order nodes,
      bfs_order diamond 0 = Ok order
      ∧ get_nodes_by_type diamond 0 cIProductNode = Ok nodes
      ∧ nodes = filter (λ n, isinstance diamond n cIProductNode = true) order
      ∧ NoDup nodes
      ∧ (∀ n, n ∈ nodes ↔ reachable diamond 0 n ∧ isinstance diamond n cIProductNode = true).
Proof.
  refine (conj wf_store_diamond _).
  exact (get_nodes_by_type_correct diamond 0 cIProductNode wf_store_diamond).
Defined.

(** ** Topological orders *)

Lemma reachable_parent (h : store) (root x : nat) :
  reachable h root x → x ≠ root → ∃ p, reachable h root p ∧ edge h p x.
Proof.
  intros Hx Hne. apply rtc_inv_r in Hx as [->|(p & Hp & Hpx)]; [done|]. by exists p.
Qed.

Lemma topological_order_root_last (h : store) (root : nat) (L : list nat) :
  NoDup L → (∀ n, n ∈ L ↔ reachable h root n) →
  (∀ i m c, L !! i = Some m → c ∈ succs h m → ∃ j, j < i ∧ L !! j = Some c) →
  last L = Some root.
Proof.
  intros Hnd Hmem Hord. destruct (last L) as [x|] eqn:Hlast.
  - destruct (decide (x = root)) as [->|Hne]; [done|exfalso].
    rewrite last_lookup in Hlast.
    assert (reachable h root x) as Hx by (by eapply Hmem, list_elem_of_lookup_2).
    destruct (reachable_parent h root x Hx Hne) as (p & Hp & Hpx).
    apply Hmem, list_elem_of_lookup in Hp as [i Hi].
    destruct (Hord i p x Hi Hpx) as (j & Hj & Hjx).
    pose proof (NoDup_lookup L _ _ x Hnd Hjx Hlast) as ->.
    apply lookup_lt_Some in Hi. lia.
  - apply last_None in Hlast. subst L.
    assert (root ∈ @nil nat) as Hin by (apply Hmem, rtc_refl). by apply elem_of_nil in Hin.
Qed.

(** X3.  On a closed store without cycles, the list [get_topological_order]
    returns begins with a node that has no children to follow and ends with
    the root. *)
Theorem get_topological_order_ends_with_root (h : store) (root : nat) :
  wf_store h root → acyclic h root →
  ∃ L, get_topological_order h root = Ok L
    ∧ last L = Some root
    ∧ (∃ first, head L = Some first ∧ succs h first = []).
Proof.
  intros Hwf Hacyc.
  destruct (get_topological_order_spec h root Hwf) as [Hok _].
  destruct (Hok Hacyc) as (L & Hrun & Hnd & Hmem & Hord).
  exists L. split_and!; [done|by eapply topological_order_root_last|].
  destruct L as [|x L].
  - assert (root ∈ @nil nat) as Hin by (apply Hmem, rtc_refl). by apply elem_of_nil in Hin.
  - exists x. split; [done|].
    destruct (succs h x) as [|c cs] eqn:Hs; [done|exfalso].
    destruct (Hord 0 x c eq_refl) as (j & Hj & _); [rewrite Hs; by left|lia].
Qed.

Lemma get_topological_order_ends_with_root_witness :
  wf_store diamond 0 ∧ acyclic diamond 0
  ∧ ∃ L, get_topological_order diamond 0 = Ok L
      ∧ last L = Some 0
      ∧ (∃ first, head L = Some first ∧ succs diamond first = []).
Proof.
  refine (conj wf_store_diamond (conj acyclic_diamond _)).
  exact (get_topological_order_ends_with_root diamond 0 wf_store_diamond acyclic_diamond).
Defined.

Lemma NoDup_concat_lookup {A} (ls : list (list A)) i j a b x :
  NoDup (concat ls) → ls !! i = Some a → ls !! j = Some b → x ∈ a → x ∈ b → i = j.
Proof.
  revert i j. induction ls as [|l ls IH]; intros i j Hnd Hi Hj Ha Hb; [done|].
  simpl in Hnd. apply NoDup_app in Hnd as (_ & Hdisj & Hnd).
  destruct i as [|i], j as [|j]; simplify_eq/=; try done.
  - exfalso. eapply Hdisj; [exact Ha|]. apply elem_of_concat. exists b.
    split; [done|by eapply list_elem_of_lookup_2].
  - exfalso. eapply Hdisj; [exact Hb|]. apply elem_of_concat. exists a.
    split; [done|by eapply list_elem_of_lookup_2].
  - f_equal. by eapply IH.
Qed.

Lemma NoDup_concat_layer {A} (ls : list (list A)) l :
  NoDup (concat ls) → l ∈ ls → NoDup l.
Proof.
  intros Hnd (l1 & l2 & ->)%list_elem_of_split.
  rewrite concat_app in Hnd. simpl in Hnd.
  apply NoDup_app in Hnd as (_ & _ & Hnd). by apply NoDup_app in Hnd as (Hnd & _).
Qed.

Lemma layers_loop_shape (parents : gmap nat (list nat)) fuel :
  ∀ d Ls cur k L k',
  layers_loop fuel parents d (Ls ++ [cur]) k = Ok (L, k') →
  (Ls ++ [cur]) `prefix_of` L
  ∧ ∀ i layer, length Ls < i → L !! i = Some layer → layer ≠ [].
Proof.
  induction fuel as [|fuel IH]; intros d Ls cur k L k' Hrun; [done|].
  cbn [layers_loop] in Hrun. rewrite last_snoc in Hrun.
  destruct (for_each (relax_parents parents) cur (d, [])) as [[d' layer]| |]; [|done..].
  cbn [mbind res_bind] in Hrun.
  destruct (decide (length layer = 0)) as [Hz|Hnz].
  - injection Hrun as <- <-. split; [done|]. intros i ly Hi Hl.
    apply lookup_lt_Some in Hl. rewrite length_app in Hl. simpl in Hl. lia.
  - apply (IH d' (Ls ++ [cur]) layer) in Hrun as [Hpre Hne]. split.
    + etrans; [|exact Hpre]. by apply prefix_app_r.
    + intros i ly Hi Hl. destruct (decide (i = length (Ls ++ [cur]))) as [->|Hi'].
      * destruct Hpre as [rest ->]. rewrite <- (app_assoc _ [layer]) in Hl. simpl in Hl.
        rewrite list_lookup_middle in Hl by done. injection Hl as <-.
        by destruct layer.
      * apply (Hne i ly); [|done]. rewrite length_app in Hi' |- *. simpl in Hi' |- *. lia.
Qed.

Lemma layers_loop_supported (h : store) nodes parents :
  NoDup nodes →
  (∀ c, c ∈ nodes → parents !! c = Some (parents_of h nodes c)) →
  ∀ fuel d Ls cur k L k',
  kahn_inv h nodes d cur (concat Ls) →
  supported h (Ls ++ [cur]) →
  layers_loop fuel parents d (Ls ++ [cur]) k = Ok (L, k') →
  supported h L.
Proof.
  intros Hnd Hparents.
  induction fuel as [|fuel IH]; intros d Ls cur k L k' Hinv Hsup Hrun; [done|].
  cbn [layers_loop] in Hrun. rewrite last_snoc in Hrun.
  destruct (relax_parents_pass h nodes parents Hnd Hparents cur d [] (concat Ls))
    as (d' & layer & Hpass & Hinv'); [by rewrite app_nil_r|].
  simpl in Hpass, Hinv'. rewrite Hpass in Hrun. cbn [mbind res_bind] in Hrun.
  destruct (decide (length layer = 0)) as [Hz|Hnz].
  - by injection Hrun as <- <-.
  - assert (concat (Ls ++ [cur]) = concat Ls ++ cur) as Hcat.
    { rewrite concat_app. simpl. by rewrite app_nil_r. }
    apply (IH d' (Ls ++ [cur]) layer) in Hrun; [done|by rewrite Hcat|].
    intros i ly m Hi Hm.
    apply lookup_snoc_Some in Hi as [[Hlt Hi]|[Hlen <-]].
    + destruct (Hsup i ly m Hi Hm) as (c & ly' & Hl & Hc & He).
      exists c, ly'. split_and!; [by apply lookup_app_l_Some|done..].
    + assert (i = length Ls) as -> by (rewrite length_app in Hlen; simpl in Hlen; lia).
      destruct Hinv as (_ & Hsub & _ & Hzero & _).
      destruct Hinv' as (Hnd' & Hsub' & _ & Hzero' & _).
      assert (m ∈ nodes) as Hmn by (apply Hsub'; set_solver).
      assert (pending h (concat Ls ++ cur) m = 0) as Hp' by (apply Hzero'; [done|set_solver]).
      assert (m ∉ concat Ls ++ cur) as Hnot.
      { apply NoDup_app in Hnd' as (_ & Hdisj & _). intros Hin. by eapply Hdisj. }
      assert (pending h (concat Ls) m ≠ 0) as Hp by (intros Hp; by apply Hnot, Hzero).
      assert (∃ c, c ∈ succs h m ∧ c ∉ concat Ls) as (c & Hc & Hcn).
      { unfold pending in Hp.
        destruct (filter (λ c, c ∉ concat Ls) (succs h m)) as [|c l] eqn:Hf; [done|].
        exists c. assert (c ∈ filter (λ c, c ∉ concat Ls) (succs h m)) as Hin
          by (rewrite Hf; by left).
        apply list_elem_of_filter in Hin. naive_solver. }
      exists c, cur. split_and!; [| |done].
      * rewrite <- app_assoc. by apply list_lookup_middle.
      * assert (c ∈ concat Ls ++ cur) as Hin by (by eapply pending_0).
        set_solver.
Qed.

(** X4.  On a closed store without cycles, [get_topological_order_layers]
    returns layers, none of them empty, that hold every node reachable from
    the root once; the first layer holds the nodes that have no children to
    follow, every other node lies in the layer just after the last layer of
    its children (they all lie in earlier layers, one in the layer before),
    and the last layer holds the root alone.  With a cycle reachable from the
    root, the final assertion fails. *)
Theorem get_topological_order_layers_correct (h : store) (root : nat) :
  wf_store h root →
  (acyclic h root →
     ∃ L, get_topological_order_layers h root = Ok L
       ∧ NoDup (concat L)
       ∧ (∀ n, n ∈ concat L ↔ reachable h root n)
       ∧ layered h L
       ∧ supported h L
       ∧ Forall (λ layer, layer ≠ []) L
       ∧ (∃ first, head L = Some first
            ∧ ∀ n, n ∈ first ↔ reachable h root n ∧ succs h n = [])
       ∧ last L = Some [root])
  ∧ ((∃ n, reachable h root n ∧ tc (edge h) n n) →
     get_topological_order_layers h root
     = Raise (AssertionError "Graph is not DAG, it has at least one cycle")).
Proof.
  intros Hwf.
  destruct (kahn_init h root Hwf)
    as (nodes & parents & d & Sq & Hbfs & Hrec & Hscan & Hnd & Hnodes & Hparents & Hinv).
  assert (layered h ([] ++ [Sq])) as Hlay0.
  { intros i ly m c Hi Hm Hc. exfalso.
    apply list_lookup_singleton_Some in Hi as [-> <-].
    destruct Hinv as (_ & Hsub & _ & Hzero & _).
    assert (m ∈ nodes) as Hmn by (apply Hsub; set_solver).
    assert (c ∈ @nil nat) as Hin.
    { eapply pending_0; [|exact Hc]. apply Hzero; [done|set_solver]. }
    by apply elem_of_nil in Hin. }
  destruct (layers_loop_spec h nodes parents Hnd Hparents (S (length nodes)) d [] Sq)
    as (L & Hloop & Hsorted & Hlay); [done|done|simpl; lia|].
  destruct (layers_loop_shape _ _ _ _ _ _ _ _ Hloop) as [Hpre Hne].
  assert (supported h L) as Hsup.
  { refine (layers_loop_supported h nodes parents Hnd Hparents _ d [] Sq _ _ _ Hinv _ Hloop).
    intros i ly m Hi. by destruct i. }
  assert (get_topological_order_layers h root
          = if decide (length (concat L) = length nodes) then Ok L
            else Raise (AssertionError "Graph is not DAG, it has at least one cycle")) as Hrun.
  { unfold get_topological_order_layers. rewrite Hbfs. cbn [mbind res_bind].
    rewrite Hrec. cbn [mbind res_bind]. rewrite Hscan. cbn [mbind res_bind].
    cbn [app concat] in Hloop. rewrite app_nil_r in Hloop. rewrite Hloop. done. }
  split.
  - intros Hacyc.
    pose proof (kahn_sorted_acyclic h nodes (concat L) root Hnodes Hsorted Hacyc) as Hall.
    pose proof Hsorted as (HndL & Hsub & _ & Hord).
    assert (∀ n, n ∈ concat L ↔ reachable h root n) as Hmem.
    { intros n. rewrite <- Hnodes. split; [apply Hsub|apply Hall]. }
    destruct Hpre as [rest HL]. simpl in HL.
    assert (Sq ≠ []) as HSq.
    { intros ->. destruct rest as [|ly1 rest].
      - assert (root ∈ concat L) as Hin by (apply Hmem, rtc_refl).
        rewrite HL in Hin. by apply elem_of_nil in Hin.
      - assert (ly1 ≠ []) as Hly1 by (apply (Hne 1); [simpl; lia|by rewrite HL]).
        destruct ly1 as [|m ly1]; [done|].
        destruct (Hsup 0 (m :: ly1) m) as (c & ly' & Hl & Hc & _);
          [by rewrite HL|by left|].
        rewrite HL in Hl. injection Hl as <-. by apply elem_of_nil in Hc. }
    assert (Forall (λ layer, layer ≠ []) L) as Hfull.
    { apply Forall_lookup. intros i ly Hi. destruct i as [|i].
      - rewrite HL in Hi. by injection Hi as <-.
      - apply (Hne (S i)); [simpl; lia|done]. }
    exists L. split_and!; try done.
    + rewrite Hrun, decide_True; [done|].
      apply Nat.le_antisymm; apply submseteq_length, NoDup_submseteq; done.
    + exists Sq. split; [by rewrite HL|]. intros n.
      destruct Hinv as (_ & Hsub0 & _ & Hzero & _).
      rewrite <- Hnodes. split.
      * intros Hn. assert (n ∈ nodes) as Hnn by (apply Hsub0; set_solver).
        split; [done|]. apply nil_length_inv. rewrite <- pending_nil.
        apply Hzero; [done|set_solver].
      * intros [Hnn Hs]. assert (n ∈ [] ++ Sq) as Hin; [|done].
        apply Hzero; [done|]. by rewrite pending_nil, Hs.
    + destruct (last L) as [ly|] eqn:Hlast;
        [|apply last_None in Hlast; by rewrite Hlast in HL].
      rewrite last_lookup in Hlast.
      assert (ly ∈ L) as HlyL by (by eapply list_elem_of_lookup_2).
      assert (∀ x, x ∈ ly → x = root) as Honly.
      { intros x Hx. destruct (decide (x = root)) as [|Hxr]; [done|exfalso].
        assert (reachable h root x) as Hrx
          by (apply Hmem, elem_of_concat; by exists ly).
        destruct (reachable_parent h root x Hrx Hxr) as (p & Hp & Hpx).
        apply Hmem, elem_of_concat in Hp as (lp & Hplp & HlpL).
        apply list_elem_of_lookup in HlpL as [i Hi].
        destruct (Hlay i lp p x Hi Hplp Hpx) as (j & ly' & Hj & Hjl & Hxl).
        pose proof (NoDup_concat_lookup L _ _ _ _ x HndL Hjl Hlast Hxl Hx) as ->.
        apply lookup_lt_Some in Hi. lia. }
      pose proof (NoDup_concat_layer L ly HndL HlyL) as Hndly.
      rewrite Forall_forall in Hfull. specialize (Hfull ly HlyL).
      destruct ly as [|x [|y ly]]; [done| |].
      * by rewrite (Honly x) by (by left).
      * exfalso. apply NoDup_cons in Hndly as [Hxy _]. apply Hxy.
        rewrite (Honly x), (Honly y); [by left|set_solver|set_solver].
  - intros (n & Hn & Hcyc). rewrite Hrun, decide_False; [done|].
    by eapply kahn_sorted_cyclic.
Qed.

Lemma get_topological_order_layers_correct_witness :
  wf_store diamond 0 ∧ acyclic diamond 0
  ∧ (∃ L, get_topological_order_layers diamond 0 = Ok L
       ∧ NoDup (concat L)
       ∧ (∀ n, n ∈ concat L ↔ reachable diamond 0 n)
       ∧ layered diamond L
       ∧ supported diamond L
       ∧ Forall (λ layer, layer ≠ []) L
       ∧ (∃ first, head L = Some first
            ∧ ∀ n, n ∈ first ↔ reachable diamond 0 n ∧ succs diamond n = [])
       ∧ last L = Some [0])
  ∧ wf_store two_cycle 0
  ∧ (∃ n, reachable two_cycle 0 n ∧ tc (edge two_cycle) n n)
  ∧ get_topological_order_layers two_cycle 0
    = Raise (AssertionError "Graph is not DAG, it has at least one cycle").
Proof.
  assert (wf_store two_cycle 0) as Hwf by (by apply (bool_decide_unpack _)).
  assert (∃ n, reachable two_cycle 0 n ∧ tc (edge two_cycle) n n) as Hcyc.
  { exists 0. split; [apply rtc_refl|].
    apply (tc_l _ 0 1 0); [|apply tc_once]; unfold edge; vm_compute; by left. }
  refine (conj wf_store_diamond (conj acyclic_diamond (conj _ (conj Hwf (conj Hcyc _))))).
  - exact (proj1 (get_topological_order_layers_correct diamond 0 wf_store_diamond)
             acyclic_diamond).
  - exact (proj2 (get_topological_order_layers_correct two_cycle 0 Hwf) Hcyc).
Defined.

(** ** Node identifiers *)

Lemma assign_ids_spec (order : list nat) :
  ∀ ids k, NoDup order →
  (foldl assign_id (ids, k) order).2 = (k + Z.of_nat (length order))%Z
  ∧ (∀ i n, order !! i = Some n →
       (foldl assign_id (ids, k) order).1 !! n = Some (k + Z.of_nat i)%Z)
  ∧ (∀ n, n ∉ order → (foldl assign_id (ids, k) order).1 !! n = ids !! n).
Proof.
  induction order as [|x order IH]; intros ids k Hnd.
  - simpl. split_and!; [lia|done..].
  - apply NoDup_cons in Hnd as [Hx Hnd]. cbn [foldl].
    destruct (IH (assign_id (ids, k) x).1 (assign_id (ids, k) x).2 Hnd) as (Hk & Hin & Hout).
    rewrite <- surjective_pairing in Hk, Hin, Hout. simpl in Hk, Hin, Hout.
    split_and!.
    + rewrite Hk. simpl. lia.
    + intros [|i] n Hi.
      * injection Hi as ->. rewrite Hout by done. rewrite lookup_insert_eq. f_equal. lia.
      * rewrite (Hin i n Hi). f_equal. lia.
    + intros n Hn. apply not_elem_of_cons in Hn as [Hnx Hn].
      rewrite Hout by done. by rewrite lookup_insert_ne.
Qed.

(** X5.  On a closed store without cycles, [set_node_ids] gives the nodes
    reachable from the root the identifiers 0 to N-1, where N is their
    number: no two of them get the same one, every child followed gets a
    smaller one than its parent, the root gets N-1, and a node that is not
    reachable keeps the identifier it had.  With a cycle reachable from the
    root the call fails with the assertion of [get_topological_order]. *)
Theorem set_node_ids_correct (h : store) (root : nat) (ids : gmap nat Z) :
  wf_store h root →
  (acyclic h root →
     ∃ ids' order,
       set_node_ids h root ids = Ok ids'
       ∧ get_topological_order h root = Ok order
       ∧ (∀ i n, order !! i = Some n → node_id ids' n = Z.of_nat i)
       ∧ (∀ n, reachable h root n → (0 ≤ node_id ids' n < Z.of_nat (length order))%Z)
       ∧ (∀ m n, reachable h root m → reachable h root n →
            node_id ids' m = node_id ids' n → m = n)
       ∧ (∀ m c, reachable h root m → edge h m c → (node_id ids' c < node_id ids' m)%Z)
       ∧ node_id ids' root = (Z.of_nat (length order) - 1)%Z
       ∧ (∀ n, ¬ reachable h root n → node_id ids' n = node_id ids n))
  ∧ ((∃ n, reachable h root n ∧ tc (edge h) n n) →
     set_node_ids h root ids
     = Raise (AssertionError "Graph is not DAG, it has at least one cycle")).
Proof.
  intros Hwf. destruct (get_topological_order_spec h root Hwf) as [Hok Hcyc]. split.
  - intros Hacyc. destruct (Hok Hacyc) as (order & Hrun & Hnd & Hmem & Hord).
    destruct (assign_ids_spec order ids 0 Hnd) as (_ & Hin & Hout).
    assert (∀ i n, order !! i = Some n
              → node_id (foldl assign_id (ids, 0%Z) order).1 n = Z.of_nat i) as Hid.
    { intros i n Hi. unfold node_id. by rewrite (Hin i n Hi). }
    exists (foldl assign_id (ids, 0%Z) order).1, order.
    split_and!; try done.
    + unfold set_node_ids. by rewrite Hrun.
    + intros n [i Hi]%Hmem%list_elem_of_lookup. rewrite (Hid i n Hi).
      apply lookup_lt_Some in Hi. lia.
    + intros m n [i Hi]%Hmem%list_elem_of_lookup [j Hj]%Hmem%list_elem_of_lookup.
      rewrite (Hid i m Hi), (Hid j n Hj). intros Heq.
      assert (i = j) as -> by lia. congruence.
    + intros m c [i Hi]%Hmem%list_elem_of_lookup Hmc.
      destruct (Hord i m c Hi Hmc) as (j & Hj & Hjc).
      rewrite (Hid i m Hi), (Hid j c Hjc). lia.
    + pose proof (topological_order_root_last h root order Hnd Hmem Hord) as Hlast.
      rewrite last_lookup in Hlast. rewrite (Hid _ _ Hlast).
      apply lookup_lt_Some in Hlast. lia.
    + intros n Hn. unfold node_id. rewrite Hout; [done|]. by rewrite Hmem.
  - intros Hc. unfold set_node_ids. by rewrite (Hcyc Hc).
Qed.

Lemma set_node_ids_correct_witness :
  wf_store diamond 0 ∧ acyclic diamond 0
  ∧ ∃ ids' order,
      set_node_ids diamond 0 ∅ = Ok ids'
      ∧ get_topological_order diamond 0 = Ok order
      ∧ (∀ i n, order !! i = Some n → node_id ids' n = Z.of_nat i)
      ∧ (∀ n, reachable diamond 0 n → (0 ≤ node_id ids' n < Z.of_nat (length order))%Z)
      ∧ (∀ m n, reachable diamond 0 m → reachable diamond 0 n →
           node_id ids' m = node_id ids' n → m = n)
      ∧ (∀ m c, reachable diamond 0 m → edge diamond m c →
           (node_id ids' c < node_id ids' m)%Z)
      ∧ node_id ids' 0 = (Z.of_nat (length order) - 1)%Z
      ∧ (∀ n, ¬ reachable diamond 0 n → node_id ids' n = node_id ∅ n).
Proof.
  refine (conj wf_store_diamond (conj acyclic_diamond _)).
  exact (proj1 (set_node_ids_correct diamond 0 ∅ wf_store_diamond) acyclic_diamond).
Defined.

(** ** The evaluators on graphs with a cycle *)

(** X6.  With a cycle reachable from the root, both evaluators fail with
    the assertion of the topological sort, whatever the handlers, and neither
    call hangs. *)
Theorem evaluators_reject_cycles {V M : Type} (h : store) (root : nat)
    (bu_functions : gmap pyclass (bu_handler V))
    (td_functions : gmap pyclass (td_handler M)) (parent_result : M) :
  wf_store h root →
  (∃ n, reachable h root n ∧ tc (edge h) n n) →
  eval_spn_bottom_up h root bu_functions
  = Raise (AssertionError "Graph is not DAG, it has at least one cycle")
  ∧ eval_spn_top_down h root td_functions parent_result
    = Raise (AssertionError "Graph is not DAG, it has at least one cycle").
Proof.
  intros Hwf Hcyc. split.
  - destruct (get_topological_order_spec h root Hwf) as [_ Hraise].
    unfold eval_spn_bottom_up. by rewrite (Hraise Hcyc).
  - destruct (get_topological_order_layers_run h root Hwf)
      as (nodes & L & _ & Hnodes & Hsorted & _ & Hrun).
    destruct Hcyc as (n & Hn & Hc).
    unfold eval_spn_top_down. rewrite Hrun, decide_False; [done|].
    by eapply kahn_sorted_cyclic.
Qed.

Lemma evaluators_reject_cycles_witness :
  wf_store two_cycle 0
  ∧ (∃ n, reachable two_cycle 0 n ∧ tc (edge two_cycle) n n)
  ∧ eval_spn_bottom_up two_cycle 0 count_leaves
    = Raise (AssertionError "Graph is not DAG, it has at least one cycle")
  ∧ eval_spn_top_down two_cycle 0 broadcast 1
    = Raise (AssertionError "Graph is not DAG, it has at least one cycle").
Proof.
  assert (wf_store two_cycle 0) as Hwf by (by apply (bool_decide_unpack _)).
  assert (∃ n, reachable two_cycle 0 n ∧ tc (edge two_cycle) n n) as Hcyc.
  { exists 0. split; [apply rtc_refl|].
    apply (tc_l _ 0 1 0); [|apply tc_once]; unfold edge; vm_compute; by left. }
  refine (conj Hwf (conj Hcyc _)).
  exact (evaluators_reject_cycles two_cycle 0 count_leaves broadcast 1 Hwf Hcyc).
Defined.

(** ** The calls of the top-down evaluation *)

Lemma td_visit_inv {M} (h : store) (eval_functions : gmap pyclass (td_handler M))
    leaf_func n (all_results all_results' : gmap nat (list M)) calls calls' :
  td_visit h eval_functions leaf_func n (all_results, calls) = Ok (all_results', calls') →
  ∃ key func params,
    td_resolve h eval_functions leaf_func n = Ok (key, func)
    ∧ all_results !! n = Some params
    ∧ all_results' = push_messages h n (func n params) all_results
    ∧ calls' = calls ++ [mk_td_call key n params (func n params)].
Proof.
  unfold td_visit. intros Hv.
  destruct (td_resolve h eval_functions leaf_func n) as [[key func]|e|]; [|done..].
  cbn [mbind res_bind] in Hv. unfold getitem in Hv.
  destruct (all_results !! n) as [params|]; [|done].
  cbn [mbind res_bind] in Hv. injection Hv as <- <-. by exists key, func, params.
Qed.

Lemma filter_key_absent {M} (items : list (nat * M)) c :
  c ∉ items.*1 → filter (λ it, it.1 = c) items = [].
Proof.
  intros Hc. destruct (filter (λ it, it.1 = c) items) as [|it l] eqn:Hf; [done|exfalso].
  assert (it ∈ filter (λ it, it.1 = c) items) as Hin by (rewrite Hf; by left).
  apply list_elem_of_filter in Hin as [<- Hin]. apply Hc. by apply list_elem_of_fmap_2.
Qed.

Lemma push_messages_inbox {M} (h : store) n key params result
    (all_results : gmap nat (list M)) c :
  default [] (push_messages h n result all_results !! c)
  = default [] (all_results !! c) ++ td_sent h c (mk_td_call key n params result).
Proof.
  unfold push_messages, td_sent. cbn [td_result td_node].
  destruct result as [items|]; [|by rewrite app_nil_r].
  destruct (isinstance h n cILeafNode); [by rewrite app_nil_r|].
  rewrite push_message_lookup. destruct (decide (c ∈ items.*1)) as [|Hc]; [done|].
  by rewrite (filter_key_absent items c Hc), app_nil_r.
Qed.

Lemma td_inbox_snoc {M} (h : store) n (calls : list (td_call M)) c :
  td_inbox h n (calls ++ [c]) = td_inbox h n calls ++ td_sent h n c.
Proof. unfold td_inbox. rewrite fmap_app, concat_app. simpl. by rewrite app_nil_r. Qed.

Lemma td_resolve_Ok_applicable {M} (h : store)
    (eval_functions : gmap pyclass (td_handler M)) n key func :
  td_resolve h eval_functions (eval_functions !! cILeafNode) n = Ok (key, func) →
  td_applicable h eval_functions n.
Proof.
  unfold td_resolve, td_applicable.
  destruct (eval_functions !! cILeafNode), (isinstance h n cILeafNode),
    (eval_functions !! type_of h n); naive_solver.
Qed.

Lemma td_loop_trace {M} (h : store) (eval_functions : gmap pyclass (td_handler M))
    (seed : nat → list M) rest :
  ∀ (all_results all_results' : gmap nat (list M)) calls calls',
  for_each (td_visit h eval_functions (eval_functions !! cILeafNode)) rest (all_results, calls)
  = Ok (all_results', calls') →
  (∀ n, default [] (all_results !! n) = seed n ++ td_inbox h n calls) →
  (∀ i c, calls !! i = Some c →
     td_params c = seed (td_node c) ++ td_inbox h (td_node c) (take i calls)) →
  (∀ n, default [] (all_results' !! n) = seed n ++ td_inbox h n calls')
  ∧ (∀ i c, calls' !! i = Some c →
       td_params c = seed (td_node c) ++ td_inbox h (td_node c) (take i calls'))
  ∧ td_node <$> calls' = (td_node <$> calls) ++ rest
  ∧ Forall (td_applicable h eval_functions) rest.
Proof.
  induction rest as [|n rest IH]; intros ar ar' calls calls' Hrun Hinv Hpar.
  - injection Hrun as <- <-. split_and!; [done|done|by rewrite app_nil_r|done].
  - cbn [for_each] in Hrun.
    destruct (td_visit h eval_functions (eval_functions !! cILeafNode) n (ar, calls))
      as [[ar1 calls1]|e|] eqn:Hv; [|done..].
    cbn [mbind res_bind] in Hrun.
    apply td_visit_inv in Hv as (key & func & params & Hres & Hlook & -> & ->).
    apply IH in Hrun as (Hinv' & Hpar' & Hnodes & Happ).
    + split_and!; [done|done| |].
      * rewrite Hnodes, fmap_app. simpl. by rewrite <- app_assoc.
      * constructor; [by eapply td_resolve_Ok_applicable|done].
    + intros c.
      rewrite (push_messages_inbox h n key params), Hinv, td_inbox_snoc.
      by rewrite app_assoc.
    + intros i c Hi. apply lookup_snoc_Some in Hi as [[Hlt Hi]|[-> <-]].
      * rewrite take_app_le by lia. by apply Hpar.
      * cbn [td_params td_node]. rewrite take_app_length.
        specialize (Hinv n). by rewrite Hlook in Hinv.
Qed.

Lemma td_seed_init {M} (h : store) (root : nat) (parent_result : M) n :
  default [] (({[root := [parent_result]]} : gmap nat (list M)) !! n)
  = td_seed root parent_result n ++ td_inbox h n [].
Proof.
  unfold td_seed, td_inbox. simpl. rewrite app_nil_r.
  destruct (decide (n = root)) as [->|Hn].
  - by rewrite lookup_singleton_eq.
  - by rewrite lookup_singleton_ne.
Qed.

(** X7.  When [eval_spn_top_down] returns, every handler was called with
    the messages that earlier calls addressed to its node, in the order of
    those calls (for the root: [parent_result], then those messages), and the
    value returned is [parent_result] followed by every message addressed to
    the root. *)
Theorem eval_spn_top_down_messages {M} (h : store) (root : nat)
    (eval_functions : gmap pyclass (td_handler M)) (parent_result : M)
    v results calls :
  eval_spn_top_down h root eval_functions parent_result = Ok (v, results, calls) →
  v = parent_result :: td_inbox h root calls
  ∧ (∀ i c, calls !! i = Some c →
       td_params c = td_seed root parent_result (td_node c)
                     ++ td_inbox h (td_node c) (take i calls))
  ∧ (∀ n, default [] (results !! n) = td_seed root parent_result n ++ td_inbox h n calls).
Proof.
  unfold eval_spn_top_down. intros Hrun.
  destruct (get_topological_order_layers h root) as [L|e|]; [|done..].
  cbn [mbind res_bind] in Hrun. rewrite for_each_concat in Hrun.
  destruct (for_each _ (concat (reverse L)) _) as [[ar calls1]|e|] eqn:Hloop; [|done..].
  cbn [mbind res_bind] in Hrun. unfold getitem in Hrun.
  destruct (ar !! root) as [v1|] eqn:Hroot; [|done].
  cbn [mbind res_bind] in Hrun. injection Hrun as <- <- <-.
  apply (td_loop_trace h eval_functions (td_seed root parent_result)) in Hloop
    as (Hinv & Hpar & _ & _); [|apply td_seed_init|done].
  split_and!; [|done..]. specialize (Hinv root). rewrite Hroot in Hinv. simpl in Hinv.
  rewrite Hinv. unfold td_seed. by rewrite decide_True.
Qed.

(** X8.  When [eval_spn_top_down] returns on a closed store, the graph has
    no cycle, a handler applies to every node reachable from the root, and
    the handlers were called once on each of these nodes and on no other: on
    the root first, and on every other node after all its parents. *)
Theorem eval_spn_top_down_calls {M} (h : store) (root : nat)
    (eval_functions : gmap pyclass (td_handler M)) (parent_result : M)
    v results calls :
  wf_store h root →
  eval_spn_top_down h root eval_functions parent_result = Ok (v, results, calls) →
  acyclic h root
  ∧ NoDup (td_node <$> calls)
  ∧ (∀ n, n ∈ td_node <$> calls ↔ reachable h root n)
  ∧ (∀ n, reachable h root n → td_applicable h eval_functions n)
  ∧ head (td_node <$> calls) = Some root
  ∧ (∀ i c m, (td_node <$> calls) !! i = Some c → reachable h root m → edge h m c →
       ∃ j, j < i ∧ (td_node <$> calls) !! j = Some m).
Proof.
  intros Hwf Hrun.
  destruct (get_topological_order_layers_run h root Hwf)
    as (nodes & L & Hnd & Hnodes & Hsorted & Hlay & Hlayers).
  unfold eval_spn_top_down in Hrun. rewrite Hlayers in Hrun.
  destruct (decide (length (concat L) = length nodes)) as [Hlen|Hlen]; [|done].
  cbn [mbind res_bind] in Hrun. rewrite for_each_concat in Hrun.
  destruct (for_each _ (concat (reverse L)) _) as [[ar calls1]|e|] eqn:Hloop; [|done..].
  cbn [mbind res_bind] in Hrun. unfold getitem in Hrun.
  destruct (ar !! root) as [v1|] eqn:Hroot; [|done].
  cbn [mbind res_bind] in Hrun. injection Hrun as <- <- <-.
  apply (td_loop_trace h eval_functions (td_seed root parent_result)) in Hloop
    as (_ & _ & Hcalls & Happ); [|apply td_seed_init|done].
  simpl in Hcalls. rewrite Hcalls. clear Hcalls.
  pose proof Hsorted as (HndL & Hsub & _ & Hord).
  assert (concat L ≡ₚ nodes) as Hperm
    by (apply submseteq_length_Permutation; [by apply NoDup_submseteq|lia]).
  assert (∀ n, n ∈ concat (reverse L) ↔ reachable h root n) as Hmem.
  { intros n. by rewrite concat_reverse_perm, Hperm. }
  assert (∀ i c m, concat (reverse L) !! i = Some c → reachable h root m → edge h m c →
            ∃ j, j < i ∧ concat (reverse L) !! j = Some m) as Hfirst.
  { intros i c m Hi Hm Hmc.
    assert (m ∈ take i (concat (reverse L))) as Hin.
    { eapply (layered_parents_first h L _ c (drop (S i) (concat (reverse L)))); eauto.
      - by rewrite take_drop_middle.
      - by rewrite Hperm, Hnodes. }
    apply list_elem_of_lookup in Hin as [j Hj].
    apply lookup_take_Some in Hj as [Hj Hlt]. by exists j. }
  split_and!; try done.
  - intros n Hn Hcyc. by eapply (kahn_sorted_cyclic h nodes (concat L) root n).
  - by rewrite concat_reverse_perm.
  - intros n Hn. rewrite Forall_forall in Happ. by apply Happ, Hmem.
  - destruct (concat (reverse L)) as [|c l] eqn:Hl.
    + assert (root ∈ @nil nat) as Hin by (apply Hmem, rtc_refl). by apply elem_of_nil in Hin.
    + simpl. f_equal. destruct (decide (c = root)) as [|Hc]; [done|exfalso].
      assert (reachable h root c) as Hrc by (apply Hmem; by left).
      destruct (reachable_parent h root c Hrc Hc) as (m & Hm & Hmc).
      destruct (Hfirst 0 c m eq_refl Hm Hmc) as (j & Hj & _). lia.
Qed.

(** X9.  On a closed store without cycles, the only exception
    [eval_spn_top_down] raises is KeyError, and it raises it whenever some
    node reachable from the root has no handler: none for its class and, for
    a leaf, none for ILeafNode either. *)
Theorem eval_spn_top_down_KeyError {M} (h : store) (root : nat)
    (eval_functions : gmap pyclass (td_handler M)) (parent_result : M) :
  wf_store h root → acyclic h root →
  (∀ e, eval_spn_top_down h root eval_functions parent_result = Raise e → e = KeyError)
  ∧ ((∃ n, reachable h root n ∧ ¬ td_applicable h eval_functions n) →
     eval_spn_top_down h root eval_functions parent_result = Raise KeyError).
Proof.
  intros Hwf Hacyc.
  destruct (get_topological_order_layers_run h root Hwf)
    as (nodes & L & Hnd & Hnodes & Hsorted & Hlay & Hlayers).
  pose proof (kahn_sorted_acyclic h nodes (concat L) root Hnodes Hsorted Hacyc) as Hall.
  pose proof Hsorted as (HndL & Hsub & _).
  rewrite decide_True in Hlayers
    by (apply Nat.le_antisymm; apply submseteq_length, NoDup_submseteq; done).
  pose proof (td_loop_safe h eval_functions root parent_result (concat (reverse L))
                {[root := [parent_result]]} []) as Hsafe.
  unfold eval_spn_top_down. rewrite Hlayers. cbn [mbind res_bind]. rewrite for_each_concat.
  destruct (for_each _ (concat (reverse L)) _) as [[ar calls]|e|] eqn:Hloop.
  - cbn [mbind res_bind]. unfold getitem. split.
    + intros e. destruct (ar !! root); cbn [mbind res_bind]; [done|congruence].
    + intros (n & Hn & Hna). exfalso. apply Hna.
      apply (td_loop_trace h eval_functions (td_seed root parent_result)) in Hloop
        as (_ & _ & _ & Happ); [|apply td_seed_init|done].
      rewrite Forall_forall in Happ. apply Happ.
      rewrite concat_reverse_perm. by apply Hall, Hnodes.
  - cbn [mbind res_bind]. rewrite Hsafe; [|by rewrite lookup_singleton_eq|done].
    split; [congruence|done].
  - destruct Hsafe; [by rewrite lookup_singleton_eq|done].
Qed.

Lemma eval_spn_top_down_messages_witness :
  ∃ v results calls,
    eval_spn_top_down diamond 0 broadcast 1 = Ok (v, results, calls)
    ∧ v = 1 :: td_inbox diamond 0 calls
    ∧ (∀ i c, calls !! i = Some c →
         td_params c = td_seed 0 1 (td_node c) ++ td_inbox diamond (td_node c) (take i calls))
    ∧ (∀ n, default [] (results !! n) = td_seed 0 1 n ++ td_inbox diamond n calls).
Proof.
  assert (∃ out, eval_spn_top_down diamond 0 broadcast 1 = Ok out) as [[[v results] calls] Heq]
    by (vm_compute; eexists; reflexivity).
  exists v, results, calls.
  exact (conj Heq (eval_spn_top_down_messages diamond 0 broadcast 1 v results calls Heq)).
Defined.

Lemma eval_spn_top_down_calls_witness :
  wf_store diamond 0
  ∧ ∃ v results calls,
      eval_spn_top_down diamond 0 broadcast 1 = Ok (v, results, calls)
      ∧ acyclic diamond 0
      ∧ NoDup (td_node <$> calls)
      ∧ (∀ n, n ∈ td_node <$> calls ↔ reachable diamond 0 n)
      ∧ (∀ n, reachable diamond 0 n → td_applicable diamond broadcast n)
      ∧ head (td_node <$> calls) = Some 0
      ∧ (∀ i c m, (td_node <$> calls) !! i = Some c → reachable diamond 0 m →
           edge diamond m c → ∃ j, j < i ∧ (td_node <$> calls) !! j = Some m).
Proof.
  assert (∃ out, eval_spn_top_down diamond 0 broadcast 1 = Ok out) as [[[v results] calls] Heq]
    by (vm_compute; eexists; reflexivity).
  refine (conj wf_store_diamond _).
  exists v, results, calls.
  exact (conj Heq (eval_spn_top_down_calls diamond 0 broadcast 1 v results calls
                     wf_store_diamond Heq)).
Defined.

Lemma eval_spn_top_down_KeyError_witness :
  wf_store diamond 0 ∧ acyclic diamond 0
  ∧ (∃ n, reachable diamond 0 n ∧ ¬ td_applicable diamond (∅ : gmap pyclass (td_handler nat)) n)
  ∧ (∀ e, eval_spn_top_down diamond 0 ∅ 1 = Raise e → e = KeyError)
  ∧ eval_spn_top_down diamond 0 ∅ 1 = Raise KeyError.
Proof.
  assert (∃ n, reachable diamond 0 n
               ∧ ¬ td_applicable diamond (∅ : gmap pyclass (td_handler nat)) n) as Hex.
  { exists 0. split; [apply rtc_refl|]. unfold td_applicable. rewrite !lookup_empty.
    intros [[_ [? ?]]|[? ?]]; done. }
  refine (conj wf_store_diamond (conj acyclic_diamond (conj Hex _))).
  refine (conj (proj1 (eval_spn_top_down_KeyError diamond 0 ∅ 1
                         wf_store_diamond acyclic_diamond)) _).
  exact (proj2 (eval_spn_top_down_KeyError diamond 0 ∅ 1 wf_store_diamond acyclic_diamond)
           Hex).
Defined.

(** ** Bottom-up evaluation as a recursion *)

Lemma bu_value_mono {V} (h : store) (eval_functions : gmap pyclass (bu_handler V)) k :
  ∀ k' n v, k ≤ k' →
  bu_value h eval_functions k n = Some v → bu_value h eval_functions k' n = Some v.
Proof.
  induction k as [|k IH]; intros k' n v Hle Hv; [done|].
  destruct k' as [|k']; [lia|]. cbn [bu_value] in Hv |- *.
  destruct (eval_functions !! type_of h n) as [func|]; [|done].
  destruct (isinstance h n cILeafNode); [done|].
  destruct (mapM (bu_value h eval_functions k) (children_of h n)) as [vs|] eqn:Hvs; [|done].
  assert (mapM (bu_value h eval_functions k') (children_of h n) = Some vs) as ->; [|done].
  apply mapM_Some. apply mapM_Some in Hvs.
  eapply Forall2_impl; [exact Hvs|]. intros c w Hw. apply IH; [lia|done].
Qed.

(** X10.  When [eval_spn_bottom_up] returns on a closed store, [all_results]
    has an entry for every node reachable from the root and for no other
    node, and the entry of a node, like the value returned for the root, is
    what the plain recursion over the graph computes: the handler of the node
    applied to the values of its children.  A node with several parents is
    evaluated once and the value is shared. *)
Theorem eval_spn_bottom_up_recursive {V} (h : store) (root : nat)
    (eval_functions : gmap pyclass (bu_handler V)) v results calls :
  wf_store h root →
  eval_spn_bottom_up h root eval_functions = Ok (v, results, calls) →
  (∀ n, is_Some (results !! n) ↔ reachable h root n)
  ∧ ∃ fuel,
      bu_value h eval_functions fuel root = Some v
      ∧ ∀ n, reachable h root n → results !! n = bu_value h eval_functions fuel n.
Proof.
  intros Hwf Heq.
  destruct (get_topological_order_run h root Hwf)
    as (nodes & L & Hnd & Hnodes & Hsorted & Hrun).
  pose proof Hsorted as (HndL & Hsub & _ & Hord).
  destruct (decide (length L = length nodes)) as [Hlen|Hlen];
    [|unfold eval_spn_bottom_up in Heq; by rewrite Hrun in Heq].
  assert (L ≡ₚ nodes) as Hperm
    by (apply submseteq_length_Permutation; [by apply NoDup_submseteq|lia]).
  assert (∀ n, n ∈ L ↔ reachable h root n) as Hmem by (intros n; by rewrite Hperm).
  pose proof (bu_loop_spec h eval_functions L HndL Hord L [] ∅ []) as Hloop.
  unfold eval_spn_bottom_up in Heq. rewrite Hrun in Heq. cbn [mbind res_bind] in Heq.
  destruct (for_each _ L _) as [[results' calls']|e|]; [|done..].
  cbn [mbind res_bind] in Heq. unfold getitem in Heq.
  destruct (results' !! root) as [v'|] eqn:Hroot; [|done].
  cbn [mbind res_bind] in Heq. injection Heq as -> -> ->.
  destruct Hloop as (_ & Hdom & Hnodes' & Hcalls); try done.
  { intros n. rewrite lookup_empty, elem_of_nil. split; [by intros [? ?]|done]. }
  assert (∀ i n, L !! i = Some n →
            ∃ r, results !! n = Some r ∧ bu_value h eval_functions (S i) n = Some r) as Hval.
  { intros i. induction (lt_wf i) as [i _ IH]. intros n Hi.
    assert (∃ c, calls !! i = Some c ∧ bu_node c = n) as (c & Hc & Hcn).
    { rewrite <- Hnodes' in Hi. by apply list_lookup_fmap_Some in Hi as (c & ? & ?);
        exists c. }
    rewrite Forall_forall in Hcalls.
    destruct (Hcalls c) as [Hres Hcall]; [by eapply list_elem_of_lookup_2|].
    rewrite Hcn in Hres, Hcall. exists (bu_result c). split; [done|].
    cbn [bu_value]. destruct (eval_functions !! type_of h n) as [func|].
    - destruct Hcall as (_ & Hr & Hargs).
      destruct (isinstance h n cILeafNode) eqn:Hleaf; [by rewrite Hr, Hargs|].
      destruct Hargs as (vs & Hargs & Hvs).
      assert (mapM (bu_value h eval_functions i) (children_of h n) = Some vs) as ->.
      { apply mapM_Some. apply Forall2_same_length_lookup.
        split; [by eapply Forall2_length|]. intros k ci w Hk Hw.
        pose proof (Forall2_lookup_lr _ _ _ _ _ _ Hvs Hk Hw) as Hciw.
        assert (ci ∈ succs h n) as Hci.
        { unfold succs. rewrite Hleaf. by eapply list_elem_of_lookup_2. }
        destruct (Hord i n ci Hi Hci) as (j & Hj & Hjc).
        destruct (IH j Hj ci Hjc) as (r & Hr1 & Hr2).
        rewrite Hciw in Hr1. injection Hr1 as <-.
        eapply bu_value_mono; [|exact Hr2]. lia. }
      simpl. by rewrite Hr, Hargs.
    - destruct Hcall as (-> & _ & _ & lf & -> & ->). done. }
  split; [intros n; by rewrite Hdom|].
  exists (length L). split.
  - assert (root ∈ L) as [i Hi]%list_elem_of_lookup by (apply Hmem, rtc_refl).
    destruct (Hval i root Hi) as (r & Hr1 & Hr2). rewrite Hroot in Hr1. injection Hr1 as <-.
    eapply bu_value_mono; [|exact Hr2]. apply lookup_lt_Some in Hi. lia.
  - intros n [i Hi]%Hmem%list_elem_of_lookup.
    destruct (Hval i n Hi) as (r & -> & Hr2). symmetry.
    eapply bu_value_mono; [|exact Hr2]. apply lookup_lt_Some in Hi. lia.
Qed.

Lemma eval_spn_bottom_up_recursive_witness :
  wf_store diamond 0
  ∧ ∃ v results calls,
      eval_spn_bottom_up diamond 0 count_leaves = Ok (v, results, calls)
      ∧ (∀ n, is_Some (results !! n) ↔ reachable diamond 0 n)
      ∧ ∃ fuel,
          bu_value diamond count_leaves fuel 0 = Some v
          ∧ ∀ n, reachable diamond 0 n → results !! n = bu_value diamond count_leaves fuel n.
Proof.
  assert (∃ out, eval_spn_bottom_up diamond 0 count_leaves = Ok out)
    as [[[v results] calls] Heq] by (vm_compute; eexists; reflexivity).
  refine (conj wf_store_diamond _).
  exists v, results, calls.
  exact (conj Heq (eval_spn_bottom_up_recursive diamond 0 count_leaves v results calls
                     wf_store_diamond Heq)).
Defined.

(** ** Comparison of nodes *)

Lemma equals_S np depth h self other :
  equals np (S depth) h self other
  = let INode_equals : res bool :=
      if decide (type_of h self = type_of h other) then
        if decide (scope_of h self = scope_of h other) then
          all_map (equals np depth h) (children_of h self) (children_of h other)
        else Ok false
      else Ok false in
    if issubclass (type_of h self) cISumNode then
      if decide (type_of h other = cISumNode) then
        b ← INode_equals;
        if b : bool then
          w1 ← getattr_weights h self;
          w2 ← getattr_weights h other;
          c ← allclose np w1 w2;
          if c : bool then Ok (bool_decide (length w1 = length w2)) else Ok false
        else Ok false
      else Ok false
    else INode_equals.
Proof. reflexivity. Qed.

Lemma all_map_diag (eq : nat → nat → res bool) cs :
  all_map eq cs cs = Ok true ↔ ∀ c, c ∈ cs → eq c c = Ok true.
Proof.
  induction cs as [|c cs IH]; simpl.
  - split; [intros _ c Hc; by apply elem_of_nil in Hc|done].
  - split.
    + intros Hall x Hx. destruct (eq c c) as [[|]| |] eqn:Hc; simpl in Hall; try done.
      apply elem_of_cons in Hx as [->|Hx]; [done|]. by apply IH.
    + intros Hall. rewrite (Hall c) by (by left). simpl. apply IH.
      intros x Hx. apply Hall. by right.
Qed.

Lemma allclose_diag np w :
  Forall (λ x, np_isclose np x x = true) w → allclose np w w = Ok true.
Proof.
  intros Hw.
  assert (forallb (λ p, np_isclose np p.1 p.2) (zip w w) = true) as Hzip.
  { induction Hw as [|x l Hx _ IH]; [done|]. simpl. by rewrite Hx, IH. }
  destruct w as [|x [|y w]].
  - done.
  - simpl. apply Forall_cons in Hw as [-> _]. done.
  - unfold allclose. rewrite decide_True by done. by rewrite Hzip.
Qed.

Lemma equals_diag np h (rank : nat → nat) :
  (∀ m c, child h m c → rank c < rank m) →
  ∀ depth n,
  rank n < depth →
  (∀ m, rtc (child h) n m → issubclass (type_of h m) cISumNode = true →
        type_of h m = cISumNode
        ∧ ∃ w, weights (h !!! m) = Some w ∧ Forall (λ x, np_isclose np x x = true) w) →
  equals np depth h n n = Ok true.
Proof.
  intros Hrank. induction depth as [|depth IH]; intros n Hn Hsum; [lia|].
  rewrite equals_S. cbn zeta.
  destruct (decide (type_of h n = type_of h n)); [|done].
  destruct (decide (scope_of h n = scope_of h n)); [|done].
  assert (all_map (equals np depth h) (children_of h n) (children_of h n) = Ok true) as ->.
  { apply all_map_diag. intros c Hc. apply IH.
    - specialize (Hrank n c Hc). lia.
    - intros m Hm. apply Hsum. by eapply rtc_l. }
  destruct (issubclass (type_of h n) cISumNode) eqn:Hs; [|done].
  destruct (Hsum n (rtc_refl _ _) Hs) as (Ht & w & Hw & Hclose).
  rewrite decide_True by done. cbn [mbind res_bind].
  unfold getattr_weights. rewrite Hw. cbn [mbind res_bind].
  rewrite allclose_diag by done. cbn [mbind res_bind]. by rewrite bool_decide_true.
Qed.

(** X11.  A node is equal to itself when the recursion limit is high enough:
    when the children of every node come lower in some ranking (no cycle
    through [children]), and when every node below [n] whose class derives
    from ISumNode is an ISumNode whose weights are each close to themselves
    for [np.isclose] (none is NaN), there is a nesting of calls from which
    on [n.equals(n)] returns True. *)
Theorem equals_reflexive (np : numpy) (h : store) (rank : nat → nat) (n : nat) :
  (∀ m c, child h m c → rank c < rank m) →
  (∀ m, rtc (child h) n m → issubclass (type_of h m) cISumNode = true →
        type_of h m = cISumNode
        ∧ ∃ w, weights (h !!! m) = Some w ∧ Forall (λ x, np_isclose np x x = true) w) →
  ∃ limit, ∀ depth, limit ≤ depth → equals np depth h n n = Ok true.
Proof.
  intros Hrank Hsum. exists (S (rank n)). intros depth Hdepth.
  apply (equals_diag np h rank Hrank); [lia|done].
Qed.

Lemma equals_reflexive_witness :
  (∀ m c, child mixture m c → id c < id m)
  ∧ (∀ m, rtc (child mixture) 3 m → issubclass (type_of mixture m) cISumNode = true →
          type_of mixture m = cISumNode
          ∧ ∃ w, weights (mixture !!! m) = Some w
                 ∧ Forall (λ x, np_isclose exact_numpy x x = true) w)
  ∧ ∃ limit, ∀ depth, limit ≤ depth → equals exact_numpy depth mixture 3 3 = Ok true.
Proof.
  assert (∀ m c, child mixture m c → id c < id m) as Hrank.
  { intros m c. unfold child, children_of. rewrite list_lookup_total_alt.
    destruct m as [|[|[|[|m]]]]; simpl; intros Hc;
      repeat (apply elem_of_cons in Hc as [->|Hc]; [unfold id; lia|]);
      by apply elem_of_nil in Hc. }
  assert (∀ m, issubclass (type_of mixture m) cISumNode = true →
               type_of mixture m = cISumNode
               ∧ ∃ w, weights (mixture !!! m) = Some w
                      ∧ Forall (λ x, np_isclose exact_numpy x x = true) w) as Hsum.
  { intros m. unfold type_of. rewrite list_lookup_total_alt.
    destruct m as [|[|[|[|m]]]]; simpl; try done.
    intros _. split; [done|]. eexists. split; [done|]. by repeat constructor. }
  refine (conj Hrank (conj (λ m _, Hsum m) _)).
  exact (equals_reflexive exact_numpy mixture id 3 Hrank (λ m _, Hsum m)).
Defined.

Lemma equals_true_children np depth h n c :
  equals np (S depth) h n n = Ok true → child h n c → equals np depth h c c = Ok true.
Proof.
  rewrite equals_S. cbn zeta.
  destruct (decide (type_of h n = type_of h n)); [|done].
  destruct (decide (scope_of h n = scope_of h n)); [|done]. intros Heq Hc.
  assert (all_map (equals np depth h) (children_of h n) (children_of h n) = Ok true) as Hall.
  { destruct (all_map (equals np depth h) (children_of h n) (children_of h n))
      as [[|]| |]; try done;
      destruct (issubclass (type_of h n) cISumNode); try done;
      destruct (decide (type_of h n = cISumNode)); done. }
  by eapply all_map_diag.
Qed.

Lemma equals_true_descend np h n m :
  tc (child h) n m →
  ∀ depth, equals np depth h n n = Ok true →
           ∃ depth', depth' < depth ∧ equals np depth' h m m = Ok true.
Proof.
  induction 1 as [n m Hnm|n c m Hnc _ IH]; intros depth Heq.
  - destruct depth as [|depth]; [done|]. exists depth. split; [lia|].
    by eapply equals_true_children.
  - destruct depth as [|depth]; [done|].
    destruct (IH depth) as (depth' & Hlt & Hm); [by eapply equals_true_children|].
    exists depth'. split; [lia|done].
Qed.

(** X12.  A node that reaches itself through [children] is never found
    equal to itself: the recursion of [n.equals(n)] comes back to [n] before
    it can return True, whatever the recursion limit. *)
Theorem equals_cyclic_never_true (np : numpy) (h : store) (depth n : nat) :
  tc (child h) n n → equals np depth h n n ≠ Ok true.
Proof.
  intros Hcyc. induction (lt_wf depth) as [depth _ IH]. intros Heq.
  destruct (equals_true_descend np h n n Hcyc depth Heq) as (depth' & Hlt & Heq').
  by apply (IH depth').
Qed.

Lemma equals_cyclic_never_true_witness :
  tc (child self_loop) 0 0
  ∧ equals exact_numpy 1000 self_loop 0 0 ≠ Ok true.
Proof.
  assert (tc (child self_loop) 0 0) as Hcyc by (apply tc_once; vm_compute; by left).
  exact (conj Hcyc (equals_cyclic_never_true exact_numpy self_loop 1000 0 Hcyc)).
Defined.

(** ** Graphs built by the constructors *)

Lemma decreasing_child h m c : decreasing h → child h m c → c < m ∧ m < length h.
Proof.
  intros Hdec Hmc. unfold child, children_of in Hmc. rewrite list_lookup_total_alt in Hmc.
  destruct (h !! m) as [nd|] eqn:Hnd; [|by apply elem_of_nil in Hmc].
  split; [|by eapply lookup_lt_Some].
  unfold decreasing in Hdec. rewrite Forall_forall in Hdec.
  specialize (Hdec (m, nd)). rewrite Forall_forall in Hdec. apply Hdec; [|done].
  apply list_elem_of_lookup. exists m. apply lookup_zip_with_Some. exists m, nd.
  split_and!; [done| |done]. apply lookup_seq. split; [done|by eapply lookup_lt_Some].
Qed.

Lemma decreasing_wf_store h root : decreasing h → root < length h → wf_store h root.
Proof.
  intros Hdec Hroot. split; [done|]. apply Forall_lookup. intros m nd Hm.
  apply Forall_forall. intros c Hc.
  destruct (decreasing_child h m c Hdec) as [? ?]; [|lia].
  unfold child, children_of. rewrite list_lookup_total_alt, Hm. done.
Qed.

Lemma decreasing_acyclic h root : decreasing h → acyclic h root.
Proof.
  intros Hdec n _ Hcyc.
  assert (∀ a b, edge h a b → child h a b) as Hedge.
  { intros a b. unfold edge, succs, child.
    destruct (isinstance h a cILeafNode); [by intros ?%elem_of_nil|done]. }
  assert (∀ a b, tc (edge h) a b → b < a) as Hlt.
  { induction 1 as [a b Hab|a b c Hab _ IH].
    - by apply (decreasing_child h a b Hdec), Hedge.
    - pose proof (decreasing_child h a b Hdec (Hedge _ _ Hab)). lia. }
  specialize (Hlt n n Hcyc). lia.
Qed.

Lemma alloc_decreasing h nd :
  decreasing h → Forall (λ c, c < length h) (children nd) → decreasing (h ++ [nd]).
Proof.
  intros Hdec Hch. unfold decreasing.
  rewrite length_app. simpl. rewrite seq_app, zip_with_app by (by rewrite length_seq).
  apply Forall_app. split; [done|]. simpl. by constructor.
Qed.

(** X13.  A graph built with the constructors has no cycle and can be
    traversed: when every node of the store was constructed after its
    children, constructing a product node, a sum node or a leaf over
    existing nodes leaves the existing nodes as they are, gives a store of
    the same kind, and [get_topological_order] on the new node returns, with
    the new node last. *)
Theorem constructors_build_dags (np : numpy) (h : store)
    (cs : list nat) (scope : list Z) (weights : option (list pyfloat)) h' n :
  decreasing h →
  Forall (λ c, c < length h) cs →
  IProductNode_init h cs scope = Ok (h', n)
  ∨ ISumNode_init np h cs scope weights = Ok (h', n)
  ∨ (cs = [] ∧ ILeafNode_init h scope = Ok (h', n)) →
  n = length h
  ∧ (∀ i, i < length h → h' !! i = h !! i)
  ∧ children_of h' n = cs
  ∧ decreasing h'
  ∧ wf_store h' n
  ∧ acyclic h' n
  ∧ ∃ L, get_topological_order h' n = Ok L ∧ last L = Some n.
Proof.
  intros Hdec Hch Hinit.
  assert (∃ nd, h' = h ++ [nd] ∧ n = length h ∧ children nd = cs)
    as (nd & -> & -> & Hnd).
  { unfold IProductNode_init, ISumNode_init, ILeafNode_init, alloc in Hinit.
    destruct Hinit as [Hinit|[Hinit|[-> Hinit]]]; injection Hinit as <- <-; eauto. }
  assert (decreasing (h ++ [nd])) as Hdec' by (apply alloc_decreasing; [done|by rewrite Hnd]).
  assert (wf_store (h ++ [nd]) (length h)) as Hwf.
  { apply decreasing_wf_store; [done|]. rewrite length_app. simpl. lia. }
  pose proof (decreasing_acyclic (h ++ [nd]) (length h) Hdec') as Hacyc.
  split_and!; try done.
  - intros i Hi. by rewrite lookup_app_l.
  - unfold children_of. rewrite list_lookup_total_alt, list_lookup_middle by done. done.
  - destruct (get_topological_order_spec (h ++ [nd]) (length h) Hwf) as [Hok _].
    destruct (Hok Hacyc) as (L & Hrun & HndL & Hmem & Hord).
    exists L. split; [done|]. by eapply topological_order_root_last.
Qed.

Lemma constructors_build_dags_witness :
  decreasing mixture
  ∧ Forall (λ c, c < length mixture) [3; 2]
  ∧ ∃ h' n,
      IProductNode_init mixture [3; 2] [0%Z] = Ok (h', n)
      ∧ n = length mixture
      ∧ (∀ i, i < length mixture → h' !! i = mixture !! i)
      ∧ children_of h' n = [3; 2]
      ∧ decreasing h'
      ∧ wf_store h' n
      ∧ acyclic h' n
      ∧ ∃ L, get_topological_order h' n = Ok L ∧ last L = Some n.
Proof.
  assert (decreasing mixture) as Hdec by (by apply (bool_decide_unpack _)).
  assert (Forall (λ c, c < length mixture) [3; 2]) as Hch
    by (repeat constructor; simpl; lia).
  refine (conj Hdec (conj Hch _)).
  exists (mixture ++ [mkINode cIProductNode [3; 2] [0%Z] None]), (length mixture).
  refine (conj eq_refl _).
  exact (constructors_build_dags exact_numpy mixture [3; 2] [0%Z] None _ _ Hdec Hch
           (or_introl eq_refl)).
Defined.

(** ** Construction of a Hypergeometric leaf *)

Lemma Hypergeometric_set_params_Ok self N M n :
  (0 ≤ N)%Z → (0 ≤ M ≤ N)%Z → (0 ≤ n ≤ N)%Z →
  Hypergeometric_set_params self N M n
  = Ok (Hypergeometric.mk (Hypergeometric.scope self) (Some N) (Some M) (Some n)).
Proof.
  intros HN HM Hn. unfold Hypergeometric_set_params.
  rewrite !decide_False by lia. done.
Qed.

Lemma Hypergeometric_set_params_inv self N M n :
  match Hypergeometric_set_params self N M n with
  | Ok node =>
    node = Hypergeometric.mk (Hypergeometric.scope self) (Some N) (Some M) (Some n)
    ∧ (0 ≤ M ≤ N)%Z ∧ (0 ≤ n ≤ N)%Z
  | Raise e => e = ValueError ∧ ¬ ((0 ≤ M ≤ N)%Z ∧ (0 ≤ n ≤ N)%Z)
  | Diverge => False
  end.
Proof.
  unfold Hypergeometric_set_params.
  destruct (decide (N < 0)%Z); [split; [done|lia]|].
  destruct (decide (M < 0 ∨ M > N)%Z); [split; [done|lia]|].
  destruct (decide (n < 0 ∨ n > N)%Z); [split; [done|lia]|].
  split_and!; [done|lia..].
Qed.

(** X14.  Whatever integer arguments are given or left out, with [N] below
    2^63 when it is given, [Hypergeometric(...)] raises nothing but
    ValueError, and a leaf it returns has one variable in its scope and
    parameters with 0 <= M <= N and 0 <= n <= N, equal to the arguments that
    were given; [get_params] returns them, and [get_scipy_object_parameters]
    on that leaf returns the dict {M: N, n: M, N: n} and never fails. *)
Theorem hypergeometric_init_invariant (draw : nat → Z → Z → Z) (k : nat)
    (scope : list Z) (oN oM on : option Z) :
  in_range draw →
  (∀ x, oN = Some x → (x < 2 ^ 63)%Z) →
  match Hypergeometric_init draw k scope oN oM on with
  | Ok (node, k') =>
    length scope = 1
    ∧ Hypergeometric.scope node = scope
    ∧ ∃ N M n,
        Hypergeometric_get_params node = (Some N, Some M, Some n)
        ∧ (0 ≤ M ≤ N)%Z ∧ (0 ≤ n ≤ N)%Z
        ∧ (∀ x, oN = Some x → N = x) ∧ (∀ x, oM = Some x → M = x)
        ∧ (∀ x, on = Some x → n = x)
        ∧ ∀ depth, Hypergeometric.get_scipy_object_parameters (S depth) node
                   = Ok [("M"%string, N); ("n"%string, M); ("N"%string, n)]
  | Raise e => e = ValueError
  | Diverge => False
  end.
Proof.
  intros Hdraw _. unfold Hypergeometric_init.
  destruct (decide (length scope ≠ 1)) as [|Hscope]; [done|].
  assert (length scope = 1) as Hlen by (destruct (decide (length scope = 1)); done).
  assert (∀ o lo hi kk,
    match (match o with
           | None => np_random_randint draw kk lo hi
           | Some x => Ok (x, kk)
           end) with
    | Ok (x, _) => ∀ y, o = Some y → x = y
    | Raise e => e = ValueError
    | Diverge => False
    end) as Harg.
  { intros [x|] lo hi kk; [by intros y [= ->]|].
    unfold np_random_randint. destruct (decide (lo < hi)%Z); done. }
  pose proof (Harg oN 1%Z 100%Z k) as HN.
  destruct (match oN with None => _ | Some _ => _ end) as [[N k1]|e|];
    cbn [mbind res_bind]; [|done..].
  pose proof (Harg oM 0%Z N k1) as HM.
  destruct (match oM with None => _ | Some _ => _ end) as [[M k2]|e|];
    cbn [mbind res_bind]; [|done..].
  pose proof (Harg on 0%Z N k2) as Hn.
  destruct (match on with None => _ | Some _ => _ end) as [[n k3]|e|];
    cbn [mbind res_bind]; [|done..].
  pose proof (Hypergeometric_set_params_inv (Hypergeometric.mk scope None None None) N M n)
    as Hset.
  destruct (Hypergeometric_set_params _ N M n) as [node|e|]; cbn [mbind res_bind];
    [|by destruct Hset|done].
  destruct Hset as (-> & HMr & Hnr). split_and!; [done|done|].
  exists N, M, n. split_and!; try done; lia.
Qed.

Lemma hypergeometric_init_invariant_witness :
  in_range lowest
  ∧ (∀ x, Some 500%Z = Some x → (x < 2 ^ 63)%Z)
  ∧ match Hypergeometric_init lowest 0 [0%Z] (Some 500%Z) None (Some 50%Z) with
    | Ok (node, k') =>
      length [0%Z] = 1
      ∧ Hypergeometric.scope node = [0%Z]
      ∧ ∃ N M n,
          Hypergeometric_get_params node = (Some N, Some M, Some n)
          ∧ (0 ≤ M ≤ N)%Z ∧ (0 ≤ n ≤ N)%Z
          ∧ (∀ x, Some 500%Z = Some x → N = x) ∧ (∀ x, None = Some x → M = x)
          ∧ (∀ x, Some 50%Z = Some x → n = x)
          ∧ ∀ depth, Hypergeometric.get_scipy_object_parameters (S depth) node
                     = Ok [("M"%string, N); ("n"%string, M); ("N"%string, n)]
    | Raise e => e = ValueError
    | Diverge => False
    end.
Proof.
  assert (in_range lowest) as Hdraw by (intros k low high; unfold lowest; lia).
  assert (∀ x, Some 500%Z = Some x → (x < 2 ^ 63)%Z) as Hfit by (intros x [= <-]; lia).
  exact (conj Hdraw (conj Hfit (hypergeometric_init_invariant lowest 0 [0%Z] (Some 500%Z)
                                  None (Some 50%Z) Hdraw Hfit))).
Defined.

(** X15.  When [Hypergeometric(...)] returns: with the three parameters
    given, [N] below 2^63, exactly when the scope has one variable, 0 <= M <= N and
    0 <= n <= N; with none given, always, with 1 <= N < 100 and M, n below N.
    With N = 0, which [set_params] accepts together with M = 0 and n = 0,
    leaving out M or n makes the constructor fail: the default is drawn from
    the empty range of [randint(0, 0)]. *)
Theorem hypergeometric_init_returns (draw : nat → Z → Z → Z) (k : nat) (scope : list Z) :
  in_range draw →
  (∀ N M n,
     (N < 2 ^ 63)%Z →
     (∃ out, Hypergeometric_init draw k scope (Some N) (Some M) (Some n) = Ok out)
     ↔ length scope = 1 ∧ (0 ≤ M ≤ N)%Z ∧ (0 ≤ n ≤ N)%Z)
  ∧ (length scope = 1 →
     ∃ node N M n,
       Hypergeometric_init draw k scope None None None = Ok (node, 3 + k)
       ∧ Hypergeometric_get_params node = (Some N, Some M, Some n)
       ∧ (1 ≤ N < 100)%Z ∧ (0 ≤ M < N)%Z ∧ (0 ≤ n < N)%Z)
  ∧ (∀ oM on, oM = None ∨ on = None →
     Hypergeometric_init draw k scope (Some 0%Z) oM on = Raise ValueError)
  ∧ (length scope = 1 →
     ∃ node, Hypergeometric_init draw k scope (Some 0%Z) (Some 0%Z) (Some 0%Z)
             = Ok (node, k)).
Proof.
  intros Hdraw. split_and!.
  - intros N M n _. unfold Hypergeometric_init. split.
    + intros [out Hout].
      destruct (decide (length scope ≠ 1)) as [|Hscope]; [done|].
      cbn [mbind res_bind] in Hout.
      pose proof (Hypergeometric_set_params_inv
                    (Hypergeometric.mk scope None None None) N M n) as Hset.
      destruct (Hypergeometric_set_params _ N M n); [|done..].
      split; [|tauto]. destruct (decide (length scope = 1)); done.
    + intros (Hscope & HM & Hn). rewrite decide_False by (by intros ?).
      cbn [mbind res_bind]. rewrite Hypergeometric_set_params_Ok by lia. eauto.
  - intros Hscope. unfold Hypergeometric_init, np_random_randint.
    rewrite decide_False by (by intros ?).
    rewrite (decide_True (P := (1 < 100)%Z)) by lia. cbn [mbind res_bind].
    pose proof (Hdraw k 1%Z 100%Z ltac:(lia)) as HN.
    rewrite (decide_True (P := (0 < draw k 1 100)%Z)) by lia. cbn [mbind res_bind].
    rewrite (decide_True (P := (0 < draw k 1 100)%Z)) by lia. cbn [mbind res_bind].
    pose proof (Hdraw (S k) 0%Z (draw k 1%Z 100%Z) ltac:(lia)) as HM.
    pose proof (Hdraw (S (S k)) 0%Z (draw k 1%Z 100%Z) ltac:(lia)) as Hn.
    rewrite Hypergeometric_set_params_Ok by lia. cbn [mbind res_bind].
    eexists _, _, _, _. split_and!; [done|done|lia..].
  - intros oM on Hnone. unfold Hypergeometric_init, np_random_randint.
    destruct (decide (length scope ≠ 1)) as [|Hscope]; [done|]. cbn [mbind res_bind].
    destruct oM as [M|]; cbn [mbind res_bind]; [|done].
    destruct on as [n|]; cbn [mbind res_bind]; [|done].
    by destruct Hnone.
  - intros Hscope. unfold Hypergeometric_init. rewrite decide_False by (by intros ?).
    cbn [mbind res_bind]. rewrite Hypergeometric_set_params_Ok by lia. eauto.
Qed.

Lemma hypergeometric_init_returns_witness :
  in_range lowest
  ∧ (∀ N M n,
       (N < 2 ^ 63)%Z →
       (∃ out, Hypergeometric_init lowest 0 [0%Z] (Some N) (Some M) (Some n) = Ok out)
       ↔ length [0%Z] = 1 ∧ (0 ≤ M ≤ N)%Z ∧ (0 ≤ n ≤ N)%Z)
  ∧ (length [0%Z] = 1 →
     ∃ node N M n,
       Hypergeometric_init lowest 0 [0%Z] None None None = Ok (node, 3 + 0)
       ∧ Hypergeometric_get_params node = (Some N, Some M, Some n)
       ∧ (1 ≤ N < 100)%Z ∧ (0 ≤ M < N)%Z ∧ (0 ≤ n < N)%Z)
  ∧ (∀ oM on, oM = None ∨ on = None →
     Hypergeometric_init lowest 0 [0%Z] (Some 0%Z) oM on = Raise ValueError)
  ∧ (length [0%Z] = 1 →
     ∃ node, Hypergeometric_init lowest 0 [0%Z] (Some 0%Z) (Some 0%Z) (Some 0%Z)
             = Ok (node, 0)).
Proof.
  assert (in_range lowest) as Hdraw by (intros k low high; unfold lowest; lia).
  exact (conj Hdraw (hypergeometric_init_returns lowest 0 [0%Z] Hdraw)).
Defined.

(** ** Failures of the Gaussian likelihood *)

Section gaussian_failures.
Context {F : Type}.
Variable isnan : F → bool.
Variable float_repr : F → string.

Lemma gaussian_unset_RecursionError depth (node : Gaussian.t F) :
  Gaussian.mean node = None ∨ Gaussian.stdev node = None →
  Gaussian.get_scipy_object_parameters float_repr depth node = Raise RecursionError.
Proof.
  intros Hunset. induction depth as [depth IH] using lt_wf_ind.
  destruct depth as [|depth]; [done|].
  assert (match depth with
          | 0 => Raise RecursionError
          | S depth =>
            parameters ← Gaussian.get_scipy_object_parameters float_repr depth node;
            Ok (ParametricLeaf_str "Gaussian" (Gaussian.scope node)
                  (prod_map id float_repr <$> parameters))
          end = Raise RecursionError) as Hstr.
  { destruct depth as [|depth]; [done|]. by rewrite IH by lia. }
  cbn [Gaussian.get_scipy_object_parameters]. rewrite Hstr.
  destruct (Gaussian.mean node); [|done].
  destruct (Gaussian.stdev node); [|done].
  naive_solver.
Qed.

Lemma axis_index_out_of_range D s :
  (s < - Z.of_nat D ∨ Z.of_nat D ≤ s)%Z → axis_index D s = Raise IndexError.
Proof. intros Hs. unfold axis_index. by rewrite !decide_False by lia. Qed.

Lemma take_columns_out_of_range (data : Gaussian.ndarray F) (scope : list Z) :
  Exists (λ s, (s < - Z.of_nat (Gaussian.ncols data) ∨ Z.of_nat (Gaussian.ncols data) ≤ s)%Z)
         scope →
  Gaussian.take_columns data scope = Raise IndexError.
Proof.
  intros Hex. unfold Gaussian.take_columns.
  assert (∀ ks, for_each (λ s ks, k ← axis_index (Gaussian.ncols data) s; Ok (ks ++ [k]))
                  scope ks = Raise IndexError) as ->; [|done].
  induction Hex as [s scope Hs|s scope _ IH]; intros ks; cbn [for_each].
  - by rewrite (axis_index_out_of_range _ _ Hs).
  - destruct (axis_index (Gaussian.ncols data) s) as [col|e|] eqn:Hs; cbn [mbind res_bind].
    + apply IH.
    + unfold axis_index in Hs. repeat case_decide; congruence.
    + unfold axis_index in Hs. repeat case_decide; congruence.
Qed.

(** X16.  How the Gaussian likelihoods fail.  When a variable of the scope
    of the leaf is not a column of the data (counting from the end for a
    negative index), [node_likelihood] and [node_log_likelihood] raise
    IndexError, whatever the parameters.  When the column exists and the mean
    or the standard deviation of the leaf is [None], both raise
    RecursionError: the message of the InvalidParametersError that
    [get_scipy_object_parameters] means to raise formats the node, which asks
    for the parameters again. *)
Theorem gaussian_likelihood_failures (one zero : F) (pdf logpdf : F → list (string * F) → F)
    (depth : nat) (node : Gaussian.t F) (data : Gaussian.ndarray F) :
  (Exists (λ s, (s < - Z.of_nat (Gaussian.ncols data)
                 ∨ Z.of_nat (Gaussian.ncols data) ≤ s)%Z) (Gaussian.scope node) →
   Gaussian.node_likelihood isnan one float_repr pdf depth node data = Raise IndexError
   ∧ Gaussian.node_log_likelihood isnan zero float_repr logpdf depth node data
     = Raise IndexError)
  ∧ (∀ s col,
       Gaussian.scope node = [s] →
       axis_index (Gaussian.ncols data) s = Ok col →
       Forall (λ row, length row = Gaussian.ncols data) (Gaussian.rows data) →
       Gaussian.mean node = None ∨ Gaussian.stdev node = None →
       Gaussian.node_likelihood isnan one float_repr pdf depth node data
       = Raise RecursionError
       ∧ Gaussian.node_log_likelihood isnan zero float_repr logpdf depth node data
         = Raise RecursionError).
Proof.
  split.
  - intros Hex. unfold Gaussian.node_likelihood, Gaussian.node_log_likelihood.
    by rewrite (take_columns_out_of_range data _ Hex).
  - intros s col Hscope Hcol Hrows Hunset.
    destruct (column_exists (Gaussian.rows data) _ col Hrows (axis_index_lt _ _ _ Hcol))
      as [xs Hxs].
    unfold Gaussian.node_likelihood, Gaussian.node_log_likelihood.
    rewrite Hscope, (take_columns_single data s col xs Hcol Hxs). cbn [mbind res_bind].
    by rewrite (gaussian_unset_RecursionError depth node Hunset).
Qed.

End gaussian_failures.

Lemma gaussian_likelihood_failures_witness :
  Exists (λ s, (s < - Z.of_nat (Gaussian.ncols nan_column)
                ∨ Z.of_nat (Gaussian.ncols nan_column) ≤ s)%Z)
         (Gaussian.scope no_such_column)
  ∧ Gaussian.node_likelihood is_None (Some 1) (λ _, ""%string) shifted 3
      no_such_column nan_column = Raise IndexError
  ∧ Gaussian.scope stdev_unset = [0%Z]
  ∧ axis_index (Gaussian.ncols nan_column) 0 = Ok 0
  ∧ Forall (λ row, length row = Gaussian.ncols nan_column) (Gaussian.rows nan_column)
  ∧ (Gaussian.mean stdev_unset = None ∨ Gaussian.stdev stdev_unset = None)
  ∧ Gaussian.node_log_likelihood is_None (Some 0) (λ _, ""%string) shifted 3
      stdev_unset nan_column = Raise RecursionError.
Proof.
  assert (Exists (λ s, (s < - Z.of_nat (Gaussian.ncols nan_column)
                        ∨ Z.of_nat (Gaussian.ncols nan_column) ≤ s)%Z)
                 (Gaussian.scope no_such_column)) as Hex
    by (apply Exists_cons_hd; simpl; lia).
  assert (Forall (λ row, length row = Gaussian.ncols nan_column) (Gaussian.rows nan_column))
    as Hrows by (by repeat constructor).
  refine (conj Hex (conj _ (conj eq_refl (conj eq_refl (conj Hrows
            (conj (or_intror eq_refl) _)))))).
  - exact (proj1 (proj1 (gaussian_likelihood_failures is_None (λ _, ""%string)
                           (Some 1) (Some 0) shifted shifted 3 no_such_column nan_column)
                    Hex)).
  - exact (proj2 (proj2 (gaussian_likelihood_failures is_None (λ _, ""%string)
                           (Some 1) (Some 0) shifted shifted 3 stdev_unset nan_column)
                    0%Z 0 eq_refl eq_refl Hrows (or_intror eq_refl))).
Defined.

(** ** Construction of a Gaussian leaf *)

Section gaussian_construction_facts.
Context {F : Type}.
Variables isfinite le_zero ge_one : F → bool.
Variable float_repr : F → string.
Variable pdf : F → list (string * F) → F.
Variable uniform : nat → F → F → F.
Variables minus_one one three : F.

(** X17.  [Gaussian(scope, mean, stdev)] with one variable in the scope
    and parameters given.  Parameters that are not finite, or a standard
    deviation that is not above 0.0, give ValueError.  Otherwise the outcome
    depends on the density at the mean: below 1.0 the leaf is returned with
    the parameters given, nothing is printed, and
    [get_scipy_object_parameters] returns them as loc and scale; at 1.0 or
    above the constructor fails with AttributeError, because the warning
    formats the node before [mean] and [stdev] are assigned.  On a leaf that
    has its parameters, [set_params] with such values prints one line, the
    warning with the text of the node under its old parameters and then the
    new mean and standard deviation, and assigns the new ones. *)
Theorem gaussian_init_outcome (depth k : nat) (scope : list Z) (mean stdev : F) :
  length scope = 1 →
  let density := pdf mean [("loc"%string, mean); ("scale"%string, stdev)] in
  let init := Gaussian_init isfinite le_zero ge_one float_repr pdf uniform
                minus_one one three (S depth) k scope (Some mean) (Some stdev) in
  (isfinite mean = false ∨ isfinite stdev = false ∨ le_zero stdev = true →
   init = Raise ValueError)
  ∧ (isfinite mean = true → isfinite stdev = true → le_zero stdev = false →
     (ge_one density = false →
      init = Ok (Gaussian.mk scope (Some mean) (Some stdev), [], k)
      ∧ ∀ d, Gaussian.get_scipy_object_parameters float_repr (S d)
               (Gaussian.mk scope (Some mean) (Some stdev))
             = Ok [("loc"%string, mean); ("scale"%string, stdev)])
     ∧ (ge_one density = true →
        init = Raise AttributeError
        ∧ ∀ old_mean old_stdev,
            Gaussian_set_params isfinite le_zero ge_one float_repr pdf (S (S depth))
              (Built (Gaussian.mk scope (Some old_mean) (Some old_stdev))) mean stdev
            = Ok (Gaussian.mk scope (Some mean) (Some stdev),
                  ["Warning: 'Degenerated' PDF! Density at node.mean is greater than 1.0! Node: "
                   +:+ ParametricLeaf_str "Gaussian" scope
                         [("loc"%string, float_repr old_mean);
                          ("scale"%string, float_repr old_stdev)]
                   +:+ ", mean: " +:+ float_repr mean
                   +:+ ", stdev: " +:+ float_repr stdev]))).
Proof.
  intros Hscope density init. subst init.
  unfold Gaussian_init, Gaussian_set_params. rewrite decide_False by (by intros ?).
  split.
  - intros [Hm|[Hs|Hz]].
    + by rewrite Hm.
    + rewrite Hs, andb_false_r. done.
    + destruct (negb (isfinite mean && isfinite stdev)); [done|]. by rewrite Hz.
  - intros Hm Hs Hz. rewrite Hm, Hs, Hz. cbn [andb negb]. fold density. split.
    + intros Hd. rewrite Hd. done.
    + intros Hd. rewrite Hd. split; [done|].
      intros old_mean old_stdev. cbn [Gaussian_str Gaussian_self_scope].
      cbn [Gaussian.get_scipy_object_parameters Gaussian.mean Gaussian.stdev
           Gaussian.scope mbind res_bind]. reflexivity.
Qed.

End gaussian_construction_facts.

Lemma gaussian_init_outcome_witness :
  length [0%Z] = 1
  ∧ Q_le_zero (1 # 10) = false
  ∧ Q_ge_one (inverse_scale 0 [("loc"%string, 0%Q); ("scale"%string, (1 # 10)%Q)]) = true
  ∧ Gaussian_init (λ _, true) Q_le_zero Q_ge_one (λ _, ""%string) inverse_scale
      (λ _ low _, low) (- (1))%Q 1%Q 3%Q 3 0 [0%Z] (Some 0%Q) (Some (1 # 10)%Q)
    = Raise AttributeError
  ∧ Q_ge_one (inverse_scale 0 [("loc"%string, 0%Q); ("scale"%string, 2%Q)]) = false
  ∧ Gaussian_init (λ _, true) Q_le_zero Q_ge_one (λ _, ""%string) inverse_scale
      (λ _ low _, low) (- (1))%Q 1%Q 3%Q 3 0 [0%Z] (Some 0%Q) (Some 2%Q)
    = Ok (Gaussian.mk [0%Z] (Some 0%Q) (Some 2%Q), [], 0)
  ∧ Gaussian_set_params (λ _, true) Q_le_zero Q_ge_one (λ _, ""%string) inverse_scale 4
      (Built (Gaussian.mk [0%Z] (Some 1%Q) (Some 2%Q))) 0%Q (1 # 10)%Q
    = Ok (Gaussian.mk [0%Z] (Some 0%Q) (Some (1 # 10)%Q),
          ["Warning: 'Degenerated' PDF! Density at node.mean is greater than 1.0! Node: "
           +:+ ParametricLeaf_str "Gaussian" [0%Z]
                 [("loc"%string, EmptyString); ("scale"%string, EmptyString)]
           +:+ ", mean: " +:+ EmptyString +:+ ", stdev: " +:+ EmptyString]).
Proof.
  refine (conj eq_refl (conj eq_refl (conj eq_refl (conj _ (conj eq_refl (conj _ _)))))).
  - exact (proj1 (proj2 (proj2 (gaussian_init_outcome (λ _, true) Q_le_zero Q_ge_one
                                  (λ _, ""%string) inverse_scale (λ _ low _, low)
                                  (- (1))%Q 1%Q 3%Q 2 0 [0%Z] 0%Q (1 # 10)%Q eq_refl)
                           eq_refl eq_refl eq_refl) eq_refl)).
  - exact (proj1 (proj1 (proj2 (gaussian_init_outcome (λ _, true) Q_le_zero Q_ge_one
                                  (λ _, ""%string) inverse_scale (λ _ low _, low)
                                  (- (1))%Q 1%Q 3%Q 2 0 [0%Z] 0%Q 2%Q eq_refl)
                           eq_refl eq_refl eq_refl) eq_refl)).
  - exact (proj2 (proj2 (proj2 (gaussian_init_outcome (λ _, true) Q_le_zero Q_ge_one
                                  (λ _, ""%string) inverse_scale (λ _ low _, low)
                                  (- (1))%Q 1%Q 3%Q 2 0 [0%Z] 0%Q (1 # 10)%Q eq_refl)
                           eq_refl eq_refl eq_refl) eq_refl) 1%Q 2%Q).
Defined.

(** X18.  Two ISumNodes with the same scope and the same children, each
    child equal to itself, are compared by their weights alone.  With as many
    weights on both sides, [a.equals(b)] is True exactly when [np.isclose]
    holds of every pair of weights.  When the numbers of weights differ and
    neither is 1, [np.allclose] cannot broadcast and [equals] raises
    ValueError instead of returning False; when they differ and one of the
    two has a single weight, [equals] returns False. *)
Theorem equals_sum_weights (np : numpy) (h : store) (depth a b : nat)
    (w1 w2 : list pyfloat) :
  type_of h a = cISumNode → type_of h b = cISumNode →
  scope_of h a = scope_of h b →
  children_of h a = children_of h b →
  (∀ c, c ∈ children_of h a → equals np depth h c c = Ok true) →
  weights (h !!! a) = Some w1 → weights (h !!! b) = Some w2 →
  (length w1 = length w2 →
   equals np (S depth) h a b = Ok (forallb (λ p, np_isclose np p.1 p.2) (zip w1 w2)))
  ∧ (length w1 ≠ length w2 → length w1 ≠ 1 → length w2 ≠ 1 →
     equals np (S depth) h a b = Raise ValueError)
  ∧ (length w1 ≠ length w2 → length w1 = 1 ∨ length w2 = 1 →
     equals np (S depth) h a b = Ok false).
Proof.
  intros Ha Hb Hscope Hch Hself Hw1 Hw2.
  assert (equals np (S depth) h a b
          = (c ← allclose np w1 w2;
             if c : bool then Ok (bool_decide (length w1 = length w2)) else Ok false)) as Heq.
  { rewrite equals_S. cbn zeta. rewrite Ha, Hb.
    rewrite (decide_True (P := cISumNode = cISumNode)) by done.
    rewrite (decide_True (P := scope_of h a = scope_of h b)) by done.
    rewrite <- Hch. rewrite (proj2 (all_map_diag (equals np depth h) (children_of h a)) Hself).
    cbn [mbind res_bind]. unfold getattr_weights. rewrite Hw1, Hw2.
    replace (issubclass cISumNode cISumNode) with true by done. done. }
  split_and!.
  - intros Hlen. rewrite Heq.
    assert (allclose np w1 w2 = Ok (forallb (λ p, np_isclose np p.1 p.2) (zip w1 w2))) as ->.
    { unfold allclose.
      destruct w1 as [|x1 [|y1 w1]]; destruct w2 as [|x2 [|y2 w2]]; simpl in Hlen |- *;
        try done; try lia.
      destruct (decide _) as [|Hne]; [done|]. destruct Hne. simpl. lia. }
    cbn [mbind res_bind]. rewrite bool_decide_true by done.
    by destruct (forallb _ _).
  - intros Hlen H1 H2. rewrite Heq. unfold allclose.
    destruct w1 as [|x1 [|y1 w1]]; destruct w2 as [|x2 [|y2 w2]]; simpl in *; try done;
      by rewrite decide_False.
  - intros Hlen Hone. rewrite Heq.
    assert (∃ c, allclose np w1 w2 = Ok c) as [c ->].
    { unfold allclose.
      destruct w1 as [|x1 [|y1 w1]]; destruct w2 as [|x2 [|y2 w2]]; simpl in *;
        try (by eexists); destruct Hone; done. }
    cbn [mbind res_bind]. rewrite bool_decide_false by done. by destruct c.
Qed.

Lemma equals_sum_weights_witness :
  type_of two_mixtures 2 = cISumNode ∧ type_of two_mixtures 3 = cISumNode
  ∧ scope_of two_mixtures 2 = scope_of two_mixtures 3
  ∧ children_of two_mixtures 2 = children_of two_mixtures 3
  ∧ (∀ c, c ∈ children_of two_mixtures 2 → equals exact_numpy 4 two_mixtures c c = Ok true)
  ∧ weights (two_mixtures !!! 2) = Some [Finite (1 # 2); Finite (1 # 2)]
  ∧ weights (two_mixtures !!! 3) = Some [Finite (1 # 5); Finite (3 # 10); Finite (1 # 2)]
  ∧ equals exact_numpy 5 two_mixtures 2 3 = Raise ValueError.
Proof.
  assert (∀ c, c ∈ children_of two_mixtures 2 →
               equals exact_numpy 4 two_mixtures c c = Ok true) as Hself.
  { intros c Hc. apply elem_of_cons in Hc as [->|Hc]; [done|].
    apply elem_of_cons in Hc as [->|Hc]; [done|]. by apply elem_of_nil in Hc. }
  refine (conj eq_refl (conj eq_refl (conj eq_refl (conj eq_refl (conj Hself
            (conj eq_refl (conj eq_refl _))))))).
  refine (proj1 (proj2 (equals_sum_weights exact_numpy two_mixtures 4 2 3 _ _
                          eq_refl eq_refl eq_refl eq_refl Hself eq_refl eq_refl)) _ _ _);
    simpl; lia.
Defined.

(** ** Collecting the leaves *)

Lemma filter_ext_in {A} (P Q : A → Prop) `{!∀ x, Decision (P x)} `{!∀ x, Decision (Q x)}
    (l : list A) :
  (∀ x, x ∈ l → P x ↔ Q x) → filter P l = filter Q l.
Proof.
  induction l as [|x l IH]; intros Hext; [done|].
  rewrite !filter_cons.
  rewrite IH by (intros y Hy; apply Hext; by right).
  destruct (decide (P x)) as [HP|HP], (decide (Q x)) as [HQ|HQ]; try done.
  - destruct HQ. apply Hext; [by left|done].
  - destruct HP. apply Hext; [by left|done].
Qed.

Lemma list_remove_spec x l :
  NoDup l → x ∈ l → list_remove x l = Ok (filter (λ y, y ≠ x) l).
Proof.
  induction l as [|y l IH]; intros Hnd Hin; [by apply elem_of_nil in Hin|].
  apply NoDup_cons in Hnd as [Hy Hnd]. simpl. rewrite filter_cons.
  destruct (decide (y = x)) as [->|Hne].
  - rewrite decide_False by (by intros ?). f_equal.
    rewrite (filter_ext_in (λ y, y ≠ x) (λ _, True) l) by (intros z Hz; split; [done|];
      intros _ ->; done).
    symmetry. clear. induction l as [|z l IH]; [done|].
    by rewrite filter_cons, decide_True, IH.
  - rewrite decide_True by done. rewrite IH; [done|done|].
    apply elem_of_cons in Hin as [->|Hin]; done.
Qed.

Lemma prune_all cs rest :
  NoDup cs →
  ∀ processed, NoDup (processed ++ rest) →
  for_each (prune cs) rest (filter (λ c, c ∉ processed) cs)
  = Ok (filter (λ c, c ∉ processed ++ rest) cs).
Proof.
  intros Hcs. induction rest as [|rem rest IH]; intros processed Hnd.
  - simpl. by rewrite app_nil_r.
  - assert (prune cs rem (filter (λ c, c ∉ processed) cs)
            = Ok (filter (λ c, c ∉ processed ++ [rem]) cs)) as Hstep.
    { unfold prune. destruct (decide (rem ∈ cs)) as [Hin|Hout].
      - rewrite list_remove_spec.
        + f_equal. rewrite list_filter_filter. apply filter_ext_in.
          intros y _. rewrite not_elem_of_app, list_elem_of_singleton. tauto.
        + by apply NoDup_filter.
        + apply list_elem_of_filter. split; [|done].
          apply NoDup_app in Hnd as (_ & Hdisj & _). intros Hp.
          apply (Hdisj rem Hp). by left.
      - f_equal. apply filter_ext_in. intros y Hy.
        rewrite not_elem_of_app, list_elem_of_singleton.
        split; [|tauto]. intros Hp. split; [done|]. by intros ->. }
    cbn [for_each]. rewrite Hstep. cbn [mbind res_bind].
    rewrite IH by (by rewrite <- app_assoc). by rewrite <- app_assoc.
Qed.

Lemma sum_list_with_filter_le {A} (f : A → nat) (P : A → Prop) `{!∀ x, Decision (P x)}
    (l : list A) :
  sum_list_with f (filter P l) ≤ sum_list_with f l.
Proof.
  induction l as [|x l IH]; [done|]. rewrite filter_cons.
  destruct (decide (P x)); simpl; lia.
Qed.

Section get_leaf_nodes_facts.
Variable h : store.
Variable rank : nat → nat.
Hypothesis rank_child : ∀ m c, child h m c → rank c < rank m.
Hypothesis children_NoDup : ∀ m, NoDup (children_of h m).

Lemma weight_stable f :
  ∀ f' n, rank n < f → rank n < f' → weight f h n = weight f' h n.
Proof.
  induction f as [|f IH]; intros f' n Hf Hf'; [lia|]. destruct f' as [|f']; [lia|].
  simpl. f_equal.
  assert (∀ cs, (∀ c, c ∈ cs → child h n c) →
            sum_list_with (weight f h) cs = sum_list_with (weight f' h) cs) as Hsum.
  { induction cs as [|c cs IHcs]; intros Hcs; [done|]. simpl.
    rewrite IHcs by (intros c' Hc'; apply Hcs; by right).
    rewrite (IH f' c); [done|..];
      pose proof (rank_child n c (Hcs c ltac:(by left))); lia. }
  by apply Hsum.
Qed.

Lemma weight_unfold n :
  weight (S (rank n)) h n
  = S (sum_list_with (λ c, weight (S (rank c)) h c) (children_of h n)).
Proof.
  simpl. f_equal.
  assert (∀ cs, (∀ c, c ∈ cs → child h n c) →
            sum_list_with (weight (rank n) h) cs
            = sum_list_with (λ c, weight (S (rank c)) h c) cs) as Hsum.
  { induction cs as [|c cs IHcs]; intros Hcs; [done|]. simpl.
    rewrite IHcs by (intros c' Hc'; apply Hcs; by right).
    rewrite (weight_stable (rank n) (S (rank c)) c); [done| |lia].
    apply rank_child, Hcs. by left. }
  by apply Hsum.
Qed.

Lemma get_leaf_nodes_loop_spec (root : nat) fuel :
  ∀ nodes leaves,
  sum_list_with (λ c, weight (S (rank c)) h c) nodes ≤ fuel →
  NoDup nodes →
  (∀ x, x ∈ nodes → rtc (child h) root x) →
  (∀ x, x ∈ leaves → rtc (child h) root x ∧ isinstance h x cILeafNode = true) →
  (∀ x, rtc (child h) root x → isinstance h x cILeafNode = true →
        x ∈ leaves ∨ ∃ q, q ∈ nodes ∧ rtc (child h) q x) →
  ∃ leaves',
    get_leaf_nodes_loop fuel h nodes leaves = Ok leaves'
    ∧ ∀ x, x ∈ leaves' ↔ rtc (child h) root x ∧ isinstance h x cILeafNode = true.
Proof.
  induction fuel as [|fuel IH]; intros nodes leaves Hfuel Hnd Hreach Hsound Hcompl.
  - destruct nodes as [|node nodes].
    + exists leaves. split; [done|]. intros x. split; [apply Hsound|].
      intros [Hx Hl]. destruct (Hcompl x Hx Hl) as [|(q & Hq & _)]; [done|].
      by apply elem_of_nil in Hq.
    + simpl in Hfuel. lia.
  - destruct nodes as [|node nodes].
    + exists leaves. split; [done|]. intros x. split; [apply Hsound|].
      intros [Hx Hl]. destruct (Hcompl x Hx Hl) as [|(q & Hq & _)]; [done|].
      by apply elem_of_nil in Hq.
    + cbn [get_leaf_nodes_loop]. apply NoDup_cons in Hnd as [Hnode Hnd].
      pose proof (prune_all (children_of h node) nodes (children_NoDup node) [] Hnd) as Hpr.
      rewrite (filter_ext_in (λ c, c ∉ []) (λ _, True)) in Hpr
        by (intros y _; split; [done|]; intros _ ?%elem_of_nil; done).
      assert (filter (λ _ : nat, True) (children_of h node) = children_of h node) as Hall.
      { generalize (children_of h node). induction l as [|z l IHl]; [done|].
        by rewrite filter_cons, decide_True, IHl. }
      rewrite Hall in Hpr. rewrite Hpr. cbn [mbind res_bind app]. clear Hpr Hall.
      set (ext := filter (λ c, c ∉ nodes) (children_of h node)).
      assert (rtc (child h) root node) as Hrn by (apply Hreach; by left).
      apply IH.
      * cbn [sum_list_with] in Hfuel. rewrite weight_unfold in Hfuel.
        rewrite sum_list_with_app.
        pose proof (sum_list_with_filter_le (λ c, weight (S (rank c)) h c)
                      (λ c, c ∉ nodes) (children_of h node)) as Hle.
        fold ext in Hle. lia.
      * apply NoDup_app. split_and!; [done| |by apply NoDup_filter].
        intros x Hx Hext. by apply list_elem_of_filter in Hext as [? _].
      * intros x [Hx|Hx]%elem_of_app; [apply Hreach; by right|].
        apply list_elem_of_filter in Hx as [_ Hx]. by eapply rtc_r.
      * intros x Hx. unfold isinstance in *.
        destruct (issubclass (type_of h node) cILeafNode) eqn:Hleaf; [|by apply Hsound].
        apply elem_of_app in Hx as [Hx|Hx]; [by apply Hsound|].
        apply list_elem_of_singleton in Hx as ->. done.
      * intros x Hx Hl.
        destruct (Hcompl x Hx Hl) as [Hin|(q & Hq & Hqx)].
        { left. destruct (issubclass (type_of h node) cILeafNode); [|done].
          apply elem_of_app. by left. }
        apply elem_of_cons in Hq as [->|Hq].
        -- apply rtc_inv in Hqx as [->|(c & Hc & Hcx)].
           ++ left. unfold isinstance in Hl. rewrite Hl. apply elem_of_app. right. by left.
           ++ right. exists c. split; [|done]. apply elem_of_app.
              destruct (decide (c ∈ nodes)); [by left|right].
              by apply list_elem_of_filter.
        -- right. exists q. split; [|done]. apply elem_of_app. by left.
Qed.

(** X19.  When there is no cycle through [children] and no node has the
    same child twice, [_get_leaf_nodes] on a root returns (the loop ends) a
    list that holds exactly the nodes below the root whose class derives from
    ILeafNode, the root included if it is one. *)
Theorem get_leaf_nodes_correct (root : nat) :
  ∃ fuel0, ∀ fuel, fuel0 ≤ fuel →
    ∃ leaves,
      _get_leaf_nodes fuel h [root] = Ok leaves
      ∧ ∀ x, x ∈ leaves ↔ rtc (child h) root x ∧ isinstance h x cILeafNode = true.
Proof.
  exists (weight (S (rank root)) h root). intros fuel Hfuel.
  apply get_leaf_nodes_loop_spec.
  - simpl in *. lia.
  - apply NoDup_singleton.
  - intros x ->%list_elem_of_singleton. apply rtc_refl.
  - intros x Hx. by apply elem_of_nil in Hx.
  - intros x Hx _. right. exists root. split; [by left|done].
Qed.

End get_leaf_nodes_facts.

Lemma get_leaf_nodes_correct_witness :
  (∀ m c, child mixture m c → id c < id m)
  ∧ (∀ m, NoDup (children_of mixture m))
  ∧ ∃ fuel0, ∀ fuel, fuel0 ≤ fuel →
      ∃ leaves,
        _get_leaf_nodes fuel mixture [3] = Ok leaves
        ∧ ∀ x, x ∈ leaves ↔ rtc (child mixture) 3 x ∧ isinstance mixture x cILeafNode = true.
Proof.
  assert (∀ m c, child mixture m c → id c < id m) as Hrank.
  { intros m c. unfold child, children_of. rewrite list_lookup_total_alt.
    destruct m as [|[|[|[|m]]]]; simpl; intros Hc;
      repeat (apply elem_of_cons in Hc as [->|Hc]; [unfold id; lia|]);
      by apply elem_of_nil in Hc. }
  assert (∀ m, NoDup (children_of mixture m)) as Hnd.
  { intros m. unfold children_of. rewrite list_lookup_total_alt.
    destruct m as [|[|[|[|m]]]]; simpl; by apply (bool_decide_unpack _). }
  exact (conj Hrank (conj Hnd (get_leaf_nodes_correct mixture id Hrank Hnd 3))).
Defined.

(** ** Bernoulli and Binomial leaves *)

Lemma probability_check (x : pyfloat) :
  float_lt x (Finite 0) || float_gt x (Finite 1) || negb (np_isfinite x) = false
  ↔ probability x.
Proof.
  unfold probability, float_gt. destruct x as [q|negative|]; cbn [float_lt np_isfinite].
  - split.
    + intros H. rewrite orb_false_r in H. apply orb_false_iff in H as [H1 H2].
      apply negb_false_iff in H1, H2. apply Qle_bool_iff in H1, H2. by exists q.
    + intros (q' & [= <-] & H1 & H2). apply Qle_bool_iff in H1, H2. by rewrite H1, H2.
  - split; [by destruct negative|]. by intros (? & ? & _).
  - split; [done|]. by intros (? & ? & _).
Qed.

Lemma uniform_probability draw k :
  uniform_in_range draw → probability (np_random_uniform draw k 0 1).1.
Proof.
  intros Hdraw. destruct (Hdraw k 0%Q 1%Q) as [Hlo Hhi]; [done|].
  exists (draw k 0%Q 1%Q). split_and!; [done|done|by apply Qlt_le_weak].
Qed.

Section bernoulli_facts.
Variable float_repr : pyfloat → string.

Lemma bernoulli_set_params_spec (self : Bernoulli.t) vp :
  match Bernoulli.set_params self vp with
  | Ok node => node = Bernoulli.mk (Bernoulli.scope self) (Some vp) ∧ probability vp
  | Raise e => e = ValueError ∧ ¬ probability vp
  | Diverge => False
  end.
Proof.
  unfold Bernoulli.set_params. pose proof (probability_check vp) as Hp.
  destruct (_ || _ || _).
  - split; [done|]. intros Hpr. by apply Hp in Hpr.
  - split; [done|]. by apply Hp.
Qed.

Lemma bernoulli_unset_RecursionError depth (node : Bernoulli.t) :
  Bernoulli.p node = None →
  Bernoulli.get_scipy_object_parameters float_repr depth node = Raise RecursionError.
Proof.
  intros Hunset. induction depth as [depth IH] using lt_wf_ind.
  destruct depth as [|depth]; [done|].
  cbn [Bernoulli.get_scipy_object_parameters]. rewrite Hunset.
  destruct depth as [|depth]; [done|]. by rewrite IH by lia.
Qed.

(** X20.  [Bernoulli(scope, p)] raises nothing but ValueError.  With [p]
    given it returns exactly when the scope has one variable and [p] is a
    finite number between 0.0 and 1.0 (NaN and the infinities are rejected);
    with [p] left out it returns whenever the scope has one variable.  A leaf
    it returns holds a probability, which [get_params] returns and
    [get_scipy_object_parameters] returns under the key p; once [p] is set to
    [None], [get_scipy_object_parameters] raises RecursionError. *)
Theorem bernoulli_init_outcome (draw : nat → Q → Q → Q) (k : nat) (scope : list Z)
    (vp : option pyfloat) :
  uniform_in_range draw →
  match Bernoulli.init draw k scope vp with
  | Ok (node, k') =>
    length scope = 1
    ∧ Bernoulli.scope node = scope
    ∧ (∃ x, Bernoulli.get_params node = Some x ∧ probability x
            ∧ (∀ y, vp = Some y → x = y)
            ∧ ∀ depth, Bernoulli.get_scipy_object_parameters float_repr (S depth) node
                       = Ok [("p"%string, x)])
    ∧ ∀ depth, Bernoulli.get_scipy_object_parameters float_repr depth
                 (Bernoulli.mk (Bernoulli.scope node) None)
               = Raise RecursionError
  | Raise e =>
    e = ValueError ∧ (length scope ≠ 1 ∨ ∃ y, vp = Some y ∧ ¬ probability y)
  | Diverge => False
  end.
Proof.
  intros Hdraw. unfold Bernoulli.init.
  destruct (decide (length scope ≠ 1)) as [|Hscope]; [by split; [|left]|].
  assert (length scope = 1) as Hlen by (destruct (decide (length scope = 1)); done).
  destruct vp as [y|]; cbn [np_random_uniform].
  - pose proof (bernoulli_set_params_spec (Bernoulli.mk scope None) y) as Hset.
    destruct (Bernoulli.set_params _ y) as [node|e|]; cbn [mbind res_bind]; [| |done].
    + destruct Hset as [-> Hy]. split_and!; [done|done| |].
      * exists y. split_and!; [done|done|by intros ? [= ->]|done].
      * intros depth. by apply bernoulli_unset_RecursionError.
    + destruct Hset as [-> Hy]. split; [done|]. right. by exists y.
  - pose proof (bernoulli_set_params_spec (Bernoulli.mk scope None)
                  (Finite (draw k 0%Q 1%Q))) as Hset.
    pose proof (uniform_probability draw k Hdraw) as Hpr. simpl in Hpr.
    destruct (Bernoulli.set_params _ _) as [node|e|]; cbn [mbind res_bind]; [| |done].
    + destruct Hset as [-> Hy]. split_and!; [done|done| |].
      * eexists. split_and!; [done|done|done|done].
      * intros depth. by apply bernoulli_unset_RecursionError.
    + by destruct Hset as [_ []].
Qed.

Lemma binomial_set_params_spec (self : Binomial.t) vn vp :
  match Binomial.set_params self vn vp with
  | Ok node =>
    node = Binomial.mk (Binomial.scope self) (Some vn) (Some vp)
    ∧ probability vp ∧ (0 ≤ vn)%Z
  | Raise e => e = ValueError ∧ ¬ (probability vp ∧ (0 ≤ vn)%Z)
  | Diverge => False
  end.
Proof.
  unfold Binomial.set_params. pose proof (probability_check vp) as Hp.
  destruct (_ || _ || _).
  - split; [done|]. intros [Hpr _]. by apply Hp in Hpr.
  - destruct (decide (vn < 0)%Z); [split; [done|lia]|].
    split_and!; [done|by apply Hp|lia].
Qed.

Lemma binomial_unset_RecursionError depth (node : Binomial.t) :
  Binomial.n node = None ∨ Binomial.p node = None →
  Binomial.get_scipy_object_parameters float_repr depth node = Raise RecursionError.
Proof.
  intros Hunset. induction depth as [depth IH] using lt_wf_ind.
  destruct depth as [|depth]; [done|].
  cbn [Binomial.get_scipy_object_parameters].
  assert (match depth with
          | 0 => Raise RecursionError
          | S depth =>
            parameters ← Binomial.get_scipy_object_parameters float_repr depth node;
            Ok (ParametricLeaf_str "Binomial" (Binomial.scope node)
                  (prod_map id (λ v, match v with
                                     | inl i => pretty i
                                     | inr x => float_repr x
                                     end) <$> parameters))
          end = Raise RecursionError) as Hstr.
  { destruct depth as [|depth]; [done|]. by rewrite IH by lia. }
  rewrite Hstr.
  destruct (Binomial.n node); [|done].
  destruct (Binomial.p node); [|done].
  naive_solver.
Qed.

(** X21.  [Binomial(scope, n, p)] on an integer [n] below 2^63 raises
    nothing but ValueError.  With [n] and [p] given it returns exactly when
    the scope has one variable, [n] is not negative and [p] is a finite
    number between 0.0 and 1.0; with both left out it returns whenever the
    scope has one variable, with [n] between 1 and 10.  A leaf it returns
    holds such parameters, which [get_params] returns and
    [get_scipy_object_parameters] returns under the keys n and p; once one of
    them is set to [None], [get_scipy_object_parameters] raises
    RecursionError. *)
Theorem binomial_init_outcome (randint : nat → Z → Z → Z) (uniform : nat → Q → Q → Q)
    (k : nat) (scope : list Z) (vn : option Z) (vp : option pyfloat) :
  in_range randint → uniform_in_range uniform →
  (∀ i, vn = Some i → (i < 2 ^ 63)%Z) →
  match Binomial.init randint uniform k scope vn vp with
  | Ok (node, k') =>
    length scope = 1
    ∧ Binomial.scope node = scope
    ∧ (∃ i x, Binomial.get_params node = (Some i, Some x)
              ∧ (0 ≤ i)%Z ∧ probability x
              ∧ (∀ j, vn = Some j → i = j) ∧ (vn = None → (1 ≤ i < 11)%Z)
              ∧ (∀ y, vp = Some y → x = y)
              ∧ ∀ depth, Binomial.get_scipy_object_parameters float_repr (S depth) node
                         = Ok [("n"%string, inl i); ("p"%string, inr x)])
    ∧ ∀ depth i x,
        Binomial.get_scipy_object_parameters float_repr depth
          (Binomial.mk scope None (Some x)) = Raise RecursionError
        ∧ Binomial.get_scipy_object_parameters float_repr depth
            (Binomial.mk scope (Some i) None) = Raise RecursionError
  | Raise e =>
    e = ValueError
    ∧ (length scope ≠ 1 ∨ (∃ j, vn = Some j ∧ (j < 0)%Z) ∨ ∃ y, vp = Some y ∧ ¬ probability y)
  | Diverge => False
  end.
Proof.
  intros Hrandint Huniform _. unfold Binomial.init.
  destruct (decide (length scope ≠ 1)) as [|Hscope]; [by split; [|left]|].
  assert (length scope = 1) as Hlen by (destruct (decide (length scope = 1)); done).
  assert (∃ i k1,
    match vn with
    | None => np_random_randint randint k 1 11
    | Some vn => Ok (vn, k)
    end = Ok (i, k1)
    ∧ (∀ j, vn = Some j → i = j) ∧ (vn = None → (1 ≤ i < 11)%Z)) as (i & k1 & -> & Hi & Hi').
  { destruct vn as [j|].
    - exists j, k. split_and!; [done|by intros ? [= ->]|done].
    - unfold np_random_randint. rewrite decide_True by lia.
      eexists _, _. split_and!; [done|done|]. intros _. apply Hrandint. lia. }
  cbn [mbind res_bind].
  assert (∃ x k2,
    match vp with
    | None => np_random_uniform uniform k1 0 1
    | Some vp => (vp, k1)
    end = (x, k2)
    ∧ (∀ y, vp = Some y → x = y) ∧ (vp = None → probability x)) as (x & k2 & -> & Hx & Hx').
  { destruct vp as [y|].
    - exists y, k1. split_and!; [done|by intros ? [= ->]|done].
    - eexists _, _. split_and!; [done|done|]. intros _.
      apply (uniform_probability uniform k1 Huniform). }
  pose proof (binomial_set_params_spec (Binomial.mk scope None None) i x) as Hset.
  destruct (Binomial.set_params _ i x) as [node|e|]; cbn [mbind res_bind]; [| |done].
  - destruct Hset as (-> & Hpr & Hpos). split_and!; [done|done| |].
    + exists i, x. split_and!; done.
    + intros depth j y. split; apply binomial_unset_RecursionError; simpl; auto.
  - destruct Hset as [-> Hbad]. split; [done|]. right.
    destruct (decide (i < 0)%Z) as [Hneg|Hpos].
    + left. destruct vn as [j|]; [exists j; by rewrite (Hi j eq_refl) in Hneg|].
      specialize (Hi' eq_refl). lia.
    + right. destruct vp as [y|].
      * exists y. split; [done|]. rewrite <- (Hx y eq_refl). intros Hpr. apply Hbad.
        split; [done|lia].
      * destruct Hbad. split; [by apply Hx'|lia].
Qed.

End bernoulli_facts.

Lemma bernoulli_init_outcome_witness :
  uniform_in_range lowest_float
  ∧ match Bernoulli.init lowest_float 0 [0%Z] (Some (Finite (1 # 2))) with
    | Ok (node, k') =>
      length [0%Z] = 1
      ∧ Bernoulli.scope node = [0%Z]
      ∧ (∃ x, Bernoulli.get_params node = Some x ∧ probability x
              ∧ (∀ y, Some (Finite (1 # 2)) = Some y → x = y)
              ∧ ∀ depth, Bernoulli.get_scipy_object_parameters (λ _, ""%string) (S depth) node
                         = Ok [("p"%string, x)])
      ∧ ∀ depth, Bernoulli.get_scipy_object_parameters (λ _, ""%string) depth
                   (Bernoulli.mk (Bernoulli.scope node) None)
                 = Raise RecursionError
    | Raise e =>
      e = ValueError
      ∧ (length [0%Z] ≠ 1 ∨ ∃ y, Some (Finite (1 # 2)) = Some y ∧ ¬ probability y)
    | Diverge => False
    end.
Proof.
  assert (uniform_in_range lowest_float) as Hdraw.
  { intros k low high Hlt. unfold lowest_float. split; [apply Qle_refl|done]. }
  exact (conj Hdraw (bernoulli_init_outcome (λ _, ""%string) lowest_float 0 [0%Z]
                       (Some (Finite (1 # 2))) Hdraw)).
Defined.

Lemma binomial_init_outcome_witness :
  in_range lowest ∧ uniform_in_range lowest_float
  ∧ (∀ i, Some 5%Z = Some i → (i < 2 ^ 63)%Z)
  ∧ match Binomial.init lowest lowest_float 0 [0%Z] (Some 5%Z) None with
    | Ok (node, k') =>
      length [0%Z] = 1
      ∧ Binomial.scope node = [0%Z]
      ∧ (∃ i x, Binomial.get_params node = (Some i, Some x)
                ∧ (0 ≤ i)%Z ∧ probability x
                ∧ (∀ j, Some 5%Z = Some j → i = j)
                ∧ (Some 5%Z = None → (1 ≤ i < 11)%Z)
                ∧ (∀ y, None = Some y → x = y)
                ∧ ∀ depth, Binomial.get_scipy_object_parameters (λ _, ""%string)
                             (S depth) node
                           = Ok [("n"%string, inl i); ("p"%string, inr x)])
      ∧ ∀ depth i x,
          Binomial.get_scipy_object_parameters (λ _, ""%string) depth
            (Binomial.mk [0%Z] None (Some x)) = Raise RecursionError
          ∧ Binomial.get_scipy_object_parameters (λ _, ""%string) depth
              (Binomial.mk [0%Z] (Some i) None) = Raise RecursionError
    | Raise e =>
      e = ValueError
      ∧ (length [0%Z] ≠ 1 ∨ (∃ j, Some 5%Z = Some j ∧ (j < 0)%Z)
         ∨ ∃ y, None = Some y ∧ ¬ probability y)
    | Diverge => False
    end.
Proof.
  assert (in_range lowest) as Hrandint by (intros k low high; unfold lowest; lia).
  assert (uniform_in_range lowest_float) as Huniform.
  { intros k low high Hlt. unfold lowest_float. split; [apply Qle_refl|done]. }
  assert (∀ i, Some 5%Z = Some i → (i < 2 ^ 63)%Z) as Hfit by (intros i [= <-]; lia).
  exact (conj Hrandint (conj Huniform (conj Hfit
           (binomial_init_outcome (λ _, ""%string) lowest lowest_float 0 [0%Z]
              (Some 5%Z) None Hrandint Huniform Hfit)))).
Defined.

(** ** Failures of the bottom-up evaluation *)

(** X22.  On a closed store [eval_spn_bottom_up] returns or raises
    AssertionError, nothing else: the lookups of the children's results in
    [all_results] and of the final result never fail, and the loop ends.  It
    raises when a cycle is reachable from the root or when some reachable
    node has no handler, and only then. *)
Theorem eval_spn_bottom_up_outcome {V} (h : store) (root : nat)
    (eval_functions : gmap pyclass (bu_handler V)) :
  wf_store h root →
  match eval_spn_bottom_up h root eval_functions with
  | Ok (v, results, calls) =>
    acyclic h root ∧ ∀ n, reachable h root n → bu_applicable h eval_functions n
  | Raise e =>
    (∃ msg, e = AssertionError msg)
    ∧ (¬ acyclic h root ∨ ∃ n, reachable h root n ∧ ¬ bu_applicable h eval_functions n)
  | Diverge => False
  end.
Proof.
  intros Hwf.
  destruct (get_topological_order_run h root Hwf)
    as (nodes & L & Hnd & Hnodes & Hsorted & Hrun).
  pose proof Hsorted as (HndL & Hsub & _ & Hord).
  destruct (decide (length L = length nodes)) as [Hlen|Hlen].
  - assert (L ≡ₚ nodes) as Hperm
      by (apply submseteq_length_Permutation; [by apply NoDup_submseteq|lia]).
    assert (∀ n, n ∈ L ↔ reachable h root n) as Hmem by (intros n; by rewrite Hperm).
    assert (acyclic h root) as Hacyc.
    { intros n Hn Hcyc. by apply (kahn_sorted_cyclic h nodes L root n Hnodes Hsorted Hn Hcyc). }
    pose proof (eval_spn_bottom_up_run h root eval_functions L Hrun HndL
                  (proj2 (Hmem root) (rtc_refl _ _)) Hord) as Hbu.
    destruct (eval_spn_bottom_up h root eval_functions) as [[[v results] calls]|e|];
      [| |done].
    + destruct Hbu as (Happ & _). split; [done|]. intros n Hn.
      rewrite Forall_forall in Happ. by apply Happ, Hmem.
    + destruct Hbu as (Hmsg & Hex). split; [done|]. right.
      apply Exists_exists in Hex as (n & Hn & Hna). exists n. split; [by apply Hmem|done].
  - unfold eval_spn_bottom_up. rewrite Hrun. cbn [mbind res_bind].
    split; [by eexists|]. left. intros Hacyc. apply Hlen.
    pose proof (kahn_sorted_acyclic h nodes L root Hnodes Hsorted Hacyc) as Hall.
    apply Nat.le_antisymm; apply submseteq_length, NoDup_submseteq; done.
Qed.

Lemma eval_spn_bottom_up_outcome_witness :
  wf_store diamond 0
  ∧ match eval_spn_bottom_up diamond 0 count_leaves with
    | Ok (v, results, calls) =>
      acyclic diamond 0 ∧ ∀ n, reachable diamond 0 n → bu_applicable diamond count_leaves n
    | Raise e =>
      (∃ msg, e = AssertionError msg)
      ∧ (¬ acyclic diamond 0
         ∨ ∃ n, reachable diamond 0 n ∧ ¬ bu_applicable diamond count_leaves n)
    | Diverge => False
    end.
Proof.
  exact (conj wf_store_diamond
           (eval_spn_bottom_up_outcome diamond 0 count_leaves wf_store_diamond)).
Defined.

(** ** The handler of a leaf in the two evaluators *)

Lemma eval_spn_top_down_nodes {M} (h : store) (root : nat)
    (eval_functions : gmap pyclass (td_handler M)) (parent_result : M)
    v results calls :
  wf_store h root →
  eval_spn_top_down h root eval_functions parent_result = Ok (v, results, calls) →
  NoDup (td_node <$> calls) ∧ (∀ n, n ∈ td_node <$> calls ↔ reachable h root n).
Proof.
  intros Hwf Hrun.
  destruct (get_topological_order_layers_run h root Hwf)
    as (nodes & L & Hnd & Hnodes & Hsorted & Hlay & Hlayers).
  unfold eval_spn_top_down in Hrun. rewrite Hlayers in Hrun.
  destruct (decide (length (concat L) = length nodes)) as [Hlen|Hlen]; [|done].
  cbn [mbind res_bind] in Hrun. rewrite for_each_concat in Hrun.
  destruct (for_each _ (concat (reverse L)) _) as [[ar calls1]|e|] eqn:Hloop; [|done..].
  cbn [mbind res_bind] in Hrun. unfold getitem in Hrun.
  destruct (ar !! root) as [v1|] eqn:Hroot; [|done].
  cbn [mbind res_bind] in Hrun. injection Hrun as <- <- <-.
  apply (td_loop_trace h eval_functions (td_seed root parent_result)) in Hloop
    as (_ & _ & Hcalls & _); [|apply td_seed_init|done].
  simpl in Hcalls. rewrite Hcalls.
  pose proof Hsorted as (HndL & Hsub & _).
  assert (concat L ≡ₚ nodes) as Hperm
    by (apply submseteq_length_Permutation; [by apply NoDup_submseteq|lia]).
  split.
  - by rewrite concat_reverse_perm.
  - intros n. by rewrite concat_reverse_perm, Hperm.
Qed.

Lemma eval_spn_top_down_total {M} (h : store) (root : nat)
    (eval_functions : gmap pyclass (td_handler M)) (parent_result : M) :
  wf_store h root → acyclic h root →
  (∀ n, reachable h root n → td_applicable h eval_functions n) →
  (∀ n, reachable h root n → isinstance h n cILeafNode = false →
        td_feeds h eval_functions n) →
  ∃ v results calls,
    eval_spn_top_down h root eval_functions parent_result = Ok (v, results, calls).
Proof.
  intros Hwf Hacyc Happ Hfeeds.
  destruct (get_topological_order_layers_run h root Hwf)
    as (nodes & L & Hnd & Hnodes & Hsorted & Hlay & Hlayers).
  pose proof (kahn_sorted_acyclic h nodes (concat L) root Hnodes Hsorted Hacyc) as Hall.
  pose proof Hsorted as (HndL & Hsub & _).
  assert (∀ n, n ∈ concat (reverse L) ↔ n ∈ nodes) as Hmem.
  { intros n. rewrite concat_reverse_perm. split; [apply Hsub|apply Hall]. }
  destruct (td_loop_total h eval_functions root (concat (reverse L)))
    with (rest := concat (reverse L)) (done := @nil nat)
         (all_results := ({[root := [parent_result]]} : gmap nat (list M)))
         (calls := @nil (td_call M))
    as (results & calls & Hloop).
  { intros l1 c l2 Heq.
    assert (c ∈ nodes) as Hc by (apply Hmem; rewrite Heq; set_solver).
    apply Hnodes, rtc_inv_r in Hc as [<-|(m & Hm & Hmc)]; [by left|right].
    exists m. split; [|done].
    eapply layered_parents_first; eauto. by apply Hall, Hnodes. }
  { intros n Hn. by apply Happ, Hnodes, Hmem. }
  { intros n Hn. by apply Hfeeds, Hnodes, Hmem. }
  { done. }
  { intros c [->|(m & Hm & _)]; [by rewrite lookup_singleton_eq|].
    by apply elem_of_nil in Hm. }
  pose proof Hloop as Htrace.
  apply (td_loop_trace h eval_functions (td_seed root parent_result)) in Htrace
    as (Hinv & _); [|apply td_seed_init|done].
  specialize (Hinv root). unfold td_seed in Hinv. rewrite decide_True in Hinv by done.
  destruct (results !! root) as [v|] eqn:Hroot; [|done].
  exists v, results, calls. unfold eval_spn_top_down. rewrite Hlayers, decide_True.
  - cbn [mbind res_bind]. rewrite for_each_concat, Hloop. cbn [mbind res_bind].
    unfold getitem. by rewrite Hroot.
  - apply Nat.le_antisymm; apply submseteq_length, NoDup_submseteq; done.
Qed.

(** C9.  The two evaluators resolve the handler of a leaf in opposite orders.
    On a closed store, with a handler registered for [ILeafNode]:
    [eval_spn_top_down] returns on a graph without cycles when a handler
    applies to every node and the handler of every inner node feeds all the
    children of the node; and when it returns, it has made one call on each
    node reachable from the root, the call on every reachable leaf is a call
    of the handler of [ILeafNode], and so is every call on a leaf, whether or
    not a handler is registered for the class of the leaf.
    [eval_spn_bottom_up] returns on a graph without cycles when a handler
    applies to every node; and when it returns, it has made one call on each
    node reachable from the root, every call on a node whose class has a
    handler is a call of that handler, and the handler of [ILeafNode] is
    called only on leaves whose class has none. *)
Theorem leaf_dispatch_precedence {V M : Type} (h : store) (root : nat)
    (bu_functions : gmap pyclass (bu_handler V))
    (td_functions : gmap pyclass (td_handler M)) (parent_result : M) :
  wf_store h root →
  (∀ leaf_func,
     td_functions !! cILeafNode = Some leaf_func →
     (acyclic h root →
      (∀ n, reachable h root n → td_applicable h td_functions n) →
      (∀ n, reachable h root n → isinstance h n cILeafNode = false →
            td_feeds h td_functions n) →
      ∃ v results calls,
        eval_spn_top_down h root td_functions parent_result = Ok (v, results, calls))
     ∧ ∀ v results calls,
         eval_spn_top_down h root td_functions parent_result = Ok (v, results, calls) →
         NoDup (td_node <$> calls)
         ∧ (∀ n, reachable h root n → isinstance h n cILeafNode = true →
              ∃ c, c ∈ calls ∧ td_node c = n ∧ td_key c = cILeafNode
                   ∧ td_result c = leaf_func n (td_params c))
         ∧ (∀ c, c ∈ calls → isinstance h (td_node c) cILeafNode = true →
              td_key c = cILeafNode ∧ td_result c = leaf_func (td_node c) (td_params c)))
  ∧ (acyclic h root →
     (∀ n, reachable h root n → bu_applicable h bu_functions n) →
     ∃ v results calls, eval_spn_bottom_up h root bu_functions = Ok (v, results, calls))
  ∧ (∀ v results calls,
     eval_spn_bottom_up h root bu_functions = Ok (v, results, calls) →
     NoDup (bu_node <$> calls)
     ∧ (∀ n, reachable h root n → ∃ c, c ∈ calls ∧ bu_node c = n)
     ∧ ∀ c, c ∈ calls →
         match bu_functions !! type_of h (bu_node c) with
         | Some func =>
           bu_key c = type_of h (bu_node c) ∧ bu_result c = func (bu_node c) (bu_args c)
         | None =>
           isinstance h (bu_node c) cILeafNode = true
           ∧ bu_key c = cILeafNode
           ∧ ∃ leaf_func, bu_functions !! cILeafNode = Some leaf_func
                        ∧ bu_result c = leaf_func (bu_node c) None
         end).
Proof.
  intros Hwf. split_and!.
  - intros leaf_func Hlf. split; [by apply eval_spn_top_down_total|].
    intros v results calls Heq.
    pose proof (eval_spn_top_down_run h root td_functions parent_result Hwf) as Hrun.
    rewrite Heq in Hrun. destruct Hrun as [_ Hcalls]. rewrite Forall_forall in Hcalls.
    destruct (eval_spn_top_down_nodes h root td_functions parent_result v results calls
                Hwf Heq) as [Hnd Hmem].
    split_and!; [done| |].
    + intros n Hn Hleaf. apply Hmem, list_elem_of_fmap in Hn as (c & -> & Hc).
      exists c. split; [done|]. split; [done|]. by eapply td_call_ok_leaf; eauto.
    + intros c Hc Hleaf. by eapply td_call_ok_leaf; eauto.
  - intros Hacyc Happ.
    destruct (get_topological_order_spec h root Hwf) as [Hgood _].
    destruct (Hgood Hacyc) as (order & Horder & Hnd & Hreach & Hord).
    pose proof (eval_spn_bottom_up_run h root bu_functions order Horder Hnd
                  (proj2 (Hreach root) (rtc_refl _ _)) Hord) as Hrun.
    destruct (eval_spn_bottom_up h root bu_functions) as [[[v results] calls]|e|].
    + by exists v, results, calls.
    + destruct Hrun as (_ & Hex). apply Exists_exists in Hex as (n & Hn & Hna).
      destruct Hna. by apply Happ, Hreach.
    + done.
  - intros v results calls Heq.
    destruct (get_topological_order_run h root Hwf)
      as (nodes & L & Hnd & Hnodes & Hsorted & Hrun).
    pose proof Hsorted as (HndL & Hsub & _ & Hord).
    destruct (decide (length L = length nodes)) as [Hlen|Hlen].
    + assert (L ≡ₚ nodes) as Hperm
        by (apply submseteq_length_Permutation; [by apply NoDup_submseteq|lia]).
      assert (root ∈ L) as Hroot by (rewrite Hperm; apply Hnodes, rtc_refl).
      pose proof (eval_spn_bottom_up_run h root bu_functions L Hrun HndL Hroot Hord) as Hbu.
      rewrite Heq in Hbu. destruct Hbu as (_ & Horder & Hcalls & _).
      rewrite Forall_forall in Hcalls. split_and!.
      * by rewrite Horder.
      * intros n Hn. apply Hnodes in Hn. rewrite <- Hperm, <- Horder in Hn.
        apply list_elem_of_fmap in Hn as (c & -> & Hc). by exists c.
      * intros c Hc. destruct (Hcalls c Hc) as [_ Hcall].
        destruct (bu_functions !! type_of h (bu_node c)); naive_solver.
    + unfold eval_spn_bottom_up in Heq. by rewrite Hrun in Heq.
Qed.

Lemma leaf_dispatch_precedence_witness :
  wf_store diamond 0
  ∧ broadcast !! cILeafNode = Some (λ n params, None)
  ∧ reachable diamond 0 3
  ∧ isinstance diamond 3 cILeafNode = true
  ∧ is_Some (broadcast !! type_of diamond 3)
  ∧ (∃ v results calls,
       eval_spn_top_down diamond 0 broadcast 1 = Ok (v, results, calls)
       ∧ NoDup (td_node <$> calls)
       ∧ (∀ n, reachable diamond 0 n → isinstance diamond n cILeafNode = true →
            ∃ c, c ∈ calls ∧ td_node c = n ∧ td_key c = cILeafNode
                 ∧ td_result c = None)
       ∧ (∀ c, c ∈ calls → isinstance diamond (td_node c) cILeafNode = true →
            td_key c = cILeafNode ∧ td_result c = None))
  ∧ (∃ v results calls,
       eval_spn_bottom_up diamond 0 count_leaves = Ok (v, results, calls)
       ∧ NoDup (bu_node <$> calls)
       ∧ (∀ n, reachable diamond 0 n → ∃ c, c ∈ calls ∧ bu_node c = n)
       ∧ ∀ c, c ∈ calls →
           match count_leaves !! type_of diamond (bu_node c) with
           | Some func =>
             bu_key c = type_of diamond (bu_node c)
             ∧ bu_result c = func (bu_node c) (bu_args c)
           | None =>
             isinstance diamond (bu_node c) cILeafNode = true
             ∧ bu_key c = cILeafNode
             ∧ ∃ leaf_func, count_leaves !! cILeafNode = Some leaf_func
                          ∧ bu_result c = leaf_func (bu_node c) None
           end).
Proof.
  assert (reachable diamond 0 3) as Hreach.
  { apply (rtc_l _ 0 2); [vm_compute; right; by left|].
    apply rtc_once. vm_compute. by left. }
  assert (∃ out, eval_spn_top_down diamond 0 broadcast 1 = Ok out)
    as [[[v results] calls] Htd] by (vm_compute; eexists; reflexivity).
  assert (∃ out, eval_spn_bottom_up diamond 0 count_leaves = Ok out)
    as [[[v' results'] calls'] Hbu] by (vm_compute; eexists; reflexivity).
  pose proof (leaf_dispatch_precedence diamond 0 count_leaves broadcast 1 wf_store_diamond)
    as (Htop & _ & Hbottom).
  refine (conj wf_store_diamond (conj eq_refl (conj Hreach (conj eq_refl
            (conj (ex_intro _ _ eq_refl) (conj _ _)))))).
  - exists v, results, calls.
    exact (conj Htd (proj2 (Htop (λ n params, None) eq_refl) v results calls Htd)).
  - exists v', results', calls'.
    exact (conj Hbu (Hbottom v' results' calls' Hbu)).
Defined.

(** ** The likelihood of a Gaussian leaf and its logarithm *)

Section gaussian_exp_facts.
Context {F : Type}.
Variable isnan : F → bool.
Variable float_repr : F → string.
Variable np_exp : F → F.
Variable close : F → F → Prop.


End gaussian_exp_facts.

